(** * SingleLinkedList: a shallow embedding of single-linked-list.h

    The container is pointer based: nodes live on the free store, a list
    object holds the sentinel [head_] and the counter [size_], and cursors
    are bare node pointers.  Several properties of the header depend on node
    identity (iterator equality, the short-circuit of [operator==], the
    assertion of [operator=]) and on which object a member function is called
    on, so the embedding keeps an explicit store of list objects and of nodes
    and threads it through every operation with a small state-and-error
    monad. *)

From stdpp Require Import gmap list.

Local Open Scope Z_scope.

(** ** Pointers *)

Abbreviation loc := positive (only parsing).

(** A [Node*] is null, the address of the sentinel [head_] that lies inside
    the list object at [l], or the address of a node on the free store. *)
Inductive ptr : Type :=
  | nullptr
  | head_of (l : loc)
  | node_at (a : loc).

#[global] Instance ptr_eq_dec : EqDecision ptr.
Proof. solve_decision. Defined.

(** [size_t] is a 64-bit unsigned integer; [++] and [--] wrap around. *)
Definition size_max : Z := 2 ^ 64.
Definition wrap (z : Z) : Z := z mod size_max.

(** A node takes at least sixteen bytes of the 64-bit address space, so no
    more than [max_nodes] of them are ever live; past that [new] throws. *)
Definition max_nodes : Z := 2 ^ 60.

Inductive error : Type :=
  | AssertionFailed      (* an [assert] fired (builds without NDEBUG) *)
  | UndefinedBehaviour   (* null, dangling or sentinel access, bad delete *)
  | BadAlloc             (* [new] threw std::bad_alloc *)
  | OutOfFuel.           (* a loop of the model ran out of fuel *)

#[global] Instance error_eq_dec : EqDecision error.
Proof. solve_decision. Defined.

(** [BasicIterator<ValueType>]: one private field, [node_].  The mutable and
    the constant iterator differ only in the type of the reference they hand
    out, so one record serves both. *)
Record BasicIterator : Type := Iterator { node_ : ptr }.

#[global] Instance BasicIterator_eq_dec : EqDecision BasicIterator.
Proof. solve_decision. Defined.

Section SingleLinkedList.

(** The template parameter [Type], its [operator==], and whether the header
    is compiled with NDEBUG (which turns every [assert] into nothing). *)
Context {T : Type}.
Variable T_eqb : T → T → bool.
Variable NDEBUG : bool.

(** [struct Node { Type value; Node *next_node; }] *)
Record Node : Type := mkNode { value : T; next_node : ptr }.

(** The data members of [SingleLinkedList]: [Node head_; size_t size_].
    Only [head_.next_node] is kept: [head_.value] is default-initialised and
    never read by the class. *)
Record SingleLinkedList : Type := mkList { head_next_node : ptr; size_ : Z }.

(** The store: the live list objects and the live free-store nodes. *)
Record state : Type := mkState {
  lists : gmap positive SingleLinkedList;
  nodes : gmap positive Node
}.

Inductive outcome (A : Type) : Type :=
  | Ok (a : A) (σ : state)
  | Err (e : error).
Arguments Ok {A} a σ.
Arguments Err {A} e.

Definition M (A : Type) : Type := state → outcome A.

Definition ret {A} (a : A) : M A := λ σ, Ok a σ.
Definition throw {A} (e : error) : M A := λ _, Err e.
Definition bind {A B} (c : M A) (k : A → M B) : M B :=
  λ σ, match c σ with Ok a σ' => k a σ' | Err e => Err e end.

Notation "x <- c ;; k" := (bind c (λ x, k))
  (at level 100, c at next level, right associativity).
Notation "c ;;; k" := (bind c (λ _, k))
  (at level 100, right associativity).

(** [assert(e)]: the expression is evaluated only without NDEBUG. *)
Definition assert_ (e : M bool) : M unit :=
  if NDEBUG then ret tt
  else b <- e ;; if b then ret tt else throw AssertionFailed.

(** A [while] loop over the local variables [s].  Callers give it as much
    fuel as the loop can use on a chain of distinct nodes (one more than the
    number of live nodes, or than the length of the array walked); on a
    cyclic chain the loop of the header does not end and the model answers
    [OutOfFuel]. *)
Fixpoint while_ {S} (fuel : nat) (cond : S → M bool) (body : S → M S) (s : S)
  : M S :=
  match fuel with
  | O => throw OutOfFuel
  | S fuel' =>
      b <- cond s ;;
      if b then s' <- body s ;; while_ fuel' cond body s' else ret s
  end.

(** *** Memory accesses *)

Definition get_list (this : loc) : M SingleLinkedList :=
  λ σ, match lists σ !! this with
       | Some L => Ok L σ
       | None => Err UndefinedBehaviour
       end.

Definition put_list (this : loc) (L : SingleLinkedList) : M unit :=
  λ σ, match lists σ !! this with
       | Some _ => Ok tt (mkState (<[this := L]> (lists σ)) (nodes σ))
       | None => Err UndefinedBehaviour
       end.

Definition read_size (this : loc) : M Z :=
  L <- get_list this ;; ret (size_ L).

Definition write_size (this : loc) (n : Z) : M unit :=
  L <- get_list this ;; put_list this (mkList (head_next_node L) n).

(** [p->next_node] as an rvalue. *)
Definition load_next (p : ptr) : M ptr :=
  match p with
  | nullptr => throw UndefinedBehaviour
  | head_of l => L <- get_list l ;; ret (head_next_node L)
  | node_at a =>
      λ σ, match nodes σ !! a with
           | Some n => Ok (next_node n) σ
           | None => Err UndefinedBehaviour
           end
  end.

(** [p->next_node = q]. *)
Definition store_next (p q : ptr) : M unit :=
  match p with
  | nullptr => throw UndefinedBehaviour
  | head_of l => L <- get_list l ;; put_list l (mkList q (size_ L))
  | node_at a =>
      λ σ, match nodes σ !! a with
           | Some n =>
               Ok tt (mkState (lists σ) (<[a := mkNode (value n) q]> (nodes σ)))
           | None => Err UndefinedBehaviour
           end
  end.

(** [p->value] as an rvalue; the sentinel's value is indeterminate. *)
Definition load_value (p : ptr) : M T :=
  match p with
  | nullptr | head_of _ => throw UndefinedBehaviour
  | node_at a =>
      λ σ, match nodes σ !! a with
           | Some n => Ok (value n) σ
           | None => Err UndefinedBehaviour
           end
  end.

(** [new Node(val, next)] *)
Definition new_Node (val : T) (next : ptr) : M ptr :=
  λ σ, if decide (Z.of_nat (size (nodes σ)) < max_nodes) then
         let a := fresh (dom (nodes σ)) in
         Ok (node_at a) (mkState (lists σ) (<[a := mkNode val next]> (nodes σ)))
       else Err BadAlloc.

(** [delete p] *)
Definition delete_ (p : ptr) : M unit :=
  match p with
  | nullptr => ret tt
  | head_of _ => throw UndefinedBehaviour
  | node_at a =>
      λ σ, match nodes σ !! a with
           | Some _ => Ok tt (mkState (lists σ) (delete a (nodes σ)))
           | None => Err UndefinedBehaviour
           end
  end.

(** *** BasicIterator *)

(** [operator==]: [rhs.node_ == node_] *)
Definition it_eq (this rhs : BasicIterator) : bool :=
  bool_decide (node_ rhs = node_ this).

(** [operator!=]: [!(rhs == *this)] *)
Definition it_ne (this rhs : BasicIterator) : bool :=
  negb (it_eq rhs this).

(** [operator++()] *)
Definition it_incr (this : BasicIterator) : M BasicIterator :=
  assert_ (ret (bool_decide (node_ this ≠ nullptr))) ;;;
  n <- load_next (node_ this) ;;
  ret (Iterator n).

(** [operator*()] *)
Definition it_deref (this : BasicIterator) : M T :=
  assert_ (ret (bool_decide (node_ this ≠ nullptr))) ;;;
  load_value (node_ this).

(** *** SingleLinkedList: cursors and size *)

Definition begin_ (this : loc) : M BasicIterator :=
  L <- get_list this ;; ret (Iterator (head_next_node L)).

Definition end_ (this : loc) : M BasicIterator :=
  _ <- get_list this ;; ret (Iterator nullptr).

Definition before_begin (this : loc) : M BasicIterator :=
  _ <- get_list this ;; ret (Iterator (head_of this)).

Definition GetSize (this : loc) : M Z := read_size this.

Definition IsEmpty (this : loc) : M bool :=
  n <- GetSize this ;; ret (n =? 0).

Definition SetSize (this : loc) (size : Z) : M unit :=
  write_size this size.

(** [SingleLinkedList()] for an object placed at a fresh address. *)
Definition new_list : M loc :=
  λ σ, let l := fresh (dom (lists σ)) in
       Ok l (mkState (<[l := mkList nullptr 0]> (lists σ)) (nodes σ)).

(** *** Mutation *)

Definition InsertAfter (this : loc) (pos : BasicIterator) (val : T)
  : M BasicIterator :=
  assert_ (ret (bool_decide (node_ pos ≠ nullptr))) ;;;
  nxt <- load_next (node_ pos) ;;
  new_node <- new_Node val nxt ;;
  store_next (node_ pos) new_node ;;;
  n <- read_size this ;; write_size this (wrap (n + 1)) ;;;
  r <- load_next (node_ pos) ;;
  ret (Iterator r).

Definition PopFront (this : loc) : M unit :=
  e <- IsEmpty this ;;
  if e then ret tt
  else
    del_pointer <- load_next (head_of this) ;;
    nxt <- load_next del_pointer ;;
    store_next (head_of this) nxt ;;;
    delete_ del_pointer ;;;
    n <- read_size this ;; write_size this (wrap (n - 1)).

Definition EraseAfter (this : loc) (pos : BasicIterator) : M BasicIterator :=
  e <- IsEmpty this ;;
  if e then ret (Iterator nullptr)
  else
    assert_ (ret (bool_decide (node_ pos ≠ nullptr))) ;;;
    assert_ (n <- load_next (node_ pos) ;; ret (bool_decide (n ≠ nullptr))) ;;;
    if decide (node_ pos = nullptr) then ret (Iterator nullptr)
    else
      delete_node <- load_next (node_ pos) ;;
      nn <- load_next delete_node ;;
      store_next (node_ pos) nn ;;;
      n <- read_size this ;; write_size this (wrap (n - 1)) ;;;
      delete_ delete_node ;;;
      r <- load_next (node_ pos) ;;
      ret (Iterator r).

(** [std::swap] on the two data members. *)
Definition swap (this other : loc) : M unit :=
  e <- IsEmpty other ;;
  if e then ret tt
  else
    so <- read_size other ;; st <- read_size this ;;
    write_size other st ;;; write_size this so ;;;
    ho <- load_next (head_of other) ;; ht <- load_next (head_of this) ;;
    store_next (head_of other) ht ;;; store_next (head_of this) ho.

Definition PushFront (this : loc) (val : T) : M unit :=
  h <- load_next (head_of this) ;;
  n <- new_Node val h ;;
  store_next (head_of this) n ;;;
  s <- read_size this ;; write_size this (wrap (s + 1)).

(** The loop of [Clear] frees one node per turn, so the number of live nodes
    bounds its length. *)
Definition Clear (this : loc) : M unit :=
  s <- read_size this ;;
  if s =? 0 then ret tt
  else
    fuel <- (λ σ, Ok (S (size (nodes σ))) σ) ;;
    while_ fuel
      (λ _, h <- load_next (head_of this) ;; ret (bool_decide (h ≠ nullptr)))
      (λ _, node_to_delete <- load_next (head_of this) ;;
            nxt <- load_next node_to_delete ;;
            store_next (head_of this) nxt ;;;
            delete_ node_to_delete)
      tt ;;;
    write_size this 0.

Definition InitHead (this : loc) (val : T) : M unit :=
  n <- new_Node val nullptr ;;
  store_next (head_of this) n ;;;
  s <- read_size this ;; write_size this (wrap (s + 1)).

(** [~SingleLinkedList()], then the object's storage goes away. *)
Definition destroy_list (this : loc) : M unit :=
  Clear this ;;;
  λ σ, Ok tt (mkState (delete this (lists σ)) (nodes σ)).

(** *** Construction and assignment *)

(** What [PushListTmp] asks of its template parameter [It]: dereference,
    [std::advance(p, 1)] and [!=]. *)
Class InputIt (It : Type) : Type := {
  deref : It → M T;
  advance1 : It → M It;
  neq : It → It → bool
}.

(** A [const Type*] into the array behind a [std::initializer_list]. *)
Record ArrayIt : Type := mkArrayIt { arr : list T; idx : nat }.

#[global] Instance ArrayIt_InputIt : InputIt ArrayIt := {
  deref p := match arr p !! idx p with
             | Some v => ret v
             | None => throw UndefinedBehaviour
             end;
  advance1 p := if decide (idx p < length (arr p))%nat
                then ret (mkArrayIt (arr p) (S (idx p)))
                else throw UndefinedBehaviour;
  neq p q := bool_decide (idx p ≠ idx q)
}.

#[global] Instance BasicIterator_InputIt : InputIt BasicIterator := {
  deref := it_deref;
  advance1 := it_incr;
  neq := it_ne
}.

Definition PushListTmp {It} `{InputIt It} (fuel : nat) (this : loc)
    (begin end' : It) : M unit :=
  let p := begin in
  tmp <- new_list ;;
  v <- deref p ;;
  InitHead tmp v ;;;
  tmp_p <- begin_ tmp ;;
  p <- advance1 p ;;
  while_ fuel
    (λ s, ret (neq (fst s) end'))
    (λ s, v <- deref (fst s) ;;
          tmp_p <- InsertAfter tmp (snd s) v ;;
          p <- advance1 (fst s) ;;
          ret (p, tmp_p))
    (p, tmp_p) ;;;
  swap this tmp ;;;
  destroy_list tmp.

(** [SingleLinkedList(std::initializer_list<Type> values)] *)
Definition SingleLinkedList_init (values : list T) : M loc :=
  this <- new_list ;;
  PushListTmp (S (length values)) this
    (mkArrayIt values 0) (mkArrayIt values (length values)) ;;;
  ret this.

(** [SingleLinkedList(const SingleLinkedList &other)] *)
Definition SingleLinkedList_copy (other : loc) : M loc :=
  this <- new_list ;;
  e <- IsEmpty other ;;
  if e then ret this
  else
    fuel <- (λ σ, Ok (S (size (nodes σ))) σ) ;;
    b <- begin_ other ;; e <- end_ other ;;
    PushListTmp fuel this b e ;;;
    ret this.

(** [operator=]; the temporary dies at the end of the block. *)
Definition assign (this rhs : loc) : M loc :=
  assert_ (a <- load_next (head_of this) ;;
           b <- load_next (head_of rhs) ;;
           ret (bool_decide (a ≠ b))) ;;;
  (if decide (this ≠ rhs) then
     tmp <- SingleLinkedList_copy rhs ;;
     swap this tmp ;;;
     destroy_list tmp
   else ret tt) ;;;
  ret this.

(** The free function [swap(lhs, rhs)]. *)
Definition swap_free (lhs rhs : loc) : M unit := swap lhs rhs.

(** *** Comparison *)

(** [std::equal(first1, last1, first2, last2)] on forward iterators. *)
Fixpoint std_equal (fuel : nat) (first1 last1 first2 last2 : BasicIterator)
  : M bool :=
  match fuel with
  | O => throw OutOfFuel
  | S fuel' =>
      if it_ne first1 last1 && it_ne first2 last2 then
        x <- it_deref first1 ;; y <- it_deref first2 ;;
        if T_eqb x y then
          first1' <- it_incr first1 ;; first2' <- it_incr first2 ;;
          std_equal fuel' first1' last1 first2' last2
        else ret false
      else ret (it_eq first1 last1 && it_eq first2 last2)
  end.

(** [operator==(lhs, rhs)] *)
Definition list_eq (lhs rhs : loc) : M bool :=
  bl <- begin_ lhs ;; br <- begin_ rhs ;;
  if it_eq bl br then ret true
  else
    sl <- GetSize lhs ;; sr <- GetSize rhs ;;
    if sl =? sr then
      el <- end_ lhs ;; er <- end_ rhs ;;
      fuel <- (λ σ, Ok (S (size (nodes σ))) σ) ;;
      std_equal fuel bl el br er
    else ret false.

(** [operator!=(lhs, rhs)] *)
Definition list_ne (lhs rhs : loc) : M bool :=
  b <- list_eq lhs rhs ;; ret (negb b).

(** *** Observation *)

(** What a caller sees by walking the list from [begin()] to [end()] with
    [!=], [++] and the dereference operator, collecting the values met. *)
Definition iterate (this : loc) : M (list T) :=
  b <- begin_ this ;; e <- end_ this ;;
  fuel <- (λ σ, Ok (S (size (nodes σ))) σ) ;;
  r <- while_ fuel
         (λ s, ret (it_ne (fst s) e))
         (λ s, v <- it_deref (fst s) ;;
               it <- it_incr (fst s) ;;
               ret (it, snd s ++ [v]))
         (b, []) ;;
  ret (snd r).

(** ** Well-formed stores *)

(** [lseg h p q ns]: following [next_node] from [p] visits exactly the nodes
    [ns] (address and value, in order) and then arrives at [q]. *)
Fixpoint lseg (h : gmap positive Node) (p q : ptr) (ns : list (positive * T))
  : Prop :=
  match ns with
  | [] => p = q
  | n :: ns' =>
      p = node_at n.1 ∧ ∃ r, h !! n.1 = Some (mkNode n.2 r) ∧ lseg h r q ns'
  end.

(** The list object at [l] owns the chain [ns], and its counter agrees. *)
Definition is_list (σ : state) (l : loc) (ns : list (positive * T)) : Prop :=
  ∃ L, lists σ !! l = Some L
       ∧ lseg (nodes σ) (head_next_node L) nullptr ns
       ∧ size_ L = Z.of_nat (length ns).

(** [represents σ own]: the store [σ] holds exactly the lists of [own], each
    owning its chain of nodes; no node belongs to two lists, and the free
    store respects its capacity. *)
Record represents (σ : state) (own : gmap positive (list (positive * T)))
  : Prop := mkRepresents {
  rep_capacity : Z.of_nat (size (nodes σ)) ≤ max_nodes;
  rep_dom : ∀ l, is_Some (lists σ !! l) ↔ is_Some (own !! l);
  rep_lists : ∀ l ns, own !! l = Some ns → is_list σ l ns;
  rep_disjoint : ∀ l1 l2 ns1 ns2,
    l1 ≠ l2 → own !! l1 = Some ns1 → own !! l2 = Some ns2 → ns1.*1 ## ns2.*1
}.

Definition wf (σ : state) : Prop := ∃ own, represents σ own.

(** The pointer to the first node of a chain, null for the empty chain. *)
Definition first_ptr (ns : list (positive * T)) : ptr :=
  match ns with
  | [] => nullptr
  | n :: _ => node_at n.1
  end.

(** The cursor [pos] designates position [i] of the list at [l]: the
    sentinel for [0], the [i]-th node otherwise. *)
Definition cursor_at (l : loc) (ns : list (positive * T)) (i : nat)
    (pos : BasicIterator) : Prop :=
  match i with
  | O => node_ pos = head_of l
  | S j => ∃ n, ns !! j = Some n ∧ node_ pos = node_at n.1
  end.

(** What [std::equal] decides on two ranges: equally many elements, equal
    pairwise under the element type's [operator==]. *)
Fixpoint equal_values (xs ys : list T) : bool :=
  match xs, ys with
  | [], [] => true
  | x :: xs', y :: ys' => T_eqb x y && equal_values xs' ys'
  | _, _ => false
  end.

(** ** Client programs *)

(** The calls a client may make; lists start out default-constructed. *)
Inductive op : Type :=
  | OpNew
  | OpPushFront (l : loc) (v : T)
  | OpInsertAfter (l : loc) (pos : BasicIterator) (v : T)
  | OpPopFront (l : loc)
  | OpEraseAfter (l : loc) (pos : BasicIterator)
  | OpClear (l : loc)
  | OpSwap (l1 l2 : loc).

Definition run_op (o : op) : M unit :=
  match o with
  | OpNew => new_list ;;; ret tt
  | OpPushFront l v => PushFront l v
  | OpInsertAfter l pos v => InsertAfter l pos v ;;; ret tt
  | OpPopFront l => PopFront l
  | OpEraseAfter l pos => EraseAfter l pos ;;; ret tt
  | OpClear l => Clear l
  | OpSwap l1 l2 => swap_free l1 l2
  end.

(** What the header asks of the caller: a cursor handed to [InsertAfter] or
    [EraseAfter] designates a position of that very list. *)
Definition precondition (σ : state) (o : op) : Prop :=
  match o with
  | OpInsertAfter l pos _ =>
      ∃ ns i, is_list σ l ns ∧ cursor_at l ns i pos
  | OpEraseAfter l pos =>
      ∃ ns, is_list σ l ns ∧ (ns = [] ∨ ∃ i, cursor_at l ns i pos)
  | _ => True
  end.

(** Calls that take no cursor, and straight-line programs of them. *)
Definition cursor_free (o : op) : bool :=
  match o with
  | OpInsertAfter _ _ _ | OpEraseAfter _ _ => false
  | _ => true
  end.

Fixpoint run_ops (os : list op) : M unit :=
  match os with
  | [] => ret tt
  | o :: os' => run_op o ;;; run_ops os'
  end.

Inductive reachable : state → Prop :=
  | reachable_init : reachable (mkState ∅ ∅)
  | reachable_step σ o σ' :
      reachable σ → precondition σ o → run_op o σ = Ok tt σ' → reachable σ'.

End SingleLinkedList.

Arguments Node T : clear implicits.
Arguments state T : clear implicits.
Arguments outcome T A : clear implicits.
Arguments M T A : clear implicits.
Arguments op T : clear implicits.
Arguments InputIt T It : clear implicits.
Arguments ArrayIt T : clear implicits.
Arguments Ok {T A} a σ.
Arguments Err {T A} e.

Notation "x <- c ;; k" := (bind c (λ x, k))
  (at level 100, c at next level, right associativity).
Notation "c ;;; k" := (bind c (λ _, k))
  (at level 100, right associativity).

(** ** Ordering *)

Section Ordering.

(** The element type's [operator<]. *)
Context {T : Type}.
Variable T_ltb : T → T → bool.
Variable NDEBUG : bool.

(** [std::lexicographical_compare(first1, last1, first2, last2)] on forward
    iterators: the first pair of elements of which one is less than the
    other decides; failing that, the range that ends first is the lesser. *)
Fixpoint std_lexicographical_compare (fuel : nat)
    (first1 last1 first2 last2 : BasicIterator) : M T bool :=
  match fuel with
  | O => throw OutOfFuel
  | S fuel' =>
      if it_ne first1 last1 && it_ne first2 last2 then
        x <- it_deref NDEBUG first1 ;; y <- it_deref NDEBUG first2 ;;
        if T_ltb x y then ret true
        else
          y' <- it_deref NDEBUG first2 ;; x' <- it_deref NDEBUG first1 ;;
          if T_ltb y' x' then ret false
          else
            first1' <- it_incr NDEBUG first1 ;;
            first2' <- it_incr NDEBUG first2 ;;
            std_lexicographical_compare fuel' first1' last1 first2' last2
      else ret (it_eq first1 last1 && it_ne first2 last2)
  end.

(** [operator<(lhs, rhs)] *)
Definition list_lt (lhs rhs : loc) : M T bool :=
  bl <- begin_ lhs ;; el <- end_ lhs ;;
  br <- begin_ rhs ;; er <- end_ rhs ;;
  fuel <- (λ σ, Ok (S (size (nodes σ))) σ) ;;
  std_lexicographical_compare fuel bl el br er.

(** [operator>(lhs, rhs)]: [rhs < lhs] *)
Definition list_gt (lhs rhs : loc) : M T bool := list_lt rhs lhs.

(** [operator<=(lhs, rhs)]: [!(rhs < lhs)] *)
Definition list_le (lhs rhs : loc) : M T bool :=
  b <- list_lt rhs lhs ;; ret (negb b).

(** [operator>=(lhs, rhs)]: [!(rhs > lhs)] *)
Definition list_ge (lhs rhs : loc) : M T bool :=
  b <- list_gt rhs lhs ;; ret (negb b).

(** Lexicographic order on sequences of values, by recursion. *)
Fixpoint lex_lt (xs ys : list T) : bool :=
  match xs, ys with
  | _, [] => false
  | [], _ :: _ => true
  | x :: xs', y :: ys' =>
      if T_ltb x y then true
      else if T_ltb y x then false
      else lex_lt xs' ys'
  end.

End Ordering.

(** ** The whole interface *)

Section Api.

Context {T : Type}.
Variable NDEBUG : bool.

(** Every public call that changes the store, but for [SetSize] and
    [InitHead]: the two constructors from values and from a list, the
    destructor, copy assignment, and the calls of [op] (which has default
    construction). *)
Inductive call : Type :=
  | CallInit (values : list T)
  | CallCopy (other : loc)
  | CallDestroy (l : loc)
  | CallAssign (this rhs : loc)
  | CallOp (o : op T).

Definition run_call (c : call) : M T unit :=
  match c with
  | CallInit values => SingleLinkedList_init NDEBUG values ;;; ret tt
  | CallCopy other => SingleLinkedList_copy NDEBUG other ;;; ret tt
  | CallDestroy l => destroy_list l
  | CallAssign this rhs => assign NDEBUG this rhs ;;; ret tt
  | CallOp o => run_op NDEBUG o
  end.

(** What the language and the header ask of the caller: a list passed by
    reference, or destroyed, is a live object; cursors as for [op]. *)
Definition call_precondition (σ : state T) (c : call) : Prop :=
  match c with
  | CallInit _ => True
  | CallCopy other => is_Some (lists σ !! other)
  | CallDestroy l => is_Some (lists σ !! l)
  | CallAssign this rhs =>
      is_Some (lists σ !! this) ∧ is_Some (lists σ !! rhs)
  | CallOp o => precondition σ o
  end.

Inductive reachable_api : state T → Prop :=
  | reachable_api_init : reachable_api (mkState ∅ ∅)
  | reachable_api_step σ c σ' :
      reachable_api σ → call_precondition σ c →
      run_call c σ = Ok tt σ' → reachable_api σ'.

(** Calls that take no cursor and only live lists, decided on the store. *)
Definition call_checked (σ : state T) (c : call) : bool :=
  match c with
  | CallInit _ => true
  | CallCopy other => bool_decide (is_Some (lists σ !! other))
  | CallDestroy l => bool_decide (is_Some (lists σ !! l))
  | CallAssign this rhs =>
      bool_decide (is_Some (lists σ !! this))
      && bool_decide (is_Some (lists σ !! rhs))
  | CallOp o => cursor_free o
  end.

(** A straight-line program of such calls; [None] when a call is refused
    or fails. *)
Fixpoint run_calls (cs : list call) (σ : state T) : option (state T) :=
  match cs with
  | [] => Some σ
  | c :: cs' =>
      if call_checked σ c then
        match run_call c σ with
        | Ok _ σ' => run_calls cs' σ'
        | Err _ => None
        end
      else None
  end.

(** Every node on the free store belongs to a list. *)
Definition no_garbage (σ : state T) : Prop :=
  ∀ a, is_Some (nodes σ !! a) → ∃ l ns, is_list σ l ns ∧ a ∈ ns.*1.

(** The same, against the ownership map of [represents]. *)
Definition covers (σ : state T) (own : gmap positive (list (positive * T)))
  : Prop :=
  ∀ a, a ∈ dom (nodes σ) → ∃ l ns, own !! l = Some ns ∧ a ∈ ns.*1.

End Api.

Arguments call T : clear implicits.

(** ** Sample stores over [Z]

    [store_ab] is what a client gets from two default constructions and
    [PushFront(20)], [PushFront(10)] on the first list: list [1] holds
    [10, 20] and list [2] is empty. *)

Definition build_ab : list (op Z) :=
  [OpNew; OpNew; OpPushFront 1 20; OpPushFront 1 10].

Definition store_ab : state Z :=
  mkState
    (<[1%positive := mkList (node_at 2) 2]>
       (<[2%positive := mkList nullptr 0]> ∅))
    (<[2%positive := mkNode 10 (node_at 1)]>
       (<[1%positive := mkNode 20 nullptr]> ∅)).

Definition chain_ab : list (positive * Z) :=
  [(2%positive, 10); (1%positive, 20)].

(** What a test program started on an empty store returns, or how it
    fails; the header is compiled with assertions. *)
Definition result_of {A} (c : M Z A) : option A :=
  match c (mkState ∅ ∅) with
  | Ok a _ => Some a
  | Err _ => None
  end.

Definition failure_of {A} (c : M Z A) : option error :=
  match c (mkState ∅ ∅) with
  | Ok _ _ => None
  | Err e => Some e
  end.

(** Both lists of a two-list test, as a caller sees them. *)
Definition both (l1 l2 : positive) : M Z (list Z * list Z) :=
  v1 <- iterate false l1 ;; v2 <- iterate false l2 ;; ret (v1, v2).

(** A list as a caller sees it, with its size. *)
Definition contents (l : positive) : M Z (list Z * Z) :=
  vs <- iterate false l ;; n <- GetSize l ;; ret (vs, n).

(** [store_abc] has a third list, [3], holding [30]. *)
Definition build_abc : list (op Z) :=
  build_ab ++ [OpNew; OpPushFront 3 30].

Definition store_abc : state Z :=
  mkState
    (<[1%positive := mkList (node_at 2) 2]>
       (<[2%positive := mkList nullptr 0]>
          (<[3%positive := mkList (node_at 3) 1]> ∅)))
    (<[2%positive := mkNode 10 (node_at 1)]>
       (<[1%positive := mkNode 20 nullptr]>
          (<[3%positive := mkNode 30 nullptr]> ∅))).

Definition chain_c : list (positive * Z) := [(3%positive, 30)].

(** [store_cmp] holds four lists to compare: [1] and [2] both hold
    [10, 20] in nodes of their own, [3] holds [10, 30] and [4] holds
    [30]. *)
Definition build_cmp : list (op Z) :=
  [OpNew; OpNew; OpNew; OpNew;
   OpPushFront 1 20; OpPushFront 1 10;
   OpPushFront 2 20; OpPushFront 2 10;
   OpPushFront 3 30; OpPushFront 3 10;
   OpPushFront 4 30].

Definition store_cmp : state Z :=
  mkState
    (<[1%positive := mkList (node_at 2) 2]>
       (<[2%positive := mkList (node_at 4) 2]>
          (<[3%positive := mkList (node_at 6) 2]>
             (<[4%positive := mkList (node_at 7) 1]> ∅))))
    (<[1%positive := mkNode 20 nullptr]>
       (<[2%positive := mkNode 10 (node_at 1)]>
          (<[3%positive := mkNode 20 nullptr]>
             (<[4%positive := mkNode 10 (node_at 3)]>
                (<[5%positive := mkNode 30 nullptr]>
                   (<[6%positive := mkNode 10 (node_at 5)]>
                      (<[7%positive := mkNode 30 nullptr]> ∅))))))).

Definition chain_1 : list (positive * Z) :=
  [(2%positive, 10); (1%positive, 20)].
Definition chain_2 : list (positive * Z) :=
  [(4%positive, 10); (3%positive, 20)].
Definition chain_3 : list (positive * Z) :=
  [(6%positive, 10); (5%positive, 30)].
Definition chain_4 : list (positive * Z) := [(7%positive, 30)].

(** The store a program of public calls leaves behind when started on an
    empty store. *)
Definition store_after (cs : list (call Z)) : state Z :=
  match run_calls false cs (mkState ∅ ∅) with
  | Some σ => σ
  | None => mkState ∅ ∅
  end.

(** Construct from values, copy, grow the copy, assign it back, destroy
    the copy. *)
Definition calls_copy_assign : list (call Z) :=
  [CallInit [1; 2; 3]; CallCopy 1; CallOp (OpPushFront 2 0);
   CallAssign 1 2; CallDestroy 2].

(** The same with the first list destroyed as well. *)
Definition calls_destroy_all : list (call Z) :=
  calls_copy_assign ++ [CallDestroy 1].

(** * Properties *)

Section Proofs.

Context {T : Type} (T_eqb : T → T → bool) (NDEBUG : bool).

(* [set_solver] clears hypotheses by names that are not always there. *)
#[local] Set Warnings "-clear-no-such-hyp".

Implicit Types (σ : state T) (h : gmap positive (Node T)).
Implicit Types (ns : list (positive * T)) (p q r : ptr).

(** ** Chains *)

Lemma lseg_app h p q ns1 ns2 :
  lseg h p q (ns1 ++ ns2) ↔ ∃ r, lseg h p r ns1 ∧ lseg h r q ns2.
Proof.
  revert p. induction ns1 as [|n ns1 IH]; intros p; simpl.
  - split; [intros H; by exists p | by intros (r & -> & H)].
  - split.
    + intros (-> & r & Hn & Hr). apply IH in Hr as (r' & H1 & H2).
      exists r'. eauto.
    + intros (r' & (-> & r & Hn & H1) & H2). split; [done|].
      exists r. split; [done|]. apply IH. eauto.
Qed.

Lemma lseg_frame h h' p q ns :
  (∀ a, a ∈ ns.*1 → h' !! a = h !! a) → lseg h p q ns → lseg h' p q ns.
Proof.
  revert p. induction ns as [|n ns IH]; intros p Hagree; simpl; [done|].
  intros (-> & r & Hn & Hr). split; [done|]. exists r. split.
  - rewrite Hagree; [done|]. simpl. left.
  - apply IH; [|done]. intros a Ha. apply Hagree. simpl. by right.
Qed.

Lemma lseg_det h p ns1 ns2 :
  lseg h p nullptr ns1 → lseg h p nullptr ns2 → ns1 = ns2.
Proof.
  revert p ns2. induction ns1 as [|[a v] ns1 IH]; intros p [|[b w] ns2]; simpl.
  - done.
  - intros -> (? & _); discriminate.
  - intros (-> & _) ?; discriminate.
  - intros (-> & r & Hn & Hr) (Hb & r' & Hn' & Hr').
    injection Hb as <-. rewrite Hn in Hn'. injection Hn' as <- <-.
    f_equal. by eapply IH.
Qed.

Lemma lseg_lookup h p q ns a :
  lseg h p q ns → a ∈ ns.*1 → is_Some (h !! a).
Proof.
  revert p. induction ns as [|n ns IH]; intros p; simpl.
  - intros _ Ha. by apply elem_of_nil in Ha.
  - intros (-> & r & Hn & Hr) [->|Ha]%elem_of_cons; [by eexists|].
    by eapply IH.
Qed.

Lemma lseg_NoDup h p ns : lseg h p nullptr ns → NoDup ns.*1.
Proof.
  revert p. induction ns as [|[a v] ns IH]; intros p; simpl.
  - intros _. constructor.
  - intros (-> & r & Hn & Hr). constructor; [|by eapply IH].
    intros Ha. apply list_elem_of_fmap in Ha as ([a' w] & Heq & Hin).
    simpl in Heq. subst a'.
    apply list_elem_of_split in Hin as (l1 & l2 & ->).
    apply lseg_app in Hr as Hsplit. destruct Hsplit as (r' & _ & H2).
    assert (Hwhole : lseg h (node_at a) nullptr ((a, v) :: l1 ++ (a, w) :: l2)).
    { simpl. eauto. }
    simpl in H2. destruct H2 as (-> & H2).
    assert (Hsuffix : lseg h (node_at a) nullptr ((a, w) :: l2)).
    { simpl. eauto. }
    pose proof (lseg_det _ _ _ _ Hwhole Hsuffix) as Heq.
    apply (f_equal length) in Heq. simpl in Heq. rewrite length_app in Heq.
    simpl in Heq. lia.
Qed.

Lemma lseg_length h p ns :
  lseg h p nullptr ns → (length ns ≤ size h)%nat.
Proof.
  intros Hseg. pose proof (lseg_NoDup _ _ _ Hseg) as Hnd.
  rewrite <- (length_fmap fst ns).
  rewrite <- (size_list_to_set (C := gset positive) _ Hnd).
  rewrite <- size_dom. apply subseteq_size.
  intros a Ha. apply elem_of_list_to_set in Ha.
  apply elem_of_dom. by eapply lseg_lookup.
Qed.

(** ** Running the monad *)

Lemma bind_Ok {A B} (c : M T A) (k : A → M T B) σ a σ1 :
  c σ = Ok a σ1 → (x <- c ;; k x) σ = k a σ1.
Proof. unfold bind. by intros ->. Qed.

Lemma bind_Err {A B} (c : M T A) (k : A → M T B) σ e :
  c σ = Err e → (x <- c ;; k x) σ = Err e.
Proof. unfold bind. by intros ->. Qed.

Lemma bind_assoc {A B C} (c : M T A) (d : A → M T B) (k : B → M T C) σ :
  (x <- (y <- c ;; d y) ;; k x) σ = (y <- c ;; x <- d y ;; k x) σ.
Proof. unfold bind. by destruct (c σ). Qed.

Lemma bind_ret {A B} (a : A) (k : A → M T B) σ :
  (x <- ret a ;; k x) σ = k a σ.
Proof. reflexivity. Qed.

Lemma get_list_run σ l L : lists σ !! l = Some L → get_list l σ = Ok L σ.
Proof. unfold get_list. by intros ->. Qed.

Lemma put_list_run σ l L L' :
  lists σ !! l = Some L →
  put_list l L' σ = Ok tt (mkState (<[l := L']> (lists σ)) (nodes σ)).
Proof. unfold put_list. by intros ->. Qed.

Lemma read_size_run σ l L :
  lists σ !! l = Some L → read_size l σ = Ok (size_ L) σ.
Proof. intros H. unfold read_size. by rewrite (bind_Ok _ _ _ _ _ (get_list_run _ _ _ H)). Qed.

Lemma write_size_run σ l L n :
  lists σ !! l = Some L →
  write_size l n σ =
    Ok tt (mkState (<[l := mkList (head_next_node L) n]> (lists σ)) (nodes σ)).
Proof.
  intros H. unfold write_size.
  rewrite (bind_Ok _ _ _ _ _ (get_list_run _ _ _ H)). by eapply put_list_run.
Qed.

Lemma load_next_head σ l L :
  lists σ !! l = Some L → load_next (head_of l) σ = Ok (head_next_node L) σ.
Proof. intros H. simpl. by rewrite (bind_Ok _ _ _ _ _ (get_list_run _ _ _ H)). Qed.

Lemma load_next_node σ a n :
  nodes σ !! a = Some n → load_next (node_at a) σ = Ok (next_node n) σ.
Proof. simpl. by intros ->. Qed.

Lemma load_value_node σ a n :
  nodes σ !! a = Some n → load_value (node_at a) σ = Ok (value n) σ.
Proof. simpl. by intros ->. Qed.

Lemma store_next_head σ l L q :
  lists σ !! l = Some L →
  store_next (head_of l) q σ =
    Ok tt (mkState (<[l := mkList q (size_ L)]> (lists σ)) (nodes σ)).
Proof.
  intros H. simpl.
  rewrite (bind_Ok _ _ _ _ _ (get_list_run _ _ _ H)). by eapply put_list_run.
Qed.

Lemma store_next_node σ a n q :
  nodes σ !! a = Some n →
  store_next (node_at a) q σ =
    Ok tt (mkState (lists σ) (<[a := mkNode (value n) q]> (nodes σ))).
Proof. simpl. by intros ->. Qed.

Lemma new_Node_run σ v q :
  Z.of_nat (size (nodes σ)) < max_nodes →
  new_Node v q σ =
    Ok (node_at (fresh (dom (nodes σ))))
       (mkState (lists σ) (<[fresh (dom (nodes σ)) := mkNode v q]> (nodes σ))).
Proof. intros H. unfold new_Node. by rewrite decide_True. Qed.

Lemma delete_run σ a n :
  nodes σ !! a = Some n →
  delete_ (node_at a) σ = Ok tt (mkState (lists σ) (delete a (nodes σ))).
Proof. simpl. by intros ->. Qed.

Lemma assert_run (e : M T bool) σ :
  e σ = Ok true σ → assert_ NDEBUG e σ = Ok tt σ.
Proof.
  intros H. unfold assert_. destruct NDEBUG; [done|].
  by rewrite (bind_Ok _ _ _ _ _ H).
Qed.

Lemma IsEmpty_run σ l L :
  lists σ !! l = Some L → IsEmpty l σ = Ok (size_ L =? 0) σ.
Proof.
  intros H. unfold IsEmpty, GetSize.
  by rewrite (bind_Ok _ _ _ _ _ (read_size_run _ _ _ H)).
Qed.

Lemma fresh_node σ : nodes σ !! fresh (dom (nodes σ)) = None.
Proof. apply not_elem_of_dom. apply is_fresh. Qed.

#[local] Arguments load_next : simpl never.
#[local] Arguments store_next : simpl never.
#[local] Arguments load_value : simpl never.
#[local] Arguments delete_ : simpl never.

Ltac msimpl :=
  cbn [node_ lists nodes next_node value head_next_node size_ fst snd].

Ltac solve_lookup :=
  msimpl;
  repeat first
    [ rewrite lookup_insert_eq
    | rewrite lookup_insert_ne by (first [done | congruence])
    | rewrite lookup_delete_ne by (first [done | congruence]) ];
  first [reflexivity | eassumption].

Ltac mstep lem := erewrite bind_Ok by (eapply lem; solve_lookup); msimpl.

Lemma lseg_first h p q ns : lseg h p q ns → ns ≠ [] → p = first_ptr ns.
Proof. destruct ns; [done|]. by intros (-> & _) _. Qed.

Lemma lseg_first_null h p ns : lseg h p nullptr ns → p = first_ptr ns.
Proof. destruct ns; [done|]. by intros (-> & _). Qed.

Lemma is_list_length σ l ns :
  is_list σ l ns → (length ns ≤ size (nodes σ))%nat.
Proof. intros (L & _ & Hseg & _). by eapply lseg_length. Qed.

Lemma PushFront_run σ l L v :
  lists σ !! l = Some L →
  Z.of_nat (size (nodes σ)) < max_nodes →
  PushFront l v σ =
    Ok tt (mkState
             (<[l := mkList (node_at (fresh (dom (nodes σ)))) (wrap (size_ L + 1))]>
                (lists σ))
             (<[fresh (dom (nodes σ)) := mkNode v (head_next_node L)]> (nodes σ))).
Proof.
  intros Hl Hcap. unfold PushFront.
  mstep load_next_head. 
  erewrite bind_Ok by (by eapply new_Node_run). simpl.
  mstep store_next_head. mstep read_size_run.
  erewrite write_size_run by solve_lookup. simpl.
  by rewrite insert_insert_eq.
Qed.

(** ** Updating one list of a well-formed store *)

Implicit Types (own : gmap positive (list (positive * T))).

Lemma represents_lookup σ own l ns :
  represents σ own → own !! l = Some ns →
  ∃ L, lists σ !! l = Some L
       ∧ lseg (nodes σ) (head_next_node L) nullptr ns
       ∧ size_ L = Z.of_nat (length ns).
Proof. intros Hrep Hl. by apply (rep_lists _ _ Hrep). Qed.

Lemma represents_length σ own l ns :
  represents σ own → own !! l = Some ns →
  Z.of_nat (length ns) ≤ Z.of_nat (size (nodes σ)).
Proof.
  intros Hrep Hl. apply (rep_lists _ _ Hrep) in Hl.
  apply is_list_length in Hl. lia.
Qed.

Lemma represents_update σ σ' own l ns ns' L' :
  represents σ own → own !! l = Some ns →
  lists σ' = <[l := L']> (lists σ) →
  lseg (nodes σ') (head_next_node L') nullptr ns' →
  size_ L' = Z.of_nat (length ns') →
  (∀ a, a ∉ ns.*1 → is_Some (nodes σ !! a) → nodes σ' !! a = nodes σ !! a) →
  (∀ a, a ∈ ns'.*1 → a ∈ ns.*1 ∨ nodes σ !! a = None) →
  Z.of_nat (size (nodes σ')) ≤ max_nodes →
  represents σ' (<[l := ns']> own).
Proof.
  intros Hrep Hl Hlists Hseg Hsize Hkeep Hnew Hcap.
  assert (Hother : ∀ l0 ns0 a, l0 ≠ l → own !! l0 = Some ns0 → a ∈ ns0.*1 →
                     (a ∉ ns.*1) ∧ is_Some (nodes σ !! a)).
  { intros l0 ns0 a Hne Hl0 Ha. split.
    - intros Ha'. by eapply (rep_disjoint _ _ Hrep l0 l ns0 ns).
    - destruct (rep_lists _ _ Hrep _ _ Hl0) as (L0 & _ & Hseg0 & _).
      by eapply lseg_lookup. }
  split.
  - done.
  - intros l0. rewrite Hlists. destruct (decide (l0 = l)) as [->|Hne].
    + rewrite !lookup_insert_eq. split; eauto.
    + rewrite !lookup_insert_ne by done. apply (rep_dom _ _ Hrep).
  - intros l0 ns0. destruct (decide (l0 = l)) as [->|Hne].
    + rewrite lookup_insert_eq. intros [= <-]. exists L'.
      rewrite Hlists, lookup_insert_eq. done.
    + rewrite lookup_insert_ne by done. intros Hl0.
      destruct (rep_lists _ _ Hrep _ _ Hl0) as (L0 & HL0 & Hseg0 & Hsz0).
      exists L0. rewrite Hlists, lookup_insert_ne by done.
      split_and!; [done| |done].
      eapply lseg_frame; [|done]. intros a Ha.
      destruct (Hother _ _ _ Hne Hl0 Ha). by apply Hkeep.
  - intros l1 l2 ns1 ns2 Hne.
    destruct (decide (l1 = l)) as [->|Hne1];
      destruct (decide (l2 = l)) as [->|Hne2]; try done.
    + rewrite lookup_insert_eq, lookup_insert_ne by done.
      intros [= <-] Hl2 a Ha1 Ha2.
      destruct (Hother _ _ _ Hne2 Hl2 Ha2) as [Hnot [n Hsome]].
      destruct (Hnew _ Ha1) as [?|Hnone]; [done|]. congruence.
    + rewrite lookup_insert_eq, lookup_insert_ne by done.
      intros Hl1 [= <-] a Ha1 Ha2.
      destruct (Hother _ _ _ Hne1 Hl1 Ha1) as [Hnot [n Hsome]].
      destruct (Hnew _ Ha2) as [?|Hnone]; [done|]. congruence.
    + rewrite !lookup_insert_ne by done. by apply (rep_disjoint _ _ Hrep).
Qed.

Lemma wrap_small z : 0 ≤ z < size_max → wrap z = z.
Proof. intros H. unfold wrap. by apply Z.mod_small. Qed.

Lemma max_nodes_lt_size_max : max_nodes < size_max.
Proof. reflexivity. Qed.

Lemma new_list_spec σ own :
  represents σ own →
  new_list σ =
    Ok (fresh (dom (lists σ)))
       (mkState (<[fresh (dom (lists σ)) := mkList nullptr 0]> (lists σ))
                (nodes σ))
  ∧ own !! fresh (dom (lists σ)) = None
  ∧ represents
      (mkState (<[fresh (dom (lists σ)) := mkList nullptr 0]> (lists σ))
               (nodes σ))
      (<[fresh (dom (lists σ)) := []]> own).
Proof.
  intros Hrep. set (l := fresh (dom (lists σ))).
  assert (Hfresh : lists σ !! l = None).
  { apply not_elem_of_dom. apply is_fresh. }
  assert (Hown : own !! l = None).
  { apply eq_None_not_Some. intros H. apply (rep_dom _ _ Hrep) in H.
    rewrite Hfresh in H. by destruct H. }
  split_and!; [done|done|]. split; simpl.
  - apply (rep_capacity _ _ Hrep).
  - intros l0. destruct (decide (l0 = l)) as [->|Hne].
    + rewrite !lookup_insert_eq. split; eauto.
    + rewrite !lookup_insert_ne by done. apply (rep_dom _ _ Hrep).
  - intros l0 ns0. destruct (decide (l0 = l)) as [->|Hne].
    + rewrite lookup_insert_eq. intros [= <-]. exists (mkList nullptr 0).
      simpl. by rewrite lookup_insert_eq.
    + rewrite lookup_insert_ne by done. intros Hl0.
      destruct (rep_lists _ _ Hrep _ _ Hl0) as (L0 & HL0 & Hseg0 & Hsz0).
      exists L0. simpl. by rewrite lookup_insert_ne.
  - intros l1 l2 ns1 ns2 Hne.
    destruct (decide (l1 = l)) as [->|Hne1];
      destruct (decide (l2 = l)) as [->|Hne2]; try done.
    + rewrite lookup_insert_eq. intros [= <-] _ a Ha. by apply elem_of_nil in Ha.
    + rewrite lookup_insert_ne, lookup_insert_eq by done.
      intros _ [= <-] a _ Ha. by apply elem_of_nil in Ha.
    + rewrite !lookup_insert_ne by done. by apply (rep_disjoint _ _ Hrep).
Qed.

Lemma PushFront_spec σ own l ns v :
  represents σ own → own !! l = Some ns →
  Z.of_nat (size (nodes σ)) < max_nodes →
  ∃ σ', PushFront l v σ = Ok tt σ'
        ∧ nodes σ !! fresh (dom (nodes σ)) = None
        ∧ size (nodes σ') = S (size (nodes σ))
        ∧ represents σ' (<[l := (fresh (dom (nodes σ)), v) :: ns]> own).
Proof.
  intros Hrep Hl Hcap.
  destruct (represents_lookup _ _ _ _ Hrep Hl) as (L & HL & Hseg & Hsz).
  pose proof (represents_length _ _ _ _ Hrep Hl) as Hlen.
  pose proof (fresh_node σ) as Hfresh.
  pose proof max_nodes_lt_size_max as Hmax.
  eexists. split; [by apply PushFront_run|]. split; [done|].
  split; [by apply map_size_insert_None|].
  eapply represents_update; [done..| | | | | ]; simpl.
  - split; [done|]. eexists. rewrite lookup_insert_eq. split; [done|].
    eapply lseg_frame; [|done]. intros a Ha.
    rewrite lookup_insert_ne; [done|]. intros <-.
    destruct (lseg_lookup _ _ _ _ _ Hseg Ha). congruence.
  - rewrite wrap_small by lia. lia.
  - intros a _ [n Hn]. rewrite lookup_insert_ne; [done|]. congruence.
  - intros a [->|Ha]%elem_of_cons; [by right|by left].
  - rewrite map_size_insert_None by done. lia.
Qed.

Lemma lookup_None_Some_ne {A} (m : gmap positive A) a b n :
  m !! a = None → m !! b = Some n → a ≠ b.
Proof. intros Ha Hb ->. congruence. Qed.

Lemma lseg_insert_frame h p q ns a x :
  a ∉ ns.*1 → lseg h p q ns → lseg (<[a := x]> h) p q ns.
Proof.
  intros Ha. apply lseg_frame. intros b Hb.
  rewrite lookup_insert_ne; [done|]. by intros <-.
Qed.

Lemma lseg_delete_frame h p q ns a :
  a ∉ ns.*1 → lseg h p q ns → lseg (delete a h) p q ns.
Proof.
  intros Ha. apply lseg_frame. intros b Hb.
  rewrite lookup_delete_ne; [done|]. by intros <-.
Qed.

Lemma lseg_fresh h p q ns a : h !! a = None → lseg h p q ns → a ∉ ns.*1.
Proof.
  intros Hnone Hseg Ha. destruct (lseg_lookup _ _ _ _ _ Hseg Ha). congruence.
Qed.

(** The chain cut at its [j]-th node. *)
Lemma lseg_split_at h p ns j n :
  lseg h p nullptr ns → ns !! j = Some n →
  ∃ r, lseg h p (node_at n.1) (take j ns)
       ∧ h !! n.1 = Some (mkNode n.2 r)
       ∧ lseg h r nullptr (drop (S j) ns)
       ∧ (n.1 ∉ (take j ns).*1)
       ∧ (n.1 ∉ (drop (S j) ns).*1)
       ∧ (take j ns).*1 ## (drop (S j) ns).*1.
Proof.
  intros Hseg Hj. pose proof (lseg_NoDup _ _ _ Hseg) as Hnd.
  rewrite <- (take_drop_middle ns j n Hj) in Hseg, Hnd.
  apply lseg_app in Hseg as (r0 & Htake & Hrest).
  simpl in Hrest. destruct Hrest as (-> & r & Hn & Hdrop).
  rewrite fmap_app, fmap_cons in Hnd.
  apply NoDup_app in Hnd as (_ & Hdisj & Hnd2).
  apply NoDup_cons in Hnd2 as (Hnotin & _).
  exists r. split_and!; try done.
  - intros Hin. apply (Hdisj _ Hin). left.
  - intros a Ha1 Ha2. apply (Hdisj _ Ha1). by right.
Qed.

Lemma assert_ret_run b σ : b = true → assert_ NDEBUG (ret b) σ = Ok tt σ.
Proof. intros ->. by apply assert_run. Qed.

Lemma InsertAfter_spec σ own l ns i pos v :
  represents σ own → own !! l = Some ns → cursor_at l ns i pos →
  Z.of_nat (size (nodes σ)) < max_nodes →
  ∃ σ', InsertAfter NDEBUG l pos v σ
          = Ok (Iterator (node_at (fresh (dom (nodes σ))))) σ'
        ∧ nodes σ !! fresh (dom (nodes σ)) = None
        ∧ size (nodes σ') = S (size (nodes σ))
        ∧ represents σ'
            (<[l := take i ns ++ (fresh (dom (nodes σ)), v) :: drop i ns]> own).
Proof.
  intros Hrep Hl Hcur Hcap.
  destruct (represents_lookup _ _ _ _ Hrep Hl) as (L & HL & Hseg & Hsz).
  pose proof (represents_length _ _ _ _ Hrep Hl) as Hlen.
  pose proof (fresh_node σ) as Hfresh.
  pose proof max_nodes_lt_size_max as Hmax.
  pose proof (lseg_fresh _ _ _ _ _ Hfresh Hseg) as Hnotin.
  set (a := fresh (dom (nodes σ))) in *.
  destruct pos as [p]. destruct i as [|j]; simpl in Hcur.
  - (* after the sentinel *)
    subst p. unfold InsertAfter. simpl node_.
    rewrite (bind_Ok _ _ _ _ _ (assert_ret_run _ σ eq_refl)).
    mstep load_next_head.
    erewrite bind_Ok by (by eapply new_Node_run). simpl.
    mstep store_next_head. mstep read_size_run.
    erewrite bind_Ok by (eapply write_size_run; solve_lookup). simpl.
    mstep load_next_head.
    eexists. split; [reflexivity|]. split; [done|].
    rewrite !insert_insert_eq.
    split; [by apply map_size_insert_None|].
    eapply represents_update; [done..| | | | | ]; simpl.
    + split; [done|]. eexists. fold a. rewrite lookup_insert_eq. split; [done|].
      rewrite drop_0. by apply lseg_insert_frame.
    + rewrite drop_0, wrap_small by lia. lia.
    + intros b _ [n Hn]. rewrite lookup_insert_ne; [done|].
      by eapply lookup_None_Some_ne.
    + rewrite drop_0. intros b [->|Hb]%elem_of_cons; [by right|by left].
    + rewrite map_size_insert_None by done. lia.
  - (* after the node [n] *)
    destruct Hcur as ([b w] & Hj & ->). simpl.
    destruct (lseg_split_at _ _ _ _ _ Hseg Hj)
      as (r & Htake & Hb & Hdrop & Hb1 & Hb2 & Hdisj). simpl in *.
    assert (Hab : a ≠ b).
    { by eapply lookup_None_Some_ne. }
    unfold InsertAfter. simpl node_.
    rewrite (bind_Ok _ _ _ _ _ (assert_ret_run _ σ eq_refl)).
    mstep load_next_node.
    erewrite bind_Ok by (by eapply new_Node_run). simpl.
    mstep store_next_node. mstep read_size_run.
    erewrite bind_Ok by (eapply write_size_run; solve_lookup). simpl.
    mstep load_next_node.
    eexists. split; [reflexivity|]. split; [done|]. fold a.
    split.
    { simpl. rewrite map_size_insert_Some.
      - by apply map_size_insert_None.
      - rewrite lookup_insert_ne by done. eauto. }
    assert (Hin : b ∈ ns.*1).
    { apply list_elem_of_fmap. exists (b, w). split; [done|].
      by eapply list_elem_of_lookup_2. }
    eapply represents_update; [done..| | | | | ]; simpl.
    + rewrite (take_S_r _ _ _ Hj), <- app_assoc. apply lseg_app.
      exists (node_at b). split.
      * apply lseg_insert_frame; [done|]. apply lseg_insert_frame; [|done].
        intros Ha. apply Hnotin. rewrite <- (take_drop j ns), fmap_app.
        apply elem_of_app. by left.
      * simpl. split; [done|]. eexists. rewrite lookup_insert_eq.
        split; [done|]. split; [done|]. eexists.
        rewrite lookup_insert_ne, lookup_insert_eq by done. split; [done|].
        apply lseg_insert_frame; [done|]. apply lseg_insert_frame; [|done].
        intros Ha. apply Hnotin. rewrite <- (take_drop (S j) ns), fmap_app.
        apply elem_of_app. by right.
    + rewrite length_app. simpl. rewrite length_take, length_drop.
      apply lookup_lt_Some in Hj. rewrite wrap_small by lia. lia.
    + intros c Hc [n Hn]. rewrite !lookup_insert_ne; [done| |].
      * by eapply lookup_None_Some_ne.
      * by intros <-.
    + intros c Hc. rewrite fmap_app, fmap_cons in Hc.
      apply elem_of_app in Hc as [Hc|[->|Hc]%elem_of_cons].
      * left. rewrite <- (take_drop (S j) ns), fmap_app.
        apply elem_of_app. by left.
      * by right.
      * left. rewrite <- (take_drop (S j) ns), fmap_app.
        apply elem_of_app. by right.
    + rewrite map_size_insert_Some.
      * rewrite map_size_insert_None by done. lia.
      * rewrite lookup_insert_ne by done. eauto.
Qed.

Lemma insert_same_represents σ own l ns :
  own !! l = Some ns → represents σ own → represents σ (<[l := ns]> own).
Proof. intros Hl. by rewrite insert_id. Qed.

Lemma PopFront_spec σ own l ns :
  represents σ own → own !! l = Some ns →
  ∃ σ', PopFront l σ = Ok tt σ'
        ∧ represents σ' (<[l := tail ns]> own)
        ∧ (ns = [] → σ' = σ).
Proof.
  intros Hrep Hl.
  destruct (represents_lookup _ _ _ _ Hrep Hl) as (L & HL & Hseg & Hsz).
  pose proof (represents_length _ _ _ _ Hrep Hl) as Hlen.
  pose proof (rep_capacity _ _ Hrep) as Hcap.
  pose proof max_nodes_lt_size_max as Hmax.
  unfold PopFront. mstep IsEmpty_run.
  destruct ns as [|[a v] ns']; simpl in *.
  - rewrite Hsz. simpl. exists σ. split; [done|].
    split; [by apply insert_same_represents|done].
  - destruct Hseg as (Hhead & r & Ha & Hrest). simpl in *.
    pose proof (lseg_NoDup _ _ _ Hrest) as Hnd.
    assert (Hnotin : a ∉ ns'.*1).
    { intros Hin.
      assert (Hwhole : lseg (nodes σ) (node_at a) nullptr ((a, v) :: ns')).
      { simpl. eauto. }
      apply lseg_NoDup in Hwhole. simpl in Hwhole.
      by apply NoDup_cons in Hwhole as (? & _). }
    destruct (size_ L =? 0) eqn:Hz; [lia|].
    mstep load_next_head. rewrite Hhead.
    mstep load_next_node. mstep store_next_head.
    erewrite bind_Ok by (by eapply delete_run). simpl.
    mstep read_size_run.
    erewrite write_size_run by solve_lookup. simpl.
    eexists. split; [reflexivity|]. rewrite insert_insert_eq.
    split; [|done].
    eapply represents_update; [done..| | | | | ]; simpl.
    + by apply lseg_delete_frame.
    + rewrite wrap_small by lia. lia.
    + intros b Hb _. rewrite lookup_delete_ne; [done|].
      intros <-. apply Hb. left.
    + intros b Hb. left. by right.
    + pose proof (map_size_delete a (nodes σ)) as Hdel. rewrite Ha in Hdel.
      lia.
Qed.

Lemma EraseAfter_empty σ l L pos :
  lists σ !! l = Some L → size_ L = 0 →
  EraseAfter NDEBUG l pos σ = Ok (Iterator nullptr) σ.
Proof.
  intros HL Hsz. unfold EraseAfter. mstep IsEmpty_run. by rewrite Hsz.
Qed.

Lemma EraseAfter_spec σ own l ns i pos :
  represents σ own → own !! l = Some ns → cursor_at l ns i pos →
  (i < length ns)%nat →
  ∃ σ', EraseAfter NDEBUG l pos σ
          = Ok (Iterator (first_ptr (drop (S i) ns))) σ'
        ∧ represents σ' (<[l := take i ns ++ drop (S i) ns]> own)
        ∧ (∀ n, ns !! i = Some n → nodes σ' !! n.1 = None).
Proof.
  intros Hrep Hl Hcur Hi.
  destruct (represents_lookup _ _ _ _ Hrep Hl) as (L & HL & Hseg & Hsz).
  pose proof (represents_length _ _ _ _ Hrep Hl) as Hlen.
  pose proof (rep_capacity _ _ Hrep) as Hcap.
  pose proof max_nodes_lt_size_max as Hmax.
  unfold EraseAfter. mstep IsEmpty_run.
  destruct (size_ L =? 0) eqn:Hz; [lia|].
  destruct pos as [p]. destruct i as [|j]; simpl in Hcur.
  - (* the first node goes *)
    subst p. destruct ns as [|[a v] ns']; simpl in Hi, Hseg, Hsz, Hlen; [lia|].
    destruct Hseg as (Hhead & r & Ha & Hrest). simpl in Ha.
    assert (Hnotin : a ∉ ns'.*1).
    { intros Hin.
      assert (Hwhole : lseg (nodes σ) (node_at a) nullptr ((a, v) :: ns')).
      { simpl. eauto. }
      apply lseg_NoDup in Hwhole. simpl in Hwhole.
      by apply NoDup_cons in Hwhole as (? & _). }
    rewrite (bind_Ok _ _ _ _ _ (assert_ret_run _ σ eq_refl)).
    erewrite bind_Ok; cycle 1.
    { apply assert_run. mstep load_next_head. by rewrite Hhead. }
    msimpl. rewrite decide_False by done.
    mstep load_next_head. rewrite Hhead.
    mstep load_next_node. mstep store_next_head. mstep read_size_run.
    erewrite bind_Ok by (eapply write_size_run; solve_lookup). simpl.
    erewrite bind_Ok by (by eapply delete_run). simpl.
    mstep load_next_head.
    rewrite drop_0, <- (lseg_first_null _ _ _ Hrest).
    eexists. split; [reflexivity|]. rewrite insert_insert_eq.
    split; [|intros n [= <-]; apply lookup_delete_eq].
    eapply represents_update; [done..| | | | | ]; simpl.
    + by apply lseg_delete_frame.
    + rewrite wrap_small by lia. lia.
    + intros b Hb _. rewrite lookup_delete_ne; [done|].
      intros <-. apply Hb. left.
    + intros b Hb. left. by right.
    + pose proof (map_size_delete a (nodes σ)) as Hdel. rewrite Ha in Hdel.
      lia.
  - (* the node after [n] goes *)
    destruct Hcur as ([b w] & Hj & ->). msimpl.
    destruct (lseg_split_at _ _ _ _ _ Hseg Hj)
      as (r & Htake & Hb & Hdrop & Hb1 & Hb2 & Hdisj).
    simpl in Htake, Hb, Hb1, Hb2.
    destruct (lookup_lt_is_Some_2 ns (S j) Hi) as [[c u] Hc].
    rewrite (drop_S _ _ _ Hc) in Hdrop, Hb2, Hdisj.
    pose proof (lseg_NoDup _ _ _ Hdrop) as Hnd.
    simpl in Hdrop. destruct Hdrop as (-> & r' & Hc' & Hrest).
    rewrite fmap_cons in Hnd, Hb2, Hdisj. simpl in Hnd, Hb2, Hdisj, Hc'.
    apply NoDup_cons in Hnd as (Hc2 & _).
    assert (Hbc : b ≠ c). { intros ->. apply Hb2. left. }
    assert (Hc1 : c ∉ (take j ns).*1).
    { intros Hin. apply (Hdisj _ Hin). left. }
    rewrite (bind_Ok _ _ _ _ _ (assert_ret_run _ σ eq_refl)).
    erewrite bind_Ok; cycle 1.
    { apply assert_run. by mstep load_next_node. }
    msimpl. rewrite decide_False by done.
    mstep load_next_node. mstep load_next_node. mstep store_next_node.
    mstep read_size_run.
    erewrite bind_Ok by (eapply write_size_run; solve_lookup). simpl.
    erewrite bind_Ok by (eapply delete_run; solve_lookup). simpl.
    mstep load_next_node.
    rewrite <- (lseg_first_null _ _ _ Hrest).
    eexists. split; [reflexivity|].
    split; [|intros n Hn; rewrite Hc in Hn; injection Hn as <-;
             apply lookup_delete_eq].
    eapply represents_update; [done..| | | | | ]; simpl.
    + rewrite (take_S_r _ _ _ Hj), <- app_assoc. apply lseg_app.
      exists (node_at b). split.
      * apply lseg_delete_frame; [done|]. by apply lseg_insert_frame.
      * simpl. split; [done|]. eexists.
        rewrite lookup_delete_ne, lookup_insert_eq by done. split; [done|].
        apply lseg_delete_frame; [done|]. apply lseg_insert_frame; [|done].
        intros Hin. apply Hb2. by right.
    + rewrite length_app, length_take, length_drop.
      rewrite wrap_small by lia. lia.
    + intros a Ha _. rewrite lookup_delete_ne, lookup_insert_ne; [done| |].
      * intros <-. apply Ha. apply list_elem_of_fmap. exists (b, w).
        split; [done|]. by eapply list_elem_of_lookup_2.
      * intros <-. apply Ha. apply list_elem_of_fmap. exists (c, u).
        split; [done|]. by eapply list_elem_of_lookup_2.
    + intros a Ha. left. rewrite fmap_app in Ha.
      apply elem_of_app in Ha as [Ha|Ha].
      * rewrite <- (take_drop (S j) ns), fmap_app. apply elem_of_app. by left.
      * rewrite <- (take_drop (S (S j)) ns), fmap_app. apply elem_of_app.
        by right.
    + pose proof (map_size_delete c (<[b := mkNode w r']> (nodes σ))) as Hdel.
      rewrite lookup_insert_ne in Hdel by done. rewrite Hc' in Hdel.
      rewrite map_size_insert_Some in Hdel by eauto. lia.
Qed.

(** ** Clear *)

Lemma foldl_delete_lookup h (xs : list positive) a :
  a ∉ xs → foldl (λ m x, delete x m) h xs !! a = h !! a.
Proof.
  revert h. induction xs as [|x xs IH]; intros h Ha; simpl; [done|].
  apply not_elem_of_cons in Ha as [Hne Ha].
  rewrite IH by done. by rewrite lookup_delete_ne.
Qed.

Lemma foldl_delete_size h (xs : list positive) :
  (size (foldl (λ m x, delete x m) h xs) ≤ size h)%nat.
Proof.
  revert h. induction xs as [|x xs IH]; intros h; simpl; [done|].
  etrans; [apply IH|]. pose proof (map_size_delete x h) as Hdel.
  destruct (h !! x); simpl in Hdel; unfold id in Hdel; lia.
Qed.

Lemma Clear_loop l ns : ∀ fuel σ L,
  lists σ !! l = Some L →
  lseg (nodes σ) (head_next_node L) nullptr ns →
  (length ns < fuel)%nat →
  while_ fuel
    (λ _ : unit,
       h <- load_next (head_of l) ;; ret (bool_decide (h ≠ nullptr)))
    (λ _ : unit,
       node_to_delete <- load_next (head_of l) ;;
       nxt <- load_next node_to_delete ;;
       store_next (head_of l) nxt ;;;
       delete_ node_to_delete)
    tt σ
  = Ok tt (mkState (<[l := mkList nullptr (size_ L)]> (lists σ))
                   (foldl (λ m x, delete x m) (nodes σ) ns.*1)).
Proof.
  induction ns as [|[a v] ns IH]; intros fuel σ L HL Hseg Hfuel;
    (destruct fuel as [|fuel]; [simpl in Hfuel; lia|]); simpl while_.
  - simpl in Hseg. rewrite bind_assoc. mstep load_next_head.
    rewrite bind_ret, Hseg.
    rewrite bool_decide_false by (by intros ?). simpl.
    unfold ret. f_equal. destruct σ as [ls nd], L as [hd sz]. simpl in *.
    subst hd. by rewrite insert_id.
  - simpl in Hseg. destruct Hseg as (Hhead & r & Ha & Hrest). simpl in Ha.
    assert (Hnotin : a ∉ ns.*1).
    { intros Hin.
      assert (Hwhole : lseg (nodes σ) (node_at a) nullptr ((a, v) :: ns)).
      { simpl. eauto. }
      apply lseg_NoDup in Hwhole. simpl in Hwhole.
      by apply NoDup_cons in Hwhole as (? & _). }
    rewrite bind_assoc. mstep load_next_head. rewrite bind_ret, Hhead.
    rewrite bool_decide_true by done.
    rewrite !bind_assoc.
    mstep load_next_head. rewrite Hhead. rewrite !bind_assoc.
    mstep load_next_node. rewrite !bind_assoc. mstep store_next_head.
    erewrite bind_Ok by (by eapply delete_run). msimpl.
    erewrite IH; [| solve_lookup | by apply lseg_delete_frame
                  | simpl in Hfuel; lia ].
    simpl. by rewrite insert_insert_eq.
Qed.

Lemma Clear_spec σ own l ns :
  represents σ own → own !! l = Some ns →
  ∃ σ', Clear l σ = Ok tt σ' ∧ represents σ' (<[l := []]> own).
Proof.
  intros Hrep Hl.
  destruct (represents_lookup _ _ _ _ Hrep Hl) as (L & HL & Hseg & Hsz).
  pose proof (lseg_length _ _ _ Hseg) as Hlen.
  pose proof (rep_capacity _ _ Hrep) as Hcap.
  unfold Clear. mstep read_size_run.
  destruct (size_ L =? 0) eqn:Hz.
  - exists σ. split; [done|]. destruct ns; [|simpl in Hsz; lia].
    by apply insert_same_represents.
  - erewrite bind_Ok by reflexivity.
    erewrite bind_Ok by (eapply Clear_loop; [done|done|lia]).
    erewrite write_size_run by solve_lookup. msimpl.
    eexists. split; [reflexivity|]. rewrite insert_insert_eq.
    eapply represents_update; [done..| | | | | ]; simpl.
    + done.
    + done.
    + intros a Ha _. by apply foldl_delete_lookup.
    + intros a Ha. by apply elem_of_nil in Ha.
    + pose proof (foldl_delete_size (nodes σ) ns.*1). lia.
Qed.

(** ** swap *)

Lemma swap_empty_run σ this other L :
  lists σ !! other = Some L → size_ L = 0 → swap this other σ = Ok tt σ.
Proof. intros HL Hsz. unfold swap. mstep IsEmpty_run. by rewrite Hsz. Qed.

Lemma represents_exchange σ σ' own l1 l2 ns1 ns2 L1 L2 :
  represents σ own →
  own !! l1 = Some ns1 → own !! l2 = Some ns2 →
  lists σ !! l1 = Some L1 → lists σ !! l2 = Some L2 →
  (∀ l, lists σ' !! l =
          if decide (l = l1) then Some L2
          else if decide (l = l2) then Some L1 else lists σ !! l) →
  nodes σ' = nodes σ →
  represents σ' (<[l1 := ns2]> (<[l2 := ns1]> own)).
Proof.
  intros Hrep H1 H2 HL1 HL2 Hlists Hnodes.
  assert (Hown : ∀ l, <[l1 := ns2]> (<[l2 := ns1]> own) !! l =
            if decide (l = l1) then Some ns2
            else if decide (l = l2) then Some ns1 else own !! l).
  { intros l. rewrite !lookup_insert. repeat case_decide; congruence. }
  assert (Hview : ∀ l ns, <[l1 := ns2]> (<[l2 := ns1]> own) !! l = Some ns →
            ∃ l', own !! l' = Some ns ∧ lists σ' !! l = lists σ !! l'
                  ∧ (l = l1 → l' = l2) ∧ (l ≠ l1 → l = l2 → l' = l1)
                  ∧ (l ≠ l1 → l ≠ l2 → l' = l)).
  { intros l ns. rewrite Hown, Hlists. repeat case_decide.
    - intros [= <-]. exists l2. by rewrite HL2.
    - intros [= <-]. exists l1. by rewrite HL1.
    - intros Hl. by exists l. }
  split.
  - rewrite Hnodes. apply (rep_capacity _ _ Hrep).
  - intros l. rewrite Hown, Hlists.
    repeat case_decide; [split; eauto..|]. apply (rep_dom _ _ Hrep).
  - intros l ns Hl. destruct (Hview _ _ Hl) as (l' & Hl' & Heq & _).
    destruct (rep_lists _ _ Hrep _ _ Hl') as (L & HL & Hseg & Hsz).
    exists L. rewrite Heq, Hnodes. done.
  - intros la lb nsa nsb Hne Hla Hlb.
    destruct (Hview _ _ Hla) as (la' & Hla' & _ & Ha1 & Ha2 & Ha3).
    destruct (Hview _ _ Hlb) as (lb' & Hlb' & _ & Hb1 & Hb2 & Hb3).
    apply (rep_disjoint _ _ Hrep la' lb'); [|done|done].
    destruct (decide (la = l1)) as [Ea|Na];
      destruct (decide (lb = l1)) as [Eb|Nb];
      destruct (decide (la = l2)) as [Ea'|Na'];
      destruct (decide (lb = l2)) as [Eb'|Nb'];
      repeat match goal with
             | H : ?P → _, HP : ?P |- _ => specialize (H HP)
             end; congruence.
Qed.

Lemma swap_spec σ own l1 l2 ns1 ns2 :
  represents σ own → own !! l1 = Some ns1 → own !! l2 = Some ns2 →
  ns2 ≠ [] →
  ∃ σ', swap l1 l2 σ = Ok tt σ'
        ∧ nodes σ' = nodes σ
        ∧ represents σ' (<[l1 := ns2]> (<[l2 := ns1]> own)).
Proof.
  intros Hrep H1 H2 Hne.
  destruct (represents_lookup _ _ _ _ Hrep H1) as (L1 & HL1 & Hseg1 & Hsz1).
  destruct (represents_lookup _ _ _ _ Hrep H2) as (L2 & HL2 & Hseg2 & Hsz2).
  unfold swap. mstep IsEmpty_run.
  destruct (size_ L2 =? 0) eqn:Hz.
  { destruct ns2; [done|]. simpl in Hsz2. lia. }
  destruct (decide (l1 = l2)) as [->|Hne12].
  - (* a list swapped with itself *)
    assert (ns1 = ns2) as -> by congruence.
    assert (L1 = L2) as -> by congruence.
    do 2 mstep read_size_run. do 2 mstep write_size_run.
    do 2 mstep load_next_head. mstep store_next_head.
    erewrite store_next_head by solve_lookup. msimpl.
    eexists. split; [reflexivity|]. split; [done|].
    eapply (represents_exchange σ _ own l2 l2 ns2 ns2 L2 L2); try done.
    intros l. simpl. rewrite !lookup_insert.
    destruct L2. simpl. by repeat case_decide.
  - do 2 mstep read_size_run. do 2 mstep write_size_run.
    do 2 mstep load_next_head. mstep store_next_head.
    erewrite store_next_head by solve_lookup. msimpl.
    eexists. split; [reflexivity|]. split; [done|].
    eapply (represents_exchange σ _ own l1 l2 ns1 ns2 L1 L2); try done.
    intros l. simpl. rewrite !lookup_insert.
    destruct L1, L2. simpl. repeat case_decide; congruence.
Qed.

(** ** Observing a list *)

Lemma it_deref_run σ a n :
  nodes σ !! a = Some n →
  it_deref NDEBUG (Iterator (node_at a)) σ = Ok (value n) σ.
Proof.
  intros Ha. unfold it_deref. msimpl.
  rewrite (bind_Ok _ _ _ _ _ (assert_ret_run _ σ eq_refl)).
  by apply load_value_node.
Qed.

Lemma it_incr_run σ a n :
  nodes σ !! a = Some n →
  it_incr NDEBUG (Iterator (node_at a)) σ = Ok (Iterator (next_node n)) σ.
Proof.
  intros Ha. unfold it_incr. msimpl.
  rewrite (bind_Ok _ _ _ _ _ (assert_ret_run _ σ eq_refl)).
  by mstep load_next_node.
Qed.

Lemma it_incr_head_run σ l L :
  lists σ !! l = Some L →
  it_incr NDEBUG (Iterator (head_of l)) σ
    = Ok (Iterator (head_next_node L)) σ.
Proof.
  intros HL. unfold it_incr. msimpl.
  rewrite (bind_Ok _ _ _ _ _ (assert_ret_run _ σ eq_refl)).
  by mstep load_next_head.
Qed.

Lemma begin_run σ l L :
  lists σ !! l = Some L → begin_ l σ = Ok (Iterator (head_next_node L)) σ.
Proof. intros HL. unfold begin_. by mstep get_list_run. Qed.

Lemma end_run σ l L :
  lists σ !! l = Some L → end_ l σ = Ok (Iterator nullptr) σ.
Proof. intros HL. unfold end_. by mstep get_list_run. Qed.

Lemma before_begin_run σ l L :
  lists σ !! l = Some L → before_begin l σ = Ok (Iterator (head_of l)) σ.
Proof. intros HL. unfold before_begin. by mstep get_list_run. Qed.

Lemma iterate_loop ns : ∀ fuel σ p acc,
  lseg (nodes σ) p nullptr ns → (length ns < fuel)%nat →
  while_ fuel
    (λ s : BasicIterator * list T, ret (it_ne (fst s) (Iterator nullptr)))
    (λ s, v <- it_deref NDEBUG (fst s) ;;
          it <- it_incr NDEBUG (fst s) ;;
          ret (it, snd s ++ [v]))
    (Iterator p, acc) σ
  = Ok (Iterator nullptr, acc ++ ns.*2) σ.
Proof.
  induction ns as [|[a v] ns IH]; intros fuel σ p acc Hseg Hfuel;
    (destruct fuel as [|fuel]; [simpl in Hfuel; lia|]); simpl while_;
    simpl in Hseg.
  - subst p. rewrite bind_ret. simpl. by rewrite app_nil_r.
  - destruct Hseg as (-> & r & Ha & Hrest). simpl in Ha.
    rewrite bind_ret. cbn [fst snd].
    change (it_ne (Iterator (node_at a)) (Iterator nullptr)) with true.
    cbv iota.
    rewrite !bind_assoc. mstep it_deref_run. rewrite !bind_assoc.
    mstep it_incr_run. rewrite bind_ret.
    rewrite IH with (fuel := fuel); [|done|simpl in Hfuel; lia].
    simpl. by rewrite <- app_assoc.
Qed.

Lemma iterate_spec σ l ns :
  is_list σ l ns → iterate NDEBUG l σ = Ok ns.*2 σ.
Proof.
  intros (L & HL & Hseg & Hsz). pose proof (lseg_length _ _ _ Hseg) as Hlen.
  unfold iterate. mstep begin_run. mstep end_run.
  erewrite bind_Ok by reflexivity.
  erewrite bind_Ok by (eapply iterate_loop; [done|lia]).
  done.
Qed.

Lemma GetSize_spec σ l ns :
  is_list σ l ns → GetSize l σ = Ok (Z.of_nat (length ns)) σ.
Proof.
  intros (L & HL & Hseg & Hsz). unfold GetSize.
  rewrite (read_size_run _ _ _ HL). by rewrite Hsz.
Qed.

Lemma IsEmpty_spec σ l ns :
  is_list σ l ns → IsEmpty l σ = Ok (bool_decide (ns = [])) σ.
Proof.
  intros (L & HL & Hseg & Hsz). rewrite (IsEmpty_run _ _ _ HL), Hsz.
  do 2 f_equal. destruct ns as [|n ns]; [done|].
  rewrite bool_decide_false by done. apply Z.eqb_neq. simpl length. lia.
Qed.

Lemma begin_spec σ l ns :
  is_list σ l ns → begin_ l σ = Ok (Iterator (first_ptr ns)) σ.
Proof.
  intros (L & HL & Hseg & Hsz). rewrite (begin_run _ _ _ HL).
  by rewrite (lseg_first_null _ _ _ Hseg).
Qed.

Lemma end_spec σ l ns : is_list σ l ns → end_ l σ = Ok (Iterator nullptr) σ.
Proof. intros (L & HL & Hseg & Hsz). by rewrite (end_run _ _ _ HL). Qed.

(** ** Calls that cannot succeed *)

Lemma is_list_det σ l ns1 ns2 : is_list σ l ns1 → is_list σ l ns2 → ns1 = ns2.
Proof.
  intros (L1 & HL1 & Hseg1 & _) (L2 & HL2 & Hseg2 & _).
  rewrite HL1 in HL2. injection HL2 as <-. by eapply lseg_det.
Qed.

Lemma get_list_dead {A} σ l (k : SingleLinkedList → M T A) :
  lists σ !! l = None → (L <- get_list l ;; k L) σ = Err UndefinedBehaviour.
Proof. intros H. unfold bind, get_list. by rewrite H. Qed.

Lemma read_size_dead {A} σ l (k : Z → M T A) :
  lists σ !! l = None → (n <- read_size l ;; k n) σ = Err UndefinedBehaviour.
Proof. intros H. unfold read_size. rewrite bind_assoc. by apply get_list_dead. Qed.

Lemma load_next_head_dead {A} σ l (k : ptr → M T A) :
  lists σ !! l = None →
  (p <- load_next (head_of l) ;; k p) σ = Err UndefinedBehaviour.
Proof.
  intros H. unfold load_next. rewrite bind_assoc. by apply get_list_dead.
Qed.

Lemma new_Node_full {A} σ v q (k : ptr → M T A) :
  ¬ Z.of_nat (size (nodes σ)) < max_nodes →
  (p <- new_Node v q ;; k p) σ = Err BadAlloc.
Proof. intros H. unfold bind, new_Node. by rewrite decide_False. Qed.

Lemma PushFront_Ok_inv σ l v σ' :
  PushFront l v σ = Ok tt σ' →
  is_Some (lists σ !! l) ∧ Z.of_nat (size (nodes σ)) < max_nodes.
Proof.
  unfold PushFront. destruct (lists σ !! l) as [L|] eqn:HL.
  - mstep load_next_head.
    destruct (decide (Z.of_nat (size (nodes σ)) < max_nodes)); [by eauto|].
    by rewrite new_Node_full.
  - by rewrite load_next_head_dead.
Qed.

Lemma PopFront_Ok_inv σ l σ' :
  PopFront l σ = Ok tt σ' → is_Some (lists σ !! l).
Proof.
  unfold PopFront, IsEmpty, GetSize. destruct (lists σ !! l) as [L|] eqn:HL.
  - by eauto.
  - rewrite bind_assoc. by rewrite read_size_dead.
Qed.

Lemma Clear_Ok_inv σ l σ' :
  Clear l σ = Ok tt σ' → is_Some (lists σ !! l).
Proof.
  unfold Clear. destruct (lists σ !! l) as [L|] eqn:HL.
  - by eauto.
  - by rewrite read_size_dead.
Qed.

Lemma swap_Ok_inv σ l1 l2 σ' :
  swap l1 l2 σ = Ok tt σ' →
  ∃ L2, lists σ !! l2 = Some L2
        ∧ (size_ L2 = 0 ∨ is_Some (lists σ !! l1)).
Proof.
  unfold swap, IsEmpty, GetSize. destruct (lists σ !! l2) as [L2|] eqn:HL2.
  - intros Hrun. exists L2. split; [done|].
    rewrite bind_assoc in Hrun. revert Hrun. mstep read_size_run.
    rewrite bind_ret. destruct (size_ L2 =? 0) eqn:Hz; [left; lia|].
    mstep read_size_run. destruct (lists σ !! l1) as [L1|] eqn:HL1.
    + by eauto.
    + by rewrite read_size_dead.
  - rewrite bind_assoc. by rewrite read_size_dead.
Qed.

Lemma InsertAfter_Ok_inv σ own l ns i pos v it σ' :
  represents σ own → own !! l = Some ns → cursor_at l ns i pos →
  InsertAfter NDEBUG l pos v σ = Ok it σ' →
  Z.of_nat (size (nodes σ)) < max_nodes.
Proof.
  intros Hrep Hl Hcur.
  destruct (decide (Z.of_nat (size (nodes σ)) < max_nodes)); [done|].
  destruct (represents_lookup _ _ _ _ Hrep Hl) as (L & HL & Hseg & Hsz).
  unfold InsertAfter. destruct pos as [p]. destruct i as [|j]; simpl in Hcur.
  - subst p. msimpl.
    rewrite (bind_Ok _ _ _ _ _ (assert_ret_run _ σ eq_refl)).
    mstep load_next_head. by rewrite new_Node_full.
  - destruct Hcur as ([b w] & Hj & ->). msimpl.
    destruct (lseg_split_at _ _ _ _ _ Hseg Hj) as (r & _ & Hb & _).
    simpl in Hb.
    rewrite (bind_Ok _ _ _ _ _ (assert_ret_run _ σ eq_refl)).
    mstep load_next_node. by rewrite new_Node_full.
Qed.

(** Erasing after the last position of a non-empty list fails: the
    assertion fires, or without it the null successor is dereferenced. *)
Lemma EraseAfter_last σ own l ns pos :
  represents σ own → own !! l = Some ns → ns ≠ [] →
  cursor_at l ns (length ns) pos →
  EraseAfter NDEBUG l pos σ
    = Err (if NDEBUG then UndefinedBehaviour else AssertionFailed).
Proof.
  intros Hrep Hl Hne Hcur.
  destruct (represents_lookup _ _ _ _ Hrep Hl) as (L & HL & Hseg & Hsz).
  unfold EraseAfter. mstep IsEmpty_run.
  destruct (size_ L =? 0) eqn:Hz.
  { destruct ns; [done|]. simpl in Hsz. lia. }
  destruct pos as [p]. destruct (length ns) as [|j] eqn:Hlen; [by destruct ns|].
  simpl in Hcur. destruct Hcur as ([b w] & Hj & ->). msimpl.
  destruct (lseg_split_at _ _ _ _ _ Hseg Hj) as (r & _ & Hb & Hdrop & _).
  simpl in Hb. rewrite drop_ge in Hdrop by lia. simpl in Hdrop. subst r.
  unfold assert_. destruct NDEBUG; cbv iota.
  - rewrite !bind_ret. rewrite decide_False by done.
    by mstep load_next_node.
  - rewrite bind_assoc, bind_ret. rewrite bool_decide_true by done.
    rewrite bind_ret. rewrite !bind_assoc. mstep load_next_node.
    rewrite bind_ret. by rewrite bool_decide_false by (by intros ?).
Qed.

(** The loop of [Clear] never outlives its fuel, whatever the store: each
    turn that does not fail frees a node. *)
Lemma Clear_loop_total l : ∀ fuel σ,
  (size (nodes σ) < fuel)%nat →
  while_ fuel
    (λ _ : unit,
       h <- load_next (head_of l) ;; ret (bool_decide (h ≠ nullptr)))
    (λ _ : unit,
       node_to_delete <- load_next (head_of l) ;;
       nxt <- load_next node_to_delete ;;
       store_next (head_of l) nxt ;;;
       delete_ node_to_delete)
    tt σ
  ≠ Err OutOfFuel.
Proof.
  induction fuel as [|fuel IH]; intros σ Hfuel; [lia|]. simpl while_.
  destruct (lists σ !! l) as [L|] eqn:HL; cycle 1.
  { rewrite bind_assoc. by rewrite load_next_head_dead. }
  rewrite bind_assoc. mstep load_next_head. rewrite bind_ret.
  case_bool_decide as Hh; [|done].
  rewrite !bind_assoc. mstep load_next_head. rewrite !bind_assoc.
  destruct (head_next_node L) as [|l'|a] eqn:Hhead; [done| |].
  - (* the chain starts at another list's sentinel: [delete] is undefined *)
    destruct (lists σ !! l') as [L'|] eqn:HL'; cycle 1.
    { by rewrite load_next_head_dead. }
    mstep load_next_head. rewrite !bind_assoc.
    mstep store_next_head. by erewrite bind_Err by reflexivity.
  - destruct (nodes σ !! a) as [n|] eqn:Ha; cycle 1.
    { erewrite bind_Err; [|unfold load_next; by rewrite Ha]. done. }
    mstep load_next_node. rewrite !bind_assoc. mstep store_next_head.
    erewrite bind_Ok by (by eapply delete_run). msimpl.
    apply IH. simpl. rewrite map_size_delete, Ha. simpl.
    assert (0 < size (nodes σ))%nat; [|lia].
    destruct (decide (size (nodes σ) = 0)%nat) as [Hz|]; [|lia].
    apply map_size_empty_inv in Hz. by rewrite Hz, lookup_empty in Ha.
Qed.

Lemma Clear_total σ l : Clear l σ ≠ Err OutOfFuel.
Proof.
  unfold Clear. destruct (lists σ !! l) as [L|] eqn:HL; cycle 1.
  { by rewrite read_size_dead. }
  mstep read_size_run. destruct (size_ L =? 0); [done|].
  erewrite bind_Ok by reflexivity.
  pose proof (Clear_loop_total l (S (size (nodes σ))) σ ltac:(lia)) as Hloop.
  unfold bind at 1. destruct (while_ _ _ _ _ _) as [[] σ1|e] eqn:Hw.
  - destruct (lists σ1 !! l) as [L1|] eqn:HL1.
    + by erewrite write_size_run.
    + unfold write_size. by rewrite get_list_dead.
  - intros [= ->]. done.
Qed.

(** ** The invariant of client programs *)

Lemma represents_empty : represents (mkState (T := T) ∅ ∅) ∅.
Proof.
  split; simpl.
  - rewrite map_size_empty. unfold max_nodes. lia.
  - intros l. by rewrite !lookup_empty.
  - intros l ns. by rewrite lookup_empty.
  - intros l1 l2 ns1 ns2 _. by rewrite lookup_empty.
Qed.

Lemma represents_live σ own l :
  represents σ own → is_Some (lists σ !! l) → ∃ ns, own !! l = Some ns.
Proof. intros Hrep Hl. by apply (rep_dom _ _ Hrep) in Hl as [ns ?]; eauto. Qed.

Lemma represents_is_list σ own l ns :
  represents σ own → is_list σ l ns → own !! l = Some ns.
Proof.
  intros Hrep Hlist. destruct Hlist as (L & HL & Hrest).
  destruct (represents_live _ _ l Hrep) as [ns' Hl]; [by eauto|].
  rewrite Hl. f_equal.
  eapply is_list_det; [by apply (rep_lists _ _ Hrep)|]. by exists L.
Qed.

Lemma run_op_represents σ own o σ' :
  represents σ own → precondition σ o → run_op NDEBUG o σ = Ok tt σ' →
  ∃ own', represents σ' own'.
Proof.
  intros Hrep Hpre Hrun. destruct o as [|l v|l pos v|l|l pos|l|l1 l2];
    simpl in Hrun, Hpre.
  - destruct (new_list_spec _ _ Hrep) as (Hnew & _ & Hrep').
    rewrite (bind_Ok _ _ _ _ _ Hnew) in Hrun. injection Hrun as <-. eauto.
  - destruct (PushFront_Ok_inv _ _ _ _ Hrun) as [Hlive Hcap].
    destruct (represents_live _ _ _ Hrep Hlive) as [ns Hl].
    destruct (PushFront_spec _ _ _ _ v Hrep Hl Hcap)
      as (σ1 & Hrun1 & _ & _ & Hrep1).
    rewrite Hrun1 in Hrun. injection Hrun as <-. eauto.
  - destruct Hpre as (ns & i & Hlist & Hcur).
    pose proof (represents_is_list _ _ _ _ Hrep Hlist) as Hl.
    destruct (InsertAfter NDEBUG l pos v σ) as [it σ1|e] eqn:Hins;
      [|by rewrite (bind_Err _ _ _ _ Hins) in Hrun].
    pose proof (InsertAfter_Ok_inv _ _ _ _ _ _ _ _ _ Hrep Hl Hcur Hins) as Hcap.
    destruct (InsertAfter_spec _ _ _ _ _ _ v Hrep Hl Hcur Hcap)
      as (σ2 & Hrun2 & _ & _ & Hrep2).
    rewrite (bind_Ok _ _ _ _ _ Hins) in Hrun. injection Hrun as <-.
    rewrite Hins in Hrun2. injection Hrun2 as _ <-. eauto.
  - pose proof (PopFront_Ok_inv _ _ _ Hrun) as Hlive.
    destruct (represents_live _ _ _ Hrep Hlive) as [ns Hl].
    destruct (PopFront_spec _ _ _ _ Hrep Hl) as (σ1 & Hrun1 & Hrep1 & _).
    rewrite Hrun1 in Hrun. injection Hrun as <-. eauto.
  - destruct Hpre as (ns & Hlist & Hcur).
    pose proof (represents_is_list _ _ _ _ Hrep Hlist) as Hl.
    destruct Hlist as (L & HL & Hseg & Hsz).
    destruct ns as [|n ns'].
    { rewrite (bind_Ok _ _ _ _ _ (EraseAfter_empty _ _ _ pos HL Hsz)) in Hrun.
      injection Hrun as <-. eauto. }
    destruct Hcur as [?|[i Hcur]]; [done|].
    destruct (decide (i < length (n :: ns'))%nat) as [Hi|Hi].
    + destruct (EraseAfter_spec _ _ _ _ _ _ Hrep Hl Hcur Hi)
        as (σ1 & Hrun1 & Hrep1 & _).
      rewrite (bind_Ok _ _ _ _ _ Hrun1) in Hrun. injection Hrun as <-. eauto.
    + assert (i = length (n :: ns')) as ->.
      { destruct i as [|j]; [simpl in Hi; lia|].
        destruct Hcur as (n' & Hj & _). apply lookup_lt_Some in Hj. lia. }
      pose proof (EraseAfter_last _ _ _ _ _ Hrep Hl ltac:(done) Hcur) as He.
      by rewrite (bind_Err _ _ _ _ He) in Hrun.
  - pose proof (Clear_Ok_inv _ _ _ Hrun) as Hlive.
    destruct (represents_live _ _ _ Hrep Hlive) as [ns Hl].
    destruct (Clear_spec _ _ _ _ Hrep Hl) as (σ1 & Hrun1 & Hrep1).
    rewrite Hrun1 in Hrun. injection Hrun as <-. eauto.
  - unfold swap_free in Hrun.
    destruct (swap_Ok_inv _ _ _ _ Hrun) as (L2 & HL2 & Hcase).
    destruct (represents_live _ _ l2 Hrep) as [ns2 Hl2]; [by eauto|].
    destruct (represents_lookup _ _ _ _ Hrep Hl2) as (L2' & HL2' & _ & Hsz2).
    assert (L2' = L2) as -> by congruence.
    destruct Hcase as [Hz|Hlive].
    + rewrite (swap_empty_run _ _ _ _ HL2 Hz) in Hrun.
      injection Hrun as <-. eauto.
    + destruct (represents_live _ _ _ Hrep Hlive) as [ns1 Hl1].
      destruct ns2 as [|n ns2'].
      * rewrite (swap_empty_run _ _ _ _ HL2 Hsz2) in Hrun.
        injection Hrun as <-. eauto.
      * destruct (swap_spec _ _ _ _ _ _ Hrep Hl1 Hl2 ltac:(done))
          as (σ1 & Hrun1 & _ & Hrep1).
        rewrite Hrun1 in Hrun. injection Hrun as <-. eauto.
Qed.

Lemma reachable_wf σ : reachable NDEBUG σ → wf σ.
Proof.
  induction 1 as [|σ o σ' _ [own Hrep] Hpre Hrun].
  - exists ∅. apply represents_empty.
  - by eapply run_op_represents.
Qed.

Lemma iterate_chain σ l L ns :
  lists σ !! l = Some L → lseg (nodes σ) (head_next_node L) nullptr ns →
  iterate NDEBUG l σ = Ok ns.*2 σ.
Proof.
  intros HL Hseg. pose proof (lseg_length _ _ _ Hseg) as Hlen.
  unfold iterate. mstep begin_run. mstep end_run.
  erewrite bind_Ok by reflexivity.
  erewrite bind_Ok by (eapply iterate_loop; [done|lia]).
  done.
Qed.

Lemma represents_frame σ σ' own l ns' l' ns0 :
  represents σ own → represents σ' (<[l := ns']> own) →
  l' ≠ l → is_list σ l' ns0 → is_list σ' l' ns0.
Proof.
  intros Hrep Hrep' Hne Hlist. apply (rep_lists _ _ Hrep').
  rewrite lookup_insert_ne by done. by eapply represents_is_list.
Qed.

Lemma represents_self σ' own l ns' :
  represents σ' (<[l := ns']> own) → is_list σ' l ns'.
Proof. intros Hrep. apply (rep_lists _ _ Hrep). by rewrite lookup_insert_eq. Qed.

Lemma is_list_deref σ l ns j n :
  is_list σ l ns → ns !! j = Some n →
  it_deref NDEBUG (Iterator (node_at n.1)) σ = Ok n.2 σ.
Proof.
  intros (L & HL & Hseg & _) Hj.
  destruct (lseg_split_at _ _ _ _ _ Hseg Hj) as (r & _ & Hn & _).
  by rewrite (it_deref_run _ _ _ Hn).
Qed.

(** ** Straight-line programs *)

Lemma run_ops_reachable os : ∀ σ σ',
  reachable NDEBUG σ → forallb cursor_free os = true →
  run_ops NDEBUG os σ = Ok tt σ' → reachable NDEBUG σ'.
Proof.
  induction os as [|o os IH]; intros σ σ' Hreach Hfree Hrun; simpl in Hrun.
  - by injection Hrun as <-.
  - simpl in Hfree. apply andb_true_iff in Hfree as [Ho Hos].
    destruct (run_op NDEBUG o σ) as [[] σ1|e] eqn:Hstep;
      [|by rewrite (bind_Err _ _ _ _ Hstep) in Hrun].
    rewrite (bind_Ok _ _ _ _ _ Hstep) in Hrun.
    apply (IH σ1 σ'); [|done|done].
    eapply reachable_step; [done| |done]. by destruct o.
Qed.

(** ** operator== *)

Lemma std_equal_run ns1 : ∀ ns2 fuel σ p q,
  lseg (nodes σ) p nullptr ns1 → lseg (nodes σ) q nullptr ns2 →
  (length ns1 < fuel)%nat →
  std_equal T_eqb NDEBUG fuel
    (Iterator p) (Iterator nullptr) (Iterator q) (Iterator nullptr) σ
  = Ok (equal_values T_eqb ns1.*2 ns2.*2) σ.
Proof.
  induction ns1 as [|[a x] ns1 IH]; intros [|[b y] ns2] fuel σ p q H1 H2 Hfuel;
    (destruct fuel as [|fuel]; [simpl in Hfuel; lia|]);
    simpl in H1, H2; simpl std_equal.
  - by subst.
  - destruct H2 as (-> & _). by subst.
  - destruct H1 as (-> & _). by subst.
  - destruct H1 as (-> & r1 & Ha & H1). destruct H2 as (-> & r2 & Hb & H2).
    simpl in Ha, Hb.
    change (it_ne (Iterator (node_at a)) (Iterator nullptr)) with true.
    change (it_ne (Iterator (node_at b)) (Iterator nullptr)) with true.
    cbn [andb]. mstep it_deref_run. mstep it_deref_run.
    simpl. destruct (T_eqb x y); [|done].
    mstep it_incr_run. mstep it_incr_run.
    simpl. apply IH; [done|done|simpl in Hfuel; lia].
Qed.

Lemma equal_values_Forall2 xs ys :
  equal_values T_eqb xs ys = true ↔ Forall2 (λ x y, T_eqb x y = true) xs ys.
Proof.
  revert ys. induction xs as [|x xs IH]; intros [|y ys]; simpl.
  - split; [constructor|done].
  - split; [done|]. inversion 1.
  - split; [done|]. inversion 1.
  - rewrite andb_true_iff, IH. split.
    + intros [? ?]. by constructor.
    + inversion 1; by subst.
Qed.

(** ** What each mutation does to the store, on any store *)

Lemma InsertAfter_run_head σ l L v :
  lists σ !! l = Some L → Z.of_nat (size (nodes σ)) < max_nodes →
  InsertAfter NDEBUG l (Iterator (head_of l)) v σ =
    Ok (Iterator (node_at (fresh (dom (nodes σ)))))
       (mkState
          (<[l := mkList (node_at (fresh (dom (nodes σ))))
                         (wrap (size_ L + 1))]> (lists σ))
          (<[fresh (dom (nodes σ)) := mkNode v (head_next_node L)]>
             (nodes σ))).
Proof.
  intros HL Hcap. unfold InsertAfter. msimpl.
  rewrite (bind_Ok _ _ _ _ _ (assert_ret_run _ σ eq_refl)).
  mstep load_next_head.
  erewrite bind_Ok by (by eapply new_Node_run). msimpl.
  mstep store_next_head. mstep read_size_run.
  erewrite bind_Ok by (eapply write_size_run; solve_lookup). msimpl.
  mstep load_next_head. by rewrite !insert_insert_eq.
Qed.

Lemma InsertAfter_run_node σ l L b n v :
  lists σ !! l = Some L → nodes σ !! b = Some n →
  Z.of_nat (size (nodes σ)) < max_nodes →
  InsertAfter NDEBUG l (Iterator (node_at b)) v σ =
    Ok (Iterator (node_at (fresh (dom (nodes σ)))))
       (mkState
          (<[l := mkList (head_next_node L) (wrap (size_ L + 1))]> (lists σ))
          (<[b := mkNode (value n) (node_at (fresh (dom (nodes σ))))]>
             (<[fresh (dom (nodes σ)) := mkNode v (next_node n)]>
                (nodes σ)))).
Proof.
  intros HL Hb Hcap. pose proof (fresh_node σ) as Hfresh.
  assert (Hab : fresh (dom (nodes σ)) ≠ b) by (by eapply lookup_None_Some_ne).
  unfold InsertAfter. msimpl.
  rewrite (bind_Ok _ _ _ _ _ (assert_ret_run _ σ eq_refl)).
  mstep load_next_node.
  erewrite bind_Ok by (by eapply new_Node_run). msimpl.
  mstep store_next_node. mstep read_size_run.
  erewrite bind_Ok by (eapply write_size_run; solve_lookup). msimpl.
  by mstep load_next_node.
Qed.

Lemma PopFront_run σ l L a n :
  lists σ !! l = Some L → size_ L ≠ 0 →
  head_next_node L = node_at a → nodes σ !! a = Some n →
  PopFront l σ =
    Ok tt (mkState
             (<[l := mkList (next_node n) (wrap (size_ L - 1))]> (lists σ))
             (delete a (nodes σ))).
Proof.
  intros HL Hsz Hhead Ha. unfold PopFront. mstep IsEmpty_run.
  destruct (size_ L =? 0) eqn:Hz; [lia|].
  mstep load_next_head. rewrite Hhead.
  mstep load_next_node. mstep store_next_head.
  erewrite bind_Ok by (by eapply delete_run). msimpl.
  mstep read_size_run.
  erewrite write_size_run by solve_lookup. msimpl.
  by rewrite insert_insert_eq.
Qed.

Lemma EraseAfter_run_head σ l L a n :
  lists σ !! l = Some L → size_ L ≠ 0 →
  head_next_node L = node_at a → nodes σ !! a = Some n →
  EraseAfter NDEBUG l (Iterator (head_of l)) σ =
    Ok (Iterator (next_node n))
       (mkState
          (<[l := mkList (next_node n) (wrap (size_ L - 1))]> (lists σ))
          (delete a (nodes σ))).
Proof.
  intros HL Hsz Hhead Ha. unfold EraseAfter. mstep IsEmpty_run.
  destruct (size_ L =? 0) eqn:Hz; [lia|].
  rewrite (bind_Ok _ _ _ _ _ (assert_ret_run _ σ eq_refl)).
  erewrite bind_Ok; cycle 1.
  { apply assert_run. mstep load_next_head. by rewrite Hhead. }
  msimpl. rewrite decide_False by done.
  mstep load_next_head. rewrite Hhead.
  mstep load_next_node. mstep store_next_head. mstep read_size_run.
  erewrite bind_Ok by (eapply write_size_run; solve_lookup). msimpl.
  erewrite bind_Ok by (by eapply delete_run). msimpl.
  mstep load_next_head. by rewrite insert_insert_eq.
Qed.

Lemma EraseAfter_run_node σ l L b nb c nc :
  lists σ !! l = Some L → size_ L ≠ 0 →
  nodes σ !! b = Some nb → next_node nb = node_at c →
  nodes σ !! c = Some nc → b ≠ c →
  EraseAfter NDEBUG l (Iterator (node_at b)) σ =
    Ok (Iterator (next_node nc))
       (mkState
          (<[l := mkList (head_next_node L) (wrap (size_ L - 1))]> (lists σ))
          (delete c (<[b := mkNode (value nb) (next_node nc)]> (nodes σ)))).
Proof.
  intros HL Hsz Hb Hnext Hc Hbc. unfold EraseAfter. mstep IsEmpty_run.
  destruct (size_ L =? 0) eqn:Hz; [lia|].
  rewrite (bind_Ok _ _ _ _ _ (assert_ret_run _ σ eq_refl)).
  erewrite bind_Ok; cycle 1.
  { apply assert_run. mstep load_next_node. by rewrite Hnext. }
  msimpl. rewrite decide_False by done.
  mstep load_next_node. rewrite Hnext.
  mstep load_next_node. mstep store_next_node. mstep read_size_run.
  erewrite bind_Ok by (eapply write_size_run; solve_lookup). msimpl.
  erewrite bind_Ok by (eapply delete_run; solve_lookup). msimpl.
  by mstep load_next_node.
Qed.

Lemma foldl_delete_lookup_in h (xs : list positive) a :
  a ∈ xs → foldl (λ m x, delete x m) h xs !! a = None.
Proof.
  revert h. induction xs as [|x xs IH]; intros h Ha; simpl.
  - by apply elem_of_nil in Ha.
  - destruct (decide (a ∈ xs)) as [Hin|Hnotin]; [by apply IH|].
    apply elem_of_cons in Ha as [->|?]; [|done].
    rewrite foldl_delete_lookup by done. apply lookup_delete_eq.
Qed.

Lemma Clear_run σ l L ns :
  lists σ !! l = Some L → size_ L ≠ 0 →
  lseg (nodes σ) (head_next_node L) nullptr ns →
  Clear l σ =
    Ok tt (mkState (<[l := mkList nullptr 0]> (lists σ))
                   (foldl (λ m x, delete x m) (nodes σ) ns.*1)).
Proof.
  intros HL Hsz Hseg. pose proof (lseg_length _ _ _ Hseg) as Hlen.
  unfold Clear. mstep read_size_run.
  destruct (size_ L =? 0) eqn:Hz; [lia|].
  erewrite bind_Ok by reflexivity.
  erewrite bind_Ok by (eapply Clear_loop; [done|done|lia]).
  erewrite write_size_run by solve_lookup. msimpl.
  by rewrite insert_insert_eq.
Qed.

(** ** Which nodes a call allocates and frees *)

Lemma dom_foldl_delete h (xs : list positive) :
  dom (foldl (λ m x, delete x m) h xs) = dom h ∖ list_to_set xs.
Proof.
  revert h. induction xs as [|x xs IH]; intros h; simpl.
  - set_solver.
  - rewrite IH, dom_delete_L. set_solver.
Qed.

Lemma PushFront_footprint σ own l ns v σ' :
  represents σ own → own !! l = Some ns → PushFront l v σ = Ok tt σ' →
  dom (nodes σ') = {[fresh (dom (nodes σ))]} ∪ dom (nodes σ).
Proof.
  intros Hrep Hl Hrun.
  destruct (PushFront_Ok_inv _ _ _ _ Hrun) as [_ Hcap].
  destruct (represents_lookup _ _ _ _ Hrep Hl) as (L & HL & _).
  rewrite (PushFront_run _ _ _ v HL Hcap) in Hrun. injection Hrun as <-.
  simpl. by rewrite dom_insert_L.
Qed.

Lemma InsertAfter_footprint σ own l ns i pos v it σ' :
  represents σ own → own !! l = Some ns → cursor_at l ns i pos →
  InsertAfter NDEBUG l pos v σ = Ok it σ' →
  dom (nodes σ') = {[fresh (dom (nodes σ))]} ∪ dom (nodes σ).
Proof.
  intros Hrep Hl Hcur Hrun.
  pose proof (InsertAfter_Ok_inv _ _ _ _ _ _ _ _ _ Hrep Hl Hcur Hrun) as Hcap.
  destruct (represents_lookup _ _ _ _ Hrep Hl) as (L & HL & Hseg & _).
  destruct pos as [p]. destruct i as [|j]; simpl in Hcur.
  - subst p. rewrite (InsertAfter_run_head _ _ _ v HL Hcap) in Hrun.
    injection Hrun as _ <-. simpl. by rewrite dom_insert_L.
  - destruct Hcur as ([b w] & Hj & ->). simpl in Hrun.
    destruct (lseg_split_at _ _ _ _ _ Hseg Hj) as (r & _ & Hb & _).
    simpl in Hb.
    rewrite (InsertAfter_run_node _ _ _ _ _ v HL Hb Hcap) in Hrun.
    injection Hrun as _ <-. simpl. rewrite !dom_insert_L.
    assert (b ∈ dom (nodes σ)) by (apply elem_of_dom; eauto). set_solver.
Qed.

Lemma PopFront_footprint σ own l ns σ' :
  represents σ own → own !! l = Some ns → PopFront l σ = Ok tt σ' →
  dom (nodes σ') = dom (nodes σ) ∖ list_to_set (take 1 ns).*1.
Proof.
  intros Hrep Hl Hrun.
  destruct (represents_lookup _ _ _ _ Hrep Hl) as (L & HL & Hseg & Hsz).
  destruct ns as [|[a v] ns'].
  - destruct (PopFront_spec _ _ _ _ Hrep Hl) as (σ1 & Hrun1 & _ & Hsame).
    rewrite Hrun1 in Hrun. injection Hrun as <-. rewrite Hsame by done.
    simpl. set_solver.
  - simpl in Hseg, Hsz. destruct Hseg as (Hhead & r & Ha & _). simpl in Ha.
    rewrite (PopFront_run _ _ _ _ _ HL ltac:(lia) Hhead Ha) in Hrun.
    injection Hrun as <-. simpl. rewrite dom_delete_L. set_solver.
Qed.

Lemma EraseAfter_footprint σ own l ns i pos it σ' :
  represents σ own → own !! l = Some ns →
  ns = [] ∨ cursor_at l ns i pos →
  EraseAfter NDEBUG l pos σ = Ok it σ' →
  dom (nodes σ') = dom (nodes σ) ∖ list_to_set (take 1 (drop i ns)).*1
  ∧ (ns ≠ [] → (i < length ns)%nat).
Proof.
  intros Hrep Hl Hcur Hrun.
  destruct (represents_lookup _ _ _ _ Hrep Hl) as (L & HL & Hseg & Hsz).
  destruct (decide (ns = [])) as [->|Hnonempty].
  { rewrite (EraseAfter_empty _ _ _ pos HL Hsz) in Hrun.
    injection Hrun as _ <-. rewrite drop_nil. simpl. split; [set_solver|done]. }
  destruct Hcur as [?|Hcur]; [done|].
  assert (Hne : size_ L ≠ 0).
  { destruct ns; [done|]. simpl in Hsz. lia. }
  destruct (decide (i < length ns)%nat) as [Hi|Hi]; cycle 1.
  { assert (i = length ns) as ->.
    { destruct i as [|j]; [destruct ns; [done|simpl in Hi; lia]|].
      destruct Hcur as (n' & Hj & _). apply lookup_lt_Some in Hj. lia. }
    by rewrite (EraseAfter_last _ _ _ _ _ Hrep Hl ltac:(done) Hcur) in Hrun. }
  split; [|done].
  destruct (lookup_lt_is_Some_2 ns i Hi) as [[c u] Hc].
  rewrite (drop_S _ _ _ Hc). simpl.
  destruct (lseg_split_at _ _ _ _ _ Hseg Hc) as (r' & _ & Hc' & _).
  simpl in Hc'.
  destruct pos as [p]. destruct i as [|j]; simpl in Hcur.
  - subst p. destruct ns as [|n0 ns0]; [done|].
    simpl in Hc. injection Hc as ->.
    simpl in Hseg. destruct Hseg as (Hhead & _).
    rewrite (EraseAfter_run_head _ _ _ _ _ HL Hne Hhead Hc') in Hrun.
    injection Hrun as _ <-. simpl. rewrite dom_delete_L. set_solver.
  - destruct Hcur as ([b w] & Hj & ->). simpl in Hrun.
    destruct (lseg_split_at _ _ _ _ _ Hseg Hj)
      as (r & _ & Hb & Hdrop & _ & Hb2 & _). simpl in Hb, Hb2.
    rewrite (drop_S _ _ _ Hc) in Hdrop, Hb2.
    simpl in Hdrop. destruct Hdrop as (-> & _).
    assert (Hbc : b ≠ c). { intros ->. apply Hb2. simpl. left. }
    rewrite (EraseAfter_run_node _ _ _ _ _ _ _ HL Hne Hb eq_refl Hc' Hbc)
      in Hrun.
    injection Hrun as _ <-. simpl. rewrite dom_delete_L, dom_insert_L.
    assert (b ∈ dom (nodes σ)) by (apply elem_of_dom; eauto). set_solver.
Qed.

Lemma Clear_footprint σ own l ns σ' :
  represents σ own → own !! l = Some ns → Clear l σ = Ok tt σ' →
  dom (nodes σ') = dom (nodes σ) ∖ list_to_set ns.*1.
Proof.
  intros Hrep Hl Hrun.
  destruct (represents_lookup _ _ _ _ Hrep Hl) as (L & HL & Hseg & Hsz).
  destruct ns as [|n ns'].
  - revert Hrun. unfold Clear. mstep read_size_run. rewrite Hsz. simpl.
    intros [= <-]. set_solver.
  - rewrite (Clear_run _ _ _ (n :: ns') HL) in Hrun;
      [|simpl in Hsz; lia|done].
    injection Hrun as <-. cbn [nodes].
    rewrite dom_foldl_delete, dom_delete_L. simpl. set_solver.
Qed.

(** ** Stores without garbage *)

Lemma represents_chain_live σ own l ns a :
  represents σ own → own !! l = Some ns → a ∈ ns.*1 → a ∈ dom (nodes σ).
Proof.
  intros Hrep Hl Ha.
  destruct (represents_lookup _ _ _ _ Hrep Hl) as (L & _ & Hseg & _).
  apply elem_of_dom. by eapply lseg_lookup.
Qed.

Lemma covers_update σ σ' own l ns ns' :
  covers σ own → own !! l = Some ns →
  dom (nodes σ') ⊆ (dom (nodes σ) ∖ list_to_set ns.*1) ∪ list_to_set ns'.*1 →
  covers σ' (<[l := ns']> own).
Proof.
  intros Hcov Hl Hsub a Ha. apply Hsub in Ha.
  apply elem_of_union in Ha as [Ha|Ha].
  - apply elem_of_difference in Ha as [Ha Hnot].
    destruct (Hcov a Ha) as (l0 & ns0 & Hl0 & Hin).
    exists l0, ns0. split; [|done]. rewrite lookup_insert_ne; [done|].
    intros <-. apply Hnot. apply elem_of_list_to_set. congruence.
  - exists l, ns'. rewrite lookup_insert_eq. split; [done|].
    by apply elem_of_list_to_set in Ha.
Qed.

Lemma covers_fresh σ σ' own l c :
  covers σ own → own !! l = None →
  dom (nodes σ') ⊆ dom (nodes σ) ∪ list_to_set c.*1 →
  covers σ' (<[l := c]> own).
Proof.
  intros Hcov Hl Hsub a Ha. apply Hsub in Ha.
  apply elem_of_union in Ha as [Ha|Ha].
  - destruct (Hcov a Ha) as (l0 & ns0 & Hl0 & Hin).
    exists l0, ns0. split; [|done]. rewrite lookup_insert_ne; [done|].
    intros <-. congruence.
  - exists l, c. rewrite lookup_insert_eq. split; [done|].
    by apply elem_of_list_to_set in Ha.
Qed.

Lemma covers_delete σ σ' own l ns :
  covers σ own → own !! l = Some ns →
  dom (nodes σ') ⊆ dom (nodes σ) ∖ list_to_set ns.*1 →
  covers σ' (delete l own).
Proof.
  intros Hcov Hl Hsub a Ha. apply Hsub in Ha.
  apply elem_of_difference in Ha as [Ha Hnot].
  destruct (Hcov a Ha) as (l0 & ns0 & Hl0 & Hin).
  exists l0, ns0. split; [|done]. rewrite lookup_delete_ne; [done|].
  intros <-. apply Hnot. apply elem_of_list_to_set. congruence.
Qed.

Lemma covers_exchange σ σ' own l1 l2 ns1 ns2 :
  covers σ own → own !! l1 = Some ns1 → own !! l2 = Some ns2 →
  nodes σ' = nodes σ →
  covers σ' (<[l1 := ns2]> (<[l2 := ns1]> own)).
Proof.
  intros Hcov H1 H2 Hnodes a Ha. rewrite Hnodes in Ha.
  destruct (Hcov a Ha) as (l0 & ns0 & Hl0 & Hin).
  destruct (decide (l0 = l1)) as [->|Hne1].
  - exists l2, ns0. split; [|done]. rewrite lookup_insert.
    case_decide; [congruence|]. rewrite lookup_insert_eq. congruence.
  - destruct (decide (l0 = l2)) as [->|Hne2].
    + exists l1, ns0. split; [|done]. rewrite lookup_insert_eq. congruence.
    + exists l0, ns0. split; [|done]. by rewrite !lookup_insert_ne.
Qed.

Lemma covers_no_garbage σ own :
  represents σ own → covers σ own → no_garbage σ.
Proof.
  intros Hrep Hcov a Ha. apply elem_of_dom in Ha.
  destruct (Hcov a Ha) as (l & ns & Hl & Hin).
  exists l, ns. split; [|done]. by apply (rep_lists _ _ Hrep).
Qed.

(** ** Construction *)

Lemma InitHead_as_PushFront σ l L v :
  lists σ !! l = Some L → head_next_node L = nullptr →
  InitHead l v σ = PushFront l v σ.
Proof.
  intros HL Hnull. unfold InitHead, PushFront.
  rewrite (bind_Ok _ _ _ _ _ (load_next_head _ _ _ HL)). by rewrite Hnull.
Qed.

Lemma represents_delete σ own l :
  represents σ own → own !! l = Some [] →
  represents (mkState (delete l (lists σ)) (nodes σ)) (delete l own).
Proof.
  intros Hrep Hl. split; simpl.
  - apply (rep_capacity _ _ Hrep).
  - intros l0. destruct (decide (l0 = l)) as [->|Hne].
    + rewrite !lookup_delete_eq. split; intros [? ?]; done.
    + rewrite !lookup_delete_ne by done. apply (rep_dom _ _ Hrep).
  - intros l0 ns0. destruct (decide (l0 = l)) as [->|Hne].
    + by rewrite lookup_delete_eq.
    + rewrite lookup_delete_ne by done. intros Hl0.
      destruct (rep_lists _ _ Hrep _ _ Hl0) as (L0 & HL0 & Hseg0 & Hsz0).
      exists L0. simpl. by rewrite lookup_delete_ne.
  - intros l1 l2 ns1 ns2 Hne H1 H2.
    apply lookup_delete_Some in H1 as [_ H1].
    apply lookup_delete_Some in H2 as [_ H2].
    by apply (rep_disjoint _ _ Hrep l1 l2).
Qed.

Lemma destroy_list_spec σ own l ns :
  represents σ own → own !! l = Some ns →
  ∃ σ', destroy_list l σ = Ok tt σ'
        ∧ represents σ' (delete l own)
        ∧ dom (nodes σ') = dom (nodes σ) ∖ list_to_set ns.*1.
Proof.
  intros Hrep Hl. destruct (Clear_spec _ _ _ _ Hrep Hl) as (σ1 & Hrun & Hrep1).
  pose proof (Clear_footprint _ _ _ _ _ Hrep Hl Hrun) as Hdom.
  unfold destroy_list. rewrite (bind_Ok _ _ _ _ _ Hrun).
  eexists. split; [reflexivity|]. split; [|done].
  rewrite <- (delete_insert_eq own l []).
  apply represents_delete; [done|]. by rewrite lookup_insert_eq.
Qed.

Section PushListTmp.

(** The range handed to [PushListTmp]: [pos k] is the iterator [k] steps
    after [begin], the range yields the values [vs], and reading it needs
    nothing but the list [other] staying what it is. *)
Context {It : Type} `{!InputIt T It}.
Variables (vs : list T) (pos : nat → It).
Variables (other : positive) (ns_o : list (positive * T)).

Hypothesis deref_pos : ∀ σ own k v,
  represents σ own → own !! other = Some ns_o → vs !! k = Some v →
  deref (pos k) σ = Ok v σ.
Hypothesis advance_pos : ∀ σ own k,
  represents σ own → own !! other = Some ns_o → (k < length vs)%nat →
  advance1 (pos k) σ = Ok (pos (S k)) σ.
Hypothesis neq_pos : ∀ k,
  (k ≤ length vs)%nat →
  neq (pos k) (pos (length vs)) = bool_decide (k ≠ length vs).

Lemma PushListTmp_loop tmp : ∀ n k fuel σ own c tmp_p,
  n = (length vs - k)%nat → (k ≤ length vs)%nat →
  represents σ own → own !! other = Some ns_o → other ≠ tmp →
  own !! tmp = Some c → cursor_at tmp c (length c) tmp_p →
  Z.of_nat (size (nodes σ)) + Z.of_nat n ≤ max_nodes →
  (n < fuel)%nat →
  ∃ σ' c' s',
    while_ fuel
      (λ s : It * BasicIterator, ret (neq (fst s) (pos (length vs))))
      (λ s, v <- deref (fst s) ;;
            tmp_p <- InsertAfter NDEBUG tmp (snd s) v ;;
            p <- advance1 (fst s) ;;
            ret (p, tmp_p))
      (pos k, tmp_p) σ = Ok s' σ'
    ∧ c'.*2 = c.*2 ++ drop k vs
    ∧ represents σ' (<[tmp := c']> own)
    ∧ c.*1 ⊆ c'.*1
    ∧ dom (nodes σ') ⊆ dom (nodes σ) ∪ list_to_set c'.*1.
Proof.
  induction n as [|n IH]; intros k fuel σ own c tmp_p Hn Hk Hrep Hother Hne
    Htmp Hcur Hcap Hfuel; (destruct fuel as [|fuel]; [lia|]); simpl while_.
  - rewrite bind_ret. cbn [fst]. rewrite neq_pos by done.
    rewrite bool_decide_false by lia.
    exists σ, c, (pos k, tmp_p). split_and!; [done| | |done|set_solver].
    + rewrite drop_ge by lia. by rewrite app_nil_r.
    + by rewrite insert_id.
  - rewrite bind_ret. cbn [fst snd]. rewrite neq_pos by done.
    rewrite bool_decide_true by lia.
    destruct (lookup_lt_is_Some_2 vs k ltac:(lia)) as [v Hv].
    rewrite !bind_assoc.
    erewrite bind_Ok by (by eapply deref_pos). rewrite !bind_assoc.
    destruct (InsertAfter_spec _ _ _ _ _ _ v Hrep Htmp Hcur ltac:(lia))
      as (σ1 & Hins & Hfresh & Hsize & Hrep1).
    pose proof (InsertAfter_footprint _ _ _ _ _ _ _ _ _ Hrep Htmp Hcur Hins)
      as Hdom1.
    rewrite firstn_all, drop_all in Hrep1.
    set (a := fresh (dom (nodes σ))) in *.
    rewrite (bind_Ok _ _ _ _ _ Hins). rewrite !bind_assoc.
    assert (Hother1 : <[tmp := c ++ [(a, v)]]> own !! other = Some ns_o).
    { by rewrite lookup_insert_ne. }
    erewrite bind_Ok by (by eapply advance_pos; [exact Hrep1|..]; [done|lia]).
    rewrite bind_ret.
    destruct (IH (S k) fuel σ1 (<[tmp := c ++ [(a, v)]]> own)
                (c ++ [(a, v)]) (Iterator (node_at a)))
      as (σ' & c' & s' & Hloop & Hvals & Hrep' & Hsub & Hdom');
      [lia|lia|done|done|done|by rewrite lookup_insert_eq| |lia|lia|].
    { rewrite length_app. simpl.
      replace (length c + 1)%nat with (S (length c)) by lia. simpl.
      exists (a, v). split; [|done].
      rewrite lookup_app_r by lia. by rewrite Nat.sub_diag. }
    rewrite fmap_app in Hsub. simpl in Hsub.
    assert (Ha : a ∈ c'.*1). { apply Hsub. apply elem_of_app. right. left. }
    exists σ', c', s'. split_and!; [done| | | |].
    + rewrite Hvals, fmap_app, <- app_assoc. simpl.
      by rewrite (drop_S _ _ _ Hv).
    + by rewrite insert_insert_eq in Hrep'.
    + intros b Hb. apply Hsub. apply elem_of_app. by left.
    + rewrite Hdom1 in Hdom'. fold a in Hdom'.
      set_solver.
Qed.

Lemma PushListTmp_spec σ own this ns_old fuel :
  represents σ own → own !! this = Some ns_old →
  own !! other = Some ns_o → vs ≠ [] →
  Z.of_nat (size (nodes σ)) + Z.of_nat (length vs) ≤ max_nodes →
  (length vs ≤ fuel)%nat →
  ∃ σ' c,
    PushListTmp NDEBUG fuel this (pos 0) (pos (length vs)) σ = Ok tt σ'
    ∧ c.*2 = vs
    ∧ represents σ' (<[this := c]> own)
    ∧ dom (nodes σ')
        ⊆ (dom (nodes σ) ∖ list_to_set ns_old.*1) ∪ list_to_set c.*1.
Proof.
  intros Hrep Hthis Hother Hvs Hcap Hfuel.
  assert (Hlen : (0 < length vs)%nat).
  { clear -Hvs. destruct vs; [done|simpl; lia]. }
  destruct (lookup_lt_is_Some_2 vs 0 Hlen) as [v0 Hv0].
  destruct (new_list_spec _ _ Hrep) as (Hnew & Hfresh & Hrep1).
  set (tmp := fresh (dom (lists σ))) in *.
  set (σ1 := mkState _ _) in *.
  assert (Htmp_this : tmp ≠ this) by (by eapply lookup_None_Some_ne).
  assert (Htmp_other : other ≠ tmp).
  { apply not_eq_sym. by eapply lookup_None_Some_ne. }
  unfold PushListTmp. rewrite (bind_Ok _ _ _ _ _ Hnew).
  erewrite bind_Ok; cycle 1.
  { eapply deref_pos; [exact Hrep1| |done]. by rewrite lookup_insert_ne. }
  destruct (PushFront_spec _ _ tmp [] v0 Hrep1)
    as (σ2 & Hpush & _ & Hsize2 & Hrep2).
  { by rewrite lookup_insert_eq. }
  { simpl. lia. }
  assert (Hdom2 : dom (nodes σ2) = {[fresh (dom (nodes σ1))]} ∪ dom (nodes σ)).
  { apply (PushFront_footprint _ _ _ _ _ _ Hrep1 (lookup_insert_eq _ _ _) Hpush). }
  rewrite insert_insert_eq in Hrep2.
  set (a0 := fresh (dom (nodes σ1))) in *.
  erewrite bind_Ok; cycle 1.
  { rewrite (InitHead_as_PushFront σ1 tmp (mkList nullptr 0) v0);
      [exact Hpush| |done].
    unfold σ1. simpl. by rewrite lookup_insert_eq. }
  erewrite bind_Ok; cycle 1.
  { apply begin_spec. apply (rep_lists _ _ Hrep2). by rewrite lookup_insert_eq. }
  simpl first_ptr.
  erewrite bind_Ok; cycle 1.
  { eapply advance_pos; [exact Hrep2| |done]. by rewrite lookup_insert_ne. }
  destruct (PushListTmp_loop tmp (length vs - 1) 1 fuel σ2
              (<[tmp := [(a0, v0)]]> own) [(a0, v0)] (Iterator (node_at a0)))
    as (σ3 & c & s' & Hloop & Hvals & Hrep3 & Hsub3 & Hdom3);
    [done|lia|exact Hrep2|by rewrite lookup_insert_ne|done
    |by rewrite lookup_insert_eq| | |lia|].
  { simpl. exists (a0, v0). by split. }
  { simpl in Hsize2. unfold σ1 in Hsize2. simpl in Hsize2. lia. }
  rewrite insert_insert_eq in Hrep3.
  rewrite (bind_Ok _ _ _ _ _ Hloop).
  assert (Hc : c.*2 = vs).
  { rewrite Hvals. simpl. by rewrite <- (drop_S _ _ _ Hv0), drop_0. }
  destruct (swap_spec _ _ this tmp ns_old c Hrep3)
    as (σ4 & Hswap & Hnodes4 & Hrep4).
  { by rewrite lookup_insert_ne. }
  { by rewrite lookup_insert_eq. }
  { intros ->. by rewrite <- Hc in Hvs. }
  rewrite (bind_Ok _ _ _ _ _ Hswap).
  destruct (destroy_list_spec _ _ tmp ns_old Hrep4)
    as (σ5 & Hdestroy & Hrep5 & Hdom5).
  { rewrite lookup_insert_ne by done. by rewrite lookup_insert_eq. }
  rewrite Hdestroy. exists σ5, c. split_and!; [done|done| |].
  2:{ rewrite Hdom5, Hnodes4. rewrite Hdom2 in Hdom3.
      assert (Ha0 : a0 ∈ c.*1). { apply Hsub3. simpl. left. }
      fold a0 in Hdom3. set_solver. }
  replace (<[this := c]> own)
    with (delete tmp (<[this := c]> (<[tmp := ns_old]> (<[tmp := c]> own))));
    [done|].
  apply map_eq. intros l0. destruct (decide (l0 = tmp)) as [->|Hne0].
  - rewrite lookup_delete_eq, lookup_insert_ne by done. by rewrite Hfresh.
  - rewrite lookup_delete_ne by done. destruct (decide (l0 = this)) as [->|Hne1].
    + by rewrite !lookup_insert_eq.
    + by rewrite !lookup_insert_ne by done.
Qed.

(** The loop only completes when the free store had room for every value
    still to be copied. *)
Lemma PushListTmp_loop_capacity tmp : ∀ n k fuel σ own c tmp_p s' σ',
  n = (length vs - k)%nat → (k ≤ length vs)%nat →
  represents σ own → own !! other = Some ns_o → other ≠ tmp →
  own !! tmp = Some c → cursor_at tmp c (length c) tmp_p →
  while_ fuel
    (λ s : It * BasicIterator, ret (neq (fst s) (pos (length vs))))
    (λ s, v <- deref (fst s) ;;
          tmp_p <- InsertAfter NDEBUG tmp (snd s) v ;;
          p <- advance1 (fst s) ;;
          ret (p, tmp_p))
    (pos k, tmp_p) σ = Ok s' σ' →
  Z.of_nat (size (nodes σ)) + Z.of_nat n ≤ max_nodes.
Proof.
  induction n as [|n IH]; intros k fuel σ own c tmp_p s' σ' Hn Hk Hrep Hother
    Hne Htmp Hcur Hrun.
  { pose proof (rep_capacity _ _ Hrep). lia. }
  destruct fuel as [|fuel]; [done|]. simpl while_ in Hrun.
  rewrite bind_ret in Hrun. cbn [fst snd] in Hrun.
  rewrite neq_pos in Hrun by done. rewrite bool_decide_true in Hrun by lia.
  destruct (lookup_lt_is_Some_2 vs k ltac:(lia)) as [v Hv].
  rewrite !bind_assoc in Hrun.
  erewrite bind_Ok in Hrun by (by eapply deref_pos).
  rewrite !bind_assoc in Hrun.
  destruct (InsertAfter NDEBUG tmp tmp_p v σ) as [it σ1|e] eqn:Hins;
    [|by rewrite (bind_Err _ _ _ _ Hins) in Hrun].
  pose proof (InsertAfter_Ok_inv _ _ _ _ _ _ _ _ _ Hrep Htmp Hcur Hins) as Hcap.
  destruct (InsertAfter_spec _ _ _ _ _ _ v Hrep Htmp Hcur Hcap)
    as (σ1' & Hins' & Hfresh & Hsize & Hrep1).
  rewrite Hins in Hins'. injection Hins' as -> <-.
  rewrite firstn_all, drop_all in Hrep1.
  set (a := fresh (dom (nodes σ))) in *.
  rewrite (bind_Ok _ _ _ _ _ Hins) in Hrun. rewrite !bind_assoc in Hrun.
  assert (Hother1 : <[tmp := c ++ [(a, v)]]> own !! other = Some ns_o).
  { by rewrite lookup_insert_ne. }
  erewrite bind_Ok in Hrun
    by (by eapply advance_pos; [exact Hrep1|..]; [done|lia]).
  rewrite bind_ret in Hrun.
  assert (Z.of_nat (size (nodes σ1)) + Z.of_nat n ≤ max_nodes); [|lia].
  eapply (IH (S k) fuel σ1 (<[tmp := c ++ [(a, v)]]> own)
            (c ++ [(a, v)]) (Iterator (node_at a)));
    [lia|lia|done|done|done|by rewrite lookup_insert_eq| |exact Hrun].
  rewrite length_app. simpl.
  replace (length c + 1)%nat with (S (length c)) by lia. simpl.
  exists (a, v). split; [|done].
  rewrite lookup_app_r by lia. by rewrite Nat.sub_diag.
Qed.

Lemma PushListTmp_capacity σ own this ns_old fuel σ' :
  represents σ own → own !! this = Some ns_old →
  own !! other = Some ns_o → vs ≠ [] →
  PushListTmp NDEBUG fuel this (pos 0) (pos (length vs)) σ = Ok tt σ' →
  Z.of_nat (size (nodes σ)) + Z.of_nat (length vs) ≤ max_nodes.
Proof.
  intros Hrep Hthis Hother Hvs Hrun.
  assert (Hlen : (0 < length vs)%nat).
  { clear -Hvs. destruct vs; [done|simpl; lia]. }
  destruct (lookup_lt_is_Some_2 vs 0 Hlen) as [v0 Hv0].
  destruct (new_list_spec _ _ Hrep) as (Hnew & Hfresh & Hrep1).
  set (tmp := fresh (dom (lists σ))) in *.
  set (σ1 := mkState _ _) in *.
  assert (Htmp_other : other ≠ tmp).
  { apply not_eq_sym. by eapply lookup_None_Some_ne. }
  assert (Htmp1 : <[tmp := []]> own !! tmp = Some []).
  { by rewrite lookup_insert_eq. }
  assert (HL1 : lists σ1 !! tmp = Some (mkList nullptr 0)).
  { unfold σ1. simpl. by rewrite lookup_insert_eq. }
  unfold PushListTmp in Hrun. rewrite (bind_Ok _ _ _ _ _ Hnew) in Hrun.
  erewrite bind_Ok in Hrun; cycle 1.
  { eapply deref_pos; [exact Hrep1| |done]. by rewrite lookup_insert_ne. }
  destruct (InitHead tmp v0 σ1) as [[] σ2|e] eqn:Hpush;
    [|by rewrite (bind_Err _ _ _ _ Hpush) in Hrun].
  rewrite (bind_Ok _ _ _ _ _ Hpush) in Hrun.
  rewrite (InitHead_as_PushFront σ1 tmp (mkList nullptr 0) v0) in Hpush
    by done.
  destruct (PushFront_Ok_inv _ _ _ _ Hpush) as [_ Hcap1].
  destruct (PushFront_spec _ _ tmp [] v0 Hrep1 Htmp1 Hcap1)
    as (σ2' & Hpush' & _ & Hsize2 & Hrep2).
  rewrite Hpush in Hpush'. injection Hpush' as <-.
  rewrite insert_insert_eq in Hrep2.
  set (a0 := fresh (dom (nodes σ1))) in *.
  erewrite bind_Ok in Hrun; cycle 1.
  { apply begin_spec. apply (rep_lists _ _ Hrep2). by rewrite lookup_insert_eq. }
  simpl first_ptr in Hrun.
  erewrite bind_Ok in Hrun; cycle 1.
  { eapply advance_pos; [exact Hrep2| |done]. by rewrite lookup_insert_ne. }
  match type of Hrun with
  | bind ?w _ ?s = _ => destruct (w s) as [s' σ3|e] eqn:Hloop
  end; [|by rewrite (bind_Err _ _ _ _ Hloop) in Hrun].
  assert (Z.of_nat (size (nodes σ2)) + Z.of_nat (length vs - 1) ≤ max_nodes).
  { eapply (PushListTmp_loop_capacity tmp (length vs - 1) 1 fuel σ2
              (<[tmp := [(a0, v0)]]> own) [(a0, v0)] (Iterator (node_at a0)));
      [done|lia|exact Hrep2|by rewrite lookup_insert_ne|done
      |by rewrite lookup_insert_eq| |exact Hloop].
    simpl. exists (a0, v0). by split. }
  unfold σ1 in Hsize2. simpl in Hsize2. lia.
Qed.

End PushListTmp.

Lemma first_ptr_drop ns k n :
  ns !! k = Some n → first_ptr (drop k ns) = node_at n.1.
Proof. intros Hk. by rewrite (drop_S _ _ _ Hk). Qed.

Lemma SingleLinkedList_init_spec σ own values :
  represents σ own → values ≠ [] →
  Z.of_nat (size (nodes σ)) + Z.of_nat (length values) ≤ max_nodes →
  ∃ σ' c,
    SingleLinkedList_init NDEBUG values σ = Ok (fresh (dom (lists σ))) σ'
    ∧ own !! fresh (dom (lists σ)) = None
    ∧ c.*2 = values
    ∧ represents σ' (<[fresh (dom (lists σ)) := c]> own)
    ∧ dom (nodes σ') ⊆ dom (nodes σ) ∪ list_to_set c.*1.
Proof.
  intros Hrep Hvalues Hcap.
  destruct (new_list_spec _ _ Hrep) as (Hnew & Hfresh & Hrep1).
  set (this := fresh (dom (lists σ))) in *.
  unfold SingleLinkedList_init. rewrite (bind_Ok _ _ _ _ _ Hnew).
  destruct (PushListTmp_spec values (mkArrayIt values) this []) with
    (σ := mkState (<[this := mkList nullptr 0]> (lists σ)) (nodes σ))
    (own := <[this := []]> own) (this := this) (ns_old := @nil (positive * T))
    (fuel := S (length values))
    as (σ' & c & Hrun & Hc & Hrep' & Hdom'); try done.
  - intros σ0 own0 k v _ _ Hk. simpl. by rewrite Hk.
  - intros σ0 own0 k _ _ Hk. simpl. by rewrite decide_True.
  - by rewrite lookup_insert_eq.
  - by rewrite lookup_insert_eq.
  - lia.
  - rewrite (bind_Ok _ _ _ _ _ Hrun). rewrite insert_insert_eq in Hrep'.
    exists σ', c. split_and!; try done. simpl in Hdom'. set_solver.
Qed.

Lemma SingleLinkedList_copy_spec σ own other ns_o :
  represents σ own → own !! other = Some ns_o →
  Z.of_nat (size (nodes σ)) + Z.of_nat (length ns_o) ≤ max_nodes →
  ∃ σ' c,
    SingleLinkedList_copy NDEBUG other σ = Ok (fresh (dom (lists σ))) σ'
    ∧ own !! fresh (dom (lists σ)) = None
    ∧ c.*2 = ns_o.*2
    ∧ represents σ' (<[fresh (dom (lists σ)) := c]> own)
    ∧ dom (nodes σ') ⊆ dom (nodes σ) ∪ list_to_set c.*1.
Proof.
  intros Hrep Hother Hcap.
  destruct (new_list_spec _ _ Hrep) as (Hnew & Hfresh & Hrep1).
  set (this := fresh (dom (lists σ))) in *.
  set (σ1 := mkState _ _) in *.
  assert (Hne : other ≠ this).
  { apply not_eq_sym. by eapply lookup_None_Some_ne. }
  assert (Hother1 : <[this := []]> own !! other = Some ns_o).
  { by rewrite lookup_insert_ne. }
  pose proof (rep_lists _ _ Hrep1 _ _ Hother1) as Hlist1.
  unfold SingleLinkedList_copy. rewrite (bind_Ok _ _ _ _ _ Hnew).
  rewrite (bind_Ok _ _ _ _ _ (IsEmpty_spec _ _ _ Hlist1)).
  case_bool_decide as Hempty.
  - subst ns_o. exists σ1, []. split_and!; try done. unfold σ1. simpl.
    set_solver.
  - erewrite bind_Ok by reflexivity.
    rewrite (bind_Ok _ _ _ _ _ (begin_spec _ _ _ Hlist1)).
    rewrite (bind_Ok _ _ _ _ _ (end_spec _ _ _ Hlist1)).
    set (pos := λ k, Iterator (first_ptr (drop k ns_o))).
    assert (Hend : pos (length ns_o.*2) = Iterator nullptr).
    { unfold pos. by rewrite length_fmap, drop_all. }
    change (Iterator (first_ptr ns_o)) with (pos 0%nat). rewrite <- Hend.
    destruct (PushListTmp_spec (InputIt0 := BasicIterator_InputIt NDEBUG)
                ns_o.*2 pos other ns_o) with
      (σ := σ1) (own := <[this := []]> own) (this := this)
      (ns_old := @nil (positive * T)) (fuel := S (size (nodes σ1)))
      as (σ' & c & Hrun & Hc & Hrep' & Hdom'); try done.
    + intros σ0 own0 k v Hrep0 Hother0 Hk.
      rewrite list_lookup_fmap in Hk.
      destruct (ns_o !! k) as [n|] eqn:Hn; [|done]. injection Hk as <-.
      unfold pos. rewrite (first_ptr_drop _ _ _ Hn).
      eapply is_list_deref; [by apply (rep_lists _ _ Hrep0)|done].
    + intros σ0 own0 k Hrep0 Hother0 Hk. rewrite length_fmap in Hk.
      destruct (lookup_lt_is_Some_2 ns_o k Hk) as [n Hn].
      destruct (rep_lists _ _ Hrep0 _ _ Hother0) as (L & HL & Hseg & _).
      destruct (lseg_split_at _ _ _ _ _ Hseg Hn) as (r & _ & Hnode & Hrest & _).
      unfold pos. rewrite (first_ptr_drop _ _ _ Hn).
      simpl. rewrite (it_incr_run _ _ _ Hnode). simpl.
      by rewrite (lseg_first_null _ _ _ Hrest).
    + intros k Hk. rewrite Hend. unfold pos. rewrite length_fmap in *.
      destruct (decide (k = length ns_o)) as [->|Hneq].
      * rewrite drop_all. by rewrite bool_decide_false by (intros H; by apply H).
      * destruct (lookup_lt_is_Some_2 ns_o k ltac:(lia)) as [n Hn].
        rewrite (first_ptr_drop _ _ _ Hn). by rewrite bool_decide_true.
    + by rewrite lookup_insert_eq.
    + intros Hnil. apply Hempty. by apply fmap_nil_inv in Hnil.
    + rewrite length_fmap. unfold σ1. simpl. lia.
    + rewrite length_fmap.
      pose proof (represents_length _ _ _ _ Hrep1 Hother1). lia.
    + rewrite (bind_Ok _ _ _ _ _ Hrun). rewrite insert_insert_eq in Hrep'.
      exists σ', c. split_and!; try done. unfold σ1 in Hdom'. simpl in Hdom'.
      set_solver.
Qed.

Lemma assign_spec σ own this rhs ns_t ns_r :
  represents σ own → own !! this = Some ns_t → own !! rhs = Some ns_r →
  this ≠ rhs → ns_r ≠ [] →
  Z.of_nat (size (nodes σ)) + Z.of_nat (length ns_r) ≤ max_nodes →
  ∃ σ' c,
    assign NDEBUG this rhs σ = Ok this σ'
    ∧ c.*2 = ns_r.*2
    ∧ represents σ' (<[this := c]> own)
    ∧ dom (nodes σ')
        ⊆ (dom (nodes σ) ∖ list_to_set ns_t.*1) ∪ list_to_set c.*1.
Proof.
  intros Hrep Hthis Hrhs Hdiff Hne Hcap.
  pose proof (rep_lists _ _ Hrep _ _ Hthis) as Hlist_t.
  pose proof (rep_lists _ _ Hrep _ _ Hrhs) as Hlist_r.
  destruct Hlist_t as (Lt & HLt & Hseg_t & _).
  destruct Hlist_r as (Lr & HLr & Hseg_r & _).
  unfold assign. erewrite bind_Ok; cycle 1.
  { apply assert_run. mstep load_next_head. mstep load_next_head.
    rewrite bool_decide_true; [done|].
    rewrite (lseg_first_null _ _ _ Hseg_t), (lseg_first_null _ _ _ Hseg_r).
    destruct ns_r as [|[b w] ns_r']; [done|].
    destruct ns_t as [|[a v] ns_t']; [done|]. simpl. intros [= ->].
    apply (rep_disjoint _ _ Hrep this rhs _ _ Hdiff Hthis Hrhs b); simpl; left. }
  rewrite decide_True by done. rewrite !bind_assoc.
  destruct (SingleLinkedList_copy_spec _ _ _ _ Hrep Hrhs Hcap)
    as (σ1 & c & Hcopy & Hfresh & Hc & Hrep1 & Hdom1).
  set (tmp := fresh (dom (lists σ))) in *.
  assert (Htmp_this : tmp ≠ this) by (by eapply lookup_None_Some_ne).
  rewrite (bind_Ok _ _ _ _ _ Hcopy). rewrite !bind_assoc.
  destruct (swap_spec _ _ this tmp ns_t c Hrep1)
    as (σ2 & Hswap & Hnodes2 & Hrep2).
  { by rewrite lookup_insert_ne. }
  { by rewrite lookup_insert_eq. }
  { intros ->. apply Hne. symmetry in Hc. by apply fmap_nil_inv in Hc. }
  rewrite (bind_Ok _ _ _ _ _ Hswap).
  destruct (destroy_list_spec _ _ tmp ns_t Hrep2)
    as (σ3 & Hdestroy & Hrep3 & Hdom3).
  { rewrite lookup_insert_ne by done. by rewrite lookup_insert_eq. }
  rewrite (bind_Ok _ _ _ _ _ Hdestroy).
  exists σ3, c. split_and!; [done|done| |].
  2:{ rewrite Hdom3, Hnodes2. set_solver. }
  replace (<[this := c]> own)
    with (delete tmp (<[this := c]> (<[tmp := ns_t]> (<[tmp := c]> own))));
    [done|].
  apply map_eq. intros l0. destruct (decide (l0 = tmp)) as [->|Hne0].
  - rewrite lookup_delete_eq, lookup_insert_ne by done. by rewrite Hfresh.
  - rewrite lookup_delete_ne by done. destruct (decide (l0 = this)) as [->|Hne1].
    + by rewrite !lookup_insert_eq.
    + by rewrite !lookup_insert_ne by done.
Qed.

(** ** Constructors, assignment and [swap] on the inputs they handle *)

Lemma represents_frame_fresh σ σ' own l c l' ns0 :
  represents σ own → own !! l = None → represents σ' (<[l := c]> own) →
  is_list σ l' ns0 → is_list σ' l' ns0.
Proof.
  intros Hrep Hfresh Hrep' Hlist.
  pose proof (represents_is_list _ _ _ _ Hrep Hlist) as Hl'.
  apply (represents_frame σ σ' own l c l' ns0 Hrep Hrep'); [|done].
  intros ->. congruence.
Qed.

Lemma represents_fresh_list σ own l :
  represents σ own → own !! l = None → lists σ !! l = None.
Proof.
  intros Hrep Hl. apply eq_None_not_Some. intros H.
  apply (rep_dom _ _ Hrep) in H. rewrite Hl in H. by destruct H.
Qed.

(** The initializer-list constructor on a non-empty sequence. *)
Theorem init_builds_sequence σ values :
  wf σ → values ≠ [] →
  Z.of_nat (size (nodes σ)) + Z.of_nat (length values) ≤ max_nodes →
  ∃ l σ',
    SingleLinkedList_init NDEBUG values σ = Ok l σ'
    ∧ lists σ !! l = None
    ∧ wf σ'
    ∧ iterate NDEBUG l σ' = Ok values σ'
    ∧ GetSize l σ' = Ok (Z.of_nat (length values)) σ'
    ∧ (∀ l' ns', is_list σ l' ns' → is_list σ' l' ns').
Proof.
  intros [own Hrep] Hne Hcap.
  destruct (SingleLinkedList_init_spec _ _ _ Hrep Hne Hcap)
    as (σ' & c & Hrun & Hfresh & Hc & Hrep' & _).
  pose proof (represents_self _ _ _ _ Hrep') as Hlist.
  exists (fresh (dom (lists σ))), σ'. split_and!; try done.
  - by eapply represents_fresh_list.
  - by eexists.
  - by rewrite (iterate_spec _ _ _ Hlist), Hc.
  - by rewrite (GetSize_spec _ _ _ Hlist), <- Hc, length_fmap.
  - intros l' ns'. by eapply represents_frame_fresh.
Qed.

(** The copy constructor, on empty and non-empty lists alike: the new list
    has the same values in nodes of its own. *)
Theorem copy_builds_equal_list σ other ns :
  wf σ → is_list σ other ns →
  Z.of_nat (size (nodes σ)) + Z.of_nat (length ns) ≤ max_nodes →
  ∃ l σ' c,
    SingleLinkedList_copy NDEBUG other σ = Ok l σ'
    ∧ lists σ !! l = None
    ∧ wf σ'
    ∧ is_list σ' l c ∧ c.*2 = ns.*2 ∧ c.*1 ## ns.*1
    ∧ iterate NDEBUG l σ' = Ok ns.*2 σ'
    ∧ GetSize l σ' = Ok (Z.of_nat (length ns)) σ'
    ∧ (∀ l' ns', is_list σ l' ns' → is_list σ' l' ns').
Proof.
  intros [own Hrep] Hother Hcap.
  pose proof (represents_is_list _ _ _ _ Hrep Hother) as Hl.
  destruct (SingleLinkedList_copy_spec _ _ _ _ Hrep Hl Hcap)
    as (σ' & c & Hrun & Hfresh & Hc & Hrep' & _).
  pose proof (represents_self _ _ _ _ Hrep') as Hlist.
  exists (fresh (dom (lists σ))), σ', c. split_and!; try done.
  - by eapply represents_fresh_list.
  - by eexists.
  - apply (rep_disjoint _ _ Hrep' (fresh (dom (lists σ))) other).
    + intros Heq. rewrite Heq in Hfresh. congruence.
    + by rewrite lookup_insert_eq.
    + rewrite lookup_insert_ne; [done|]. intros Heq. rewrite Heq in Hfresh.
      congruence.
  - by rewrite (iterate_spec _ _ _ Hlist), Hc.
  - rewrite (GetSize_spec _ _ _ Hlist). do 2 f_equal.
    by rewrite <- (length_fmap snd c), Hc, length_fmap.
  - intros l' ns'. by eapply represents_frame_fresh.
Qed.

(** Copy assignment from a non-empty list to another list. *)
Theorem assign_copies_nonempty σ this rhs ns_t ns_r :
  wf σ → is_list σ this ns_t → is_list σ rhs ns_r →
  this ≠ rhs → ns_r ≠ [] →
  Z.of_nat (size (nodes σ)) + Z.of_nat (length ns_r) ≤ max_nodes →
  ∃ σ',
    assign NDEBUG this rhs σ = Ok this σ'
    ∧ wf σ'
    ∧ iterate NDEBUG this σ' = Ok ns_r.*2 σ'
    ∧ GetSize this σ' = Ok (Z.of_nat (length ns_r)) σ'
    ∧ (∀ l' ns', l' ≠ this → is_list σ l' ns' → is_list σ' l' ns').
Proof.
  intros [own Hrep] Hthis Hrhs Hdiff Hne Hcap.
  pose proof (represents_is_list _ _ _ _ Hrep Hthis) as Hl_t.
  pose proof (represents_is_list _ _ _ _ Hrep Hrhs) as Hl_r.
  destruct (assign_spec _ _ _ _ _ _ Hrep Hl_t Hl_r Hdiff Hne Hcap)
    as (σ' & c & Hrun & Hc & Hrep' & _).
  pose proof (represents_self _ _ _ _ Hrep') as Hlist.
  exists σ'. split_and!; try done.
  - by eexists.
  - by rewrite (iterate_spec _ _ _ Hlist), Hc.
  - rewrite (GetSize_spec _ _ _ Hlist). do 2 f_equal.
    by rewrite <- (length_fmap snd c), Hc, length_fmap.
  - intros l' ns' Hne' Hlist0.
    by apply (represents_frame σ σ' own this _ l' ns' Hrep Hrep').
Qed.

(** [swap] with a non-empty argument exchanges the two lists. *)
Theorem swap_exchanges_nonempty σ l1 l2 ns1 ns2 :
  wf σ → is_list σ l1 ns1 → is_list σ l2 ns2 → ns2 ≠ [] →
  ∃ σ',
    swap_free l1 l2 σ = Ok tt σ'
    ∧ wf σ'
    ∧ is_list σ' l1 ns2 ∧ is_list σ' l2 ns1
    ∧ nodes σ' = nodes σ
    ∧ (∀ l' ns', l' ≠ l1 → l' ≠ l2 → is_list σ l' ns' → is_list σ' l' ns').
Proof.
  intros [own Hrep] H1 H2 Hne.
  pose proof (represents_is_list _ _ _ _ Hrep H1) as Hl1.
  pose proof (represents_is_list _ _ _ _ Hrep H2) as Hl2.
  destruct (swap_spec _ _ _ _ _ _ Hrep Hl1 Hl2 Hne)
    as (σ' & Hrun & Hnodes & Hrep').
  exists σ'. split_and!; try done.
  - by eexists.
  - apply (rep_lists _ _ Hrep'). by rewrite lookup_insert_eq.
  - apply (rep_lists _ _ Hrep'). destruct (decide (l2 = l1)) as [->|Hne12].
    + rewrite lookup_insert_eq. congruence.
    + rewrite lookup_insert_ne by done. by rewrite lookup_insert_eq.
  - intros l' ns' Hne1 Hne2 Hlist0. apply (rep_lists _ _ Hrep').
    rewrite !lookup_insert_ne by done. by eapply represents_is_list.
Qed.

(** Two swaps in a row give both lists their contents back, when neither
    is empty. *)
Theorem swap_twice_restores_nonempty σ l1 l2 ns1 ns2 :
  wf σ → is_list σ l1 ns1 → is_list σ l2 ns2 → ns1 ≠ [] → ns2 ≠ [] →
  ∃ σ' σ'',
    swap_free l1 l2 σ = Ok tt σ'
    ∧ swap_free l1 l2 σ' = Ok tt σ''
    ∧ wf σ''
    ∧ is_list σ'' l1 ns1 ∧ is_list σ'' l2 ns2.
Proof.
  intros [own Hrep] H1 H2 Hne1 Hne2.
  pose proof (represents_is_list _ _ _ _ Hrep H1) as Hl1.
  pose proof (represents_is_list _ _ _ _ Hrep H2) as Hl2.
  destruct (swap_spec _ _ _ _ _ _ Hrep Hl1 Hl2 Hne2)
    as (σ' & Hrun & _ & Hrep').
  set (own' := <[l1 := ns2]> (<[l2 := ns1]> own)) in *.
  assert (Hl1' : own' !! l1 = Some ns2) by (unfold own'; by rewrite lookup_insert_eq).
  assert (Hl2' : own' !! l2 = Some ns1).
  { unfold own'. destruct (decide (l2 = l1)) as [->|Hne].
    - rewrite lookup_insert_eq. congruence.
    - rewrite lookup_insert_ne by done. by rewrite lookup_insert_eq. }
  destruct (swap_spec _ _ _ _ _ _ Hrep' Hl1' Hl2' Hne1)
    as (σ'' & Hrun' & _ & Hrep'').
  exists σ', σ''. split_and!; [done|done|by eexists| |].
  - apply (rep_lists _ _ Hrep''). by rewrite lookup_insert_eq.
  - apply (rep_lists _ _ Hrep''). destruct (decide (l2 = l1)) as [->|Hne].
    + rewrite lookup_insert_eq. congruence.
    + rewrite lookup_insert_ne by done. by rewrite lookup_insert_eq.
Qed.

(** * The claims *)

(** C5.  In every store a client can reach from nothing with default
    construction, [PushFront], [InsertAfter], [PopFront], [EraseAfter],
    [Clear] and [swap] (cursors designating positions of the list they are
    passed to), each list's [GetSize()] is the number of elements met when
    walking from [begin()] to [end()]; and [IsEmpty()] holds exactly when the
    size is zero, which is exactly when [begin() == end()]. *)
Theorem size_counts_iterated_elements σ l :
  reachable NDEBUG σ → is_Some (lists σ !! l) →
  ∃ vs n e b_it e_it,
    iterate NDEBUG l σ = Ok vs σ
    ∧ GetSize l σ = Ok n σ
    ∧ IsEmpty l σ = Ok e σ
    ∧ begin_ l σ = Ok b_it σ
    ∧ end_ l σ = Ok e_it σ
    ∧ n = Z.of_nat (length vs)
    ∧ (e = true ↔ n = 0)
    ∧ (n = 0 ↔ it_eq b_it e_it = true).
Proof.
  intros Hreach Hlive. destruct (reachable_wf _ Hreach) as [own Hrep].
  destruct (represents_live _ _ _ Hrep Hlive) as [ns Hl].
  pose proof (rep_lists _ _ Hrep _ _ Hl) as Hlist.
  exists ns.*2, (Z.of_nat (length ns)), (bool_decide (ns = [])),
    (Iterator (first_ptr ns)), (Iterator nullptr).
  rewrite (iterate_spec _ _ _ Hlist), (GetSize_spec _ _ _ Hlist),
    (IsEmpty_spec _ _ _ Hlist), (begin_spec _ _ _ Hlist),
    (end_spec _ _ _ Hlist), length_fmap.
  split_and!; try done.
  - rewrite bool_decide_eq_true. destruct ns; simpl; split; (done || lia).
  - destruct ns; simpl; split; (done || lia).
Qed.

(** C6.  In a well-formed store, [InsertAfter(pos, val)] with [pos] at
    position [i] of the list (the sentinel for [i = 0], else the [i]-th node)
    allocates one node holding [val], links it between that position and its
    successor, adds one to the size and returns a cursor to the new node;
    the other lists keep their contents. *)
Theorem InsertAfter_links_new_node σ l ns i pos v :
  wf σ → is_list σ l ns → cursor_at l ns i pos →
  Z.of_nat (size (nodes σ)) < max_nodes →
  ∃ a σ',
    InsertAfter NDEBUG l pos v σ = Ok (Iterator (node_at a)) σ'
    ∧ nodes σ !! a = None
    ∧ wf σ'
    ∧ is_list σ' l (take i ns ++ (a, v) :: drop i ns)
    ∧ iterate NDEBUG l σ' = Ok (take i ns.*2 ++ v :: drop i ns.*2) σ'
    ∧ GetSize l σ' = Ok (Z.of_nat (length ns) + 1) σ'
    ∧ it_deref NDEBUG (Iterator (node_at a)) σ' = Ok v σ'
    ∧ (∀ l' ns', l' ≠ l → is_list σ l' ns' → is_list σ' l' ns').
Proof.
  intros [own Hrep] Hlist Hcur Hcap.
  pose proof (represents_is_list _ _ _ _ Hrep Hlist) as Hl.
  destruct (InsertAfter_spec _ _ _ _ _ _ v Hrep Hl Hcur Hcap)
    as (σ' & Hrun & Hfresh & _ & Hrep').
  pose proof (represents_self _ _ _ _ Hrep') as Hlist'.
  assert (Hi : (i ≤ length ns)%nat).
  { destruct i as [|j]; [lia|]. destruct Hcur as (n & Hj & _).
    apply lookup_lt_Some in Hj. lia. }
  exists (fresh (dom (nodes σ))), σ'. split_and!; try done.
  - by eexists.
  - rewrite (iterate_spec _ _ _ Hlist').
    by rewrite fmap_app, fmap_cons, fmap_take, fmap_drop.
  - rewrite (GetSize_spec _ _ _ Hlist'). do 2 f_equal.
    rewrite length_app. simpl. rewrite length_take, length_drop. lia.
  - eapply (is_list_deref _ _ _ i (fresh (dom (nodes σ)), v)); [done|].
    rewrite lookup_app_r; rewrite length_take; [|lia].
    by replace (i - i `min` length ns)%nat with 0%nat by lia.
  - intros l' ns' Hne Hlist0. by apply (represents_frame σ σ' own l _ l' ns' Hrep Hrep').
Qed.

(** C7.  In a well-formed store, [EraseAfter(pos)] on an empty list changes
    nothing and returns the end cursor; with [pos] at a position [i] that has
    a successor it unlinks and frees the node after it, takes one off the
    size and returns a cursor to the node that followed the freed one (the
    end cursor when there is none); the other lists keep their contents. *)
Theorem EraseAfter_unlinks_successor σ l ns pos :
  wf σ → is_list σ l ns →
  (ns = [] → EraseAfter NDEBUG l pos σ = Ok (Iterator nullptr) σ)
  ∧ (∀ i, cursor_at l ns i pos → (i < length ns)%nat →
       ∃ σ',
         EraseAfter NDEBUG l pos σ
           = Ok (Iterator (first_ptr (drop (S i) ns))) σ'
         ∧ wf σ'
         ∧ is_list σ' l (take i ns ++ drop (S i) ns)
         ∧ iterate NDEBUG l σ' = Ok (take i ns.*2 ++ drop (S i) ns.*2) σ'
         ∧ GetSize l σ' = Ok (Z.of_nat (length ns) - 1) σ'
         ∧ (∀ n, ns !! i = Some n → nodes σ' !! n.1 = None)
         ∧ (∀ l' ns', l' ≠ l → is_list σ l' ns' → is_list σ' l' ns')).
Proof.
  intros [own Hrep] Hlist. split.
  - intros ->. destruct Hlist as (L & HL & _ & Hsz).
    by eapply EraseAfter_empty.
  - intros i Hcur Hi.
    pose proof (represents_is_list _ _ _ _ Hrep Hlist) as Hl.
    destruct (EraseAfter_spec _ _ _ _ _ _ Hrep Hl Hcur Hi)
      as (σ' & Hrun & Hrep' & Hfreed).
    pose proof (represents_self _ _ _ _ Hrep') as Hlist'.
    exists σ'. split_and!; try done.
    + by eexists.
    + rewrite (iterate_spec _ _ _ Hlist').
      by rewrite fmap_app, fmap_take, fmap_drop.
    + rewrite (GetSize_spec _ _ _ Hlist'). do 2 f_equal.
      rewrite length_app, length_take, length_drop. lia.
    + intros l' ns' Hne Hlist0. by apply (represents_frame σ σ' own l _ l' ns' Hrep Hrep').
Qed.

(** C8.  In a well-formed store, [PopFront()] succeeds on every list: an
    empty list is left as it is, a non-empty one loses its first element and
    one unit of size; the other lists keep their contents. *)
Theorem PopFront_drops_first_element σ l ns :
  wf σ → is_list σ l ns →
  ∃ σ',
    PopFront l σ = Ok tt σ'
    ∧ wf σ'
    ∧ is_list σ' l (tail ns)
    ∧ iterate NDEBUG l σ' = Ok (tail ns.*2) σ'
    ∧ GetSize l σ' = Ok (Z.of_nat (length ns - 1)) σ'
    ∧ (ns = [] → σ' = σ)
    ∧ (∀ l' ns', l' ≠ l → is_list σ l' ns' → is_list σ' l' ns').
Proof.
  intros [own Hrep] Hlist.
  pose proof (represents_is_list _ _ _ _ Hrep Hlist) as Hl.
  destruct (PopFront_spec _ _ _ _ Hrep Hl) as (σ' & Hrun & Hrep' & Hnil).
  pose proof (represents_self _ _ _ _ Hrep') as Hlist'.
  exists σ'. split_and!; try done.
  - by eexists.
  - rewrite (iterate_spec _ _ _ Hlist'). by destruct ns.
  - rewrite (GetSize_spec _ _ _ Hlist'). do 2 f_equal.
    destruct ns; simpl; lia.
  - intros l' ns' Hne Hlist0.
    by apply (represents_frame σ σ' own l _ l' ns' Hrep Hrep').
Qed.

(** C9.  [operator==] answers [true] at once when the two [begin()] cursors
    are the same node (or both null), whatever the nodes hold; otherwise,
    on two valid chains, it answers whether the two size counters agree and
    [std::equal] finds the two walks equal element by element, which for two
    lists whose counters are right means: same size, and equal elements at
    every index.  [operator!=] negates it. *)
Theorem list_eq_decides_equality σ lhs rhs L1 L2 :
  lists σ !! lhs = Some L1 → lists σ !! rhs = Some L2 →
  (head_next_node L1 = head_next_node L2 →
     list_eq T_eqb NDEBUG lhs rhs σ = Ok true σ)
  ∧ (∀ ns1 ns2,
       head_next_node L1 ≠ head_next_node L2 →
       lseg (nodes σ) (head_next_node L1) nullptr ns1 →
       lseg (nodes σ) (head_next_node L2) nullptr ns2 →
       list_eq T_eqb NDEBUG lhs rhs σ
         = Ok ((size_ L1 =? size_ L2) && equal_values T_eqb ns1.*2 ns2.*2) σ
       ∧ (equal_values T_eqb ns1.*2 ns2.*2 = true
          ↔ Forall2 (λ x y, T_eqb x y = true) ns1.*2 ns2.*2))
  ∧ (∀ ns1 ns2,
       head_next_node L1 ≠ head_next_node L2 →
       is_list σ lhs ns1 → is_list σ rhs ns2 →
       ∃ b, list_eq T_eqb NDEBUG lhs rhs σ = Ok b σ
            ∧ (b = true ↔
                 size_ L1 = size_ L2
                 ∧ ∀ i x y, ns1.*2 !! i = Some x → ns2.*2 !! i = Some y →
                            T_eqb x y = true))
  ∧ list_ne T_eqb NDEBUG lhs rhs σ
      = match list_eq T_eqb NDEBUG lhs rhs σ with
        | Ok b σ' => Ok (negb b) σ'
        | Err e => Err e
        end.
Proof.
  intros HL1 HL2.
  assert (Hchains : ∀ ns1 ns2,
    head_next_node L1 ≠ head_next_node L2 →
    lseg (nodes σ) (head_next_node L1) nullptr ns1 →
    lseg (nodes σ) (head_next_node L2) nullptr ns2 →
    list_eq T_eqb NDEBUG lhs rhs σ
      = Ok ((size_ L1 =? size_ L2) && equal_values T_eqb ns1.*2 ns2.*2) σ).
  { intros ns1 ns2 Hne Hseg1 Hseg2.
    pose proof (lseg_length _ _ _ Hseg1) as Hlen.
    unfold list_eq. mstep begin_run. mstep begin_run.
    unfold it_eq at 1. msimpl. rewrite bool_decide_false by done.
    unfold GetSize. mstep read_size_run. mstep read_size_run.
    destruct (size_ L1 =? size_ L2); [|done].
    mstep end_run. mstep end_run. erewrite bind_Ok by reflexivity.
    apply std_equal_run; [done|done|lia]. }
  split_and!.
  - intros Heq. unfold list_eq. mstep begin_run. mstep begin_run.
    unfold it_eq. msimpl. by rewrite bool_decide_true.
  - intros ns1 ns2 Hne Hseg1 Hseg2.
    split; [by apply Hchains|apply equal_values_Forall2].
  - intros ns1 ns2 Hne (L1' & HL1' & Hseg1 & Hsz1) (L2' & HL2' & Hseg2 & Hsz2).
    assert (L1' = L1) as -> by congruence.
    assert (L2' = L2) as -> by congruence.
    eexists. split; [by apply Hchains|].
    rewrite andb_true_iff, Z.eqb_eq, equal_values_Forall2,
      Forall2_same_length_lookup, !length_fmap.
    split; [by intros (? & _ & ?)|]. intros [Hsize Hall].
    split_and!; [done| |done]. lia.
  - unfold list_ne, bind. by destruct (list_eq T_eqb NDEBUG lhs rhs σ).
Qed.

(** C10.  [SetSize(n)] stores [n] in the counter and touches nothing else:
    the walk from [begin()] to [end()] is what it was, and the store stops
    being well formed as soon as [n] is not the number of elements.  Such a
    call exists: on an empty list, [SetSize(1)] leaves [GetSize()] at [1]
    with nothing to walk over. *)
Theorem SetSize_overwrites_counter_only :
  (∀ σ l ns n,
     is_list σ l ns →
     ∃ σ',
       SetSize l n σ = Ok tt σ'
       ∧ nodes σ' = nodes σ
       ∧ begin_ l σ' = Ok (Iterator (first_ptr ns)) σ'
       ∧ iterate NDEBUG l σ' = Ok ns.*2 σ'
       ∧ GetSize l σ' = Ok n σ'
       ∧ (n ≠ Z.of_nat (length ns) → ¬ wf σ'))
  ∧ (∃ σ l n σ' vs,
       wf σ
       ∧ SetSize l n σ = Ok tt σ'
       ∧ iterate NDEBUG l σ' = Ok vs σ'
       ∧ GetSize l σ' = Ok n σ'
       ∧ n ≠ Z.of_nat (length vs)).
Proof.
  assert (Hall : ∀ σ l ns n,
     is_list σ l ns →
     ∃ σ',
       SetSize l n σ = Ok tt σ'
       ∧ nodes σ' = nodes σ
       ∧ begin_ l σ' = Ok (Iterator (first_ptr ns)) σ'
       ∧ iterate NDEBUG l σ' = Ok ns.*2 σ'
       ∧ GetSize l σ' = Ok n σ'
       ∧ (n ≠ Z.of_nat (length ns) → ¬ wf σ')).
  { intros σ l ns n (L & HL & Hseg & Hsz).
    eexists. split; [by apply write_size_run|].
    set (σ' := mkState _ _).
    assert (HL' : lists σ' !! l = Some (mkList (head_next_node L) n)).
    { unfold σ'. simpl. by rewrite lookup_insert_eq. }
    split_and!.
    - done.
    - rewrite (begin_run _ _ _ HL'). simpl.
      by rewrite (lseg_first_null _ _ _ Hseg).
    - by apply (iterate_chain _ _ _ _ HL').
    - unfold GetSize. by rewrite (read_size_run _ _ _ HL').
    - intros Hn [own Hrep].
      destruct (represents_live _ _ l Hrep) as [ns' Hl]; [by eauto|].
      destruct (rep_lists _ _ Hrep _ _ Hl) as (L' & HL'' & Hseg' & Hsz').
      rewrite HL' in HL''. injection HL'' as <-. simpl in *.
      by rewrite (lseg_det _ _ _ _ Hseg Hseg') in Hn. }
  split; [done|].
  destruct (new_list_spec _ _ represents_empty) as (Hnew & _ & Hrep).
  simpl in Hrep. set (σ := mkState _ _) in Hrep. set (l := fresh _) in *.
  assert (Hlist : is_list σ l []).
  { apply (rep_lists _ _ Hrep). by rewrite lookup_insert_eq. }
  destruct (Hall σ l [] 1 Hlist) as (σ' & Hset & _ & _ & Hit & Hsize & _).
  exists σ, l, 1, σ', []. split_and!; try done. by eexists.
Qed.

(** C1.  [swap] returns at once when its argument is empty: both lists keep
    what they held, so a non-empty list swapped with an empty one is not
    emptied and the empty one receives nothing. *)
Theorem swap_with_empty_argument_changes_nothing σ this other ns :
  is_list σ this ns → is_list σ other [] →
  swap_free this other σ = Ok tt σ
  ∧ iterate NDEBUG this σ = Ok ns.*2 σ
  ∧ iterate NDEBUG other σ = Ok [] σ.
Proof.
  intros Hthis Hother. split_and!.
  - destruct Hother as (L & HL & _ & Hsz). by eapply swap_empty_run.
  - by apply iterate_spec.
  - by apply (iterate_spec _ _ []).
Qed.

(** C2.  Copy assignment from an empty list to a non-empty one builds an
    empty temporary, which [swap] then refuses to exchange: the left-hand
    side keeps all its elements and the store ends as it began. *)
Theorem assign_from_empty_keeps_old_contents σ this rhs ns :
  is_list σ this ns → ns ≠ [] → is_list σ rhs [] →
  assign NDEBUG this rhs σ = Ok this σ
  ∧ iterate NDEBUG this σ = Ok ns.*2 σ
  ∧ iterate NDEBUG rhs σ = Ok [] σ.
Proof.
  intros Hthis Hne Hrhs.
  split_and!; [|by apply iterate_spec|by apply (iterate_spec _ _ [])].
  destruct Hthis as (L1 & HL1 & Hseg1 & Hsz1).
  destruct Hrhs as (L2 & HL2 & Hseg2 & Hsz2). simpl in Hseg2, Hsz2.
  assert (Hdiff : this ≠ rhs).
  { intros ->. rewrite HL1 in HL2. injection HL2 as ->.
    destruct ns; [done|]. simpl in Hsz1. lia. }
  assert (Hfresh : lists σ !! fresh (dom (lists σ)) = None).
  { apply not_elem_of_dom. apply is_fresh. }
  set (tmp := fresh (dom (lists σ))) in *.
  assert (Htmp_rhs : tmp ≠ rhs) by (by eapply lookup_None_Some_ne).
  assert (Htmp_this : tmp ≠ this) by (by eapply lookup_None_Some_ne).
  unfold assign. erewrite bind_Ok; cycle 1.
  { apply assert_run. mstep load_next_head. mstep load_next_head.
    rewrite bool_decide_true; [done|].
    rewrite Hseg2, (lseg_first_null _ _ _ Hseg1). by destruct ns. }
  rewrite decide_True by done. rewrite !bind_assoc.
  unfold SingleLinkedList_copy. rewrite !bind_assoc.
  erewrite bind_Ok by reflexivity. fold tmp. rewrite !bind_assoc.
  mstep IsEmpty_run. rewrite Hsz2. simpl. rewrite bind_ret, !bind_assoc.
  erewrite bind_Ok by (eapply swap_empty_run; [solve_lookup|done]).
  unfold destroy_list, Clear. rewrite !bind_assoc.
  mstep read_size_run. simpl. rewrite !bind_ret.
  destruct σ as [ls nd]. unfold bind, ret. simpl in *.
  by rewrite delete_insert_id.
Qed.

(** C3.  Assigning a list to itself trips the assertion at the top of
    [operator=] in a build with assertions: both sides have the same first
    node.  Only with NDEBUG does the identity test get its turn, and the
    call then does nothing. *)
Theorem self_assignment_trips_assertion σ l L :
  lists σ !! l = Some L →
  assign NDEBUG l l σ = if NDEBUG then Ok l σ else Err AssertionFailed.
Proof.
  intros HL. unfold assign, assert_. destruct NDEBUG; cbv iota.
  - rewrite bind_ret. rewrite decide_False by (intros H; by apply H).
    by rewrite bind_ret.
  - rewrite !bind_assoc. mstep load_next_head. rewrite !bind_assoc.
    mstep load_next_head.
    rewrite bind_ret. by rewrite bool_decide_false by (intros H; by apply H).
Qed.

(** C4.  The initializer-list constructor dereferences [values.begin()]
    before it looks at [values.end()]: for an empty list of values that
    reads past the end of the array. *)
Theorem init_from_empty_sequence_is_undefined σ :
  SingleLinkedList_init NDEBUG [] σ = Err UndefinedBehaviour.
Proof. reflexivity. Qed.

(** * Beyond the claims *)

(** ** [PushFront] and [PopFront] through the sentinel *)

(** [PushFront(v)] is [InsertAfter(before_begin(), v)] with the returned
    cursor dropped: same store and same failure, on every store. *)
Theorem PushFront_is_InsertAfter_before_begin σ l v :
  PushFront l v σ
  = (p <- before_begin l ;; InsertAfter NDEBUG l p v ;;; ret tt) σ.
Proof.
  destruct (lists σ !! l) as [L|] eqn:HL.
  - mstep before_begin_run.
    destruct (decide (Z.of_nat (size (nodes σ)) < max_nodes)) as [Hcap|Hcap].
    + rewrite (PushFront_run _ _ _ v HL Hcap).
      by rewrite (bind_Ok _ _ _ _ _ (InsertAfter_run_head _ _ _ v HL Hcap)).
    + unfold PushFront, InsertAfter. msimpl. mstep load_next_head.
      rewrite new_Node_full by done. rewrite !bind_assoc.
      rewrite (bind_Ok _ _ _ _ _ (assert_ret_run _ σ eq_refl)).
      rewrite !bind_assoc. mstep load_next_head. rewrite !bind_assoc.
      by rewrite new_Node_full.
  - unfold PushFront. rewrite load_next_head_dead by done.
    unfold before_begin. rewrite bind_assoc. by rewrite get_list_dead.
Qed.

(** On a list whose chain and counter are right, [PopFront()] is
    [EraseAfter(before_begin())] with the returned cursor dropped. *)
Theorem PopFront_is_EraseAfter_before_begin σ l ns :
  is_list σ l ns →
  PopFront l σ = (p <- before_begin l ;; EraseAfter NDEBUG l p ;;; ret tt) σ.
Proof.
  intros (L & HL & Hseg & Hsz). mstep before_begin_run.
  destruct ns as [|[a v] ns'].
  - rewrite (bind_Ok _ _ _ _ _ (EraseAfter_empty _ _ _ _ HL Hsz)).
    unfold PopFront. mstep IsEmpty_run. by rewrite Hsz.
  - simpl in Hseg, Hsz. destruct Hseg as (Hhead & r & Ha & _). simpl in Ha.
    assert (Hne : size_ L ≠ 0) by lia.
    rewrite (PopFront_run _ _ _ _ _ HL Hne Hhead Ha).
    by rewrite (bind_Ok _ _ _ _ _ (EraseAfter_run_head _ _ _ _ _ HL Hne Hhead Ha)).
Qed.

(** ** [PushFront] *)

(** [PushFront(v)] puts [v] in front, adds one to the size, makes the new
    node [begin()], and leaves every node that existed as it was, so no
    cursor is invalidated. *)
Theorem PushFront_prepends σ l ns v :
  wf σ → is_list σ l ns →
  Z.of_nat (size (nodes σ)) < max_nodes →
  ∃ a σ',
    PushFront l v σ = Ok tt σ'
    ∧ nodes σ !! a = None
    ∧ wf σ'
    ∧ is_list σ' l ((a, v) :: ns)
    ∧ iterate NDEBUG l σ' = Ok (v :: ns.*2) σ'
    ∧ GetSize l σ' = Ok (Z.of_nat (length ns) + 1) σ'
    ∧ begin_ l σ' = Ok (Iterator (node_at a)) σ'
    ∧ (∀ b n, nodes σ !! b = Some n → nodes σ' !! b = Some n)
    ∧ (∀ l' ns', l' ≠ l → is_list σ l' ns' → is_list σ' l' ns').
Proof.
  intros [own Hrep] Hlist Hcap.
  pose proof (represents_is_list _ _ _ _ Hrep Hlist) as Hl.
  destruct (PushFront_spec _ _ _ _ v Hrep Hl Hcap)
    as (σ' & Hrun & Hfresh & _ & Hrep').
  pose proof (represents_self _ _ _ _ Hrep') as Hlist'.
  exists (fresh (dom (nodes σ))), σ'. split_and!; try done.
  - by eexists.
  - by rewrite (iterate_spec _ _ _ Hlist').
  - rewrite (GetSize_spec _ _ _ Hlist'). do 2 f_equal. simpl length. lia.
  - by rewrite (begin_spec _ _ _ Hlist').
  - intros b n Hb. destruct Hlist as (L & HL & _).
    rewrite (PushFront_run _ _ _ v HL Hcap) in Hrun. injection Hrun as <-.
    simpl. rewrite lookup_insert_ne; [done|]. by eapply lookup_None_Some_ne.
  - intros l' ns' Hne Hlist0.
    by apply (represents_frame σ σ' own l _ l' ns' Hrep Hrep').
Qed.

(** ** [Clear] *)

(** [Clear()] empties the list and frees each of its nodes and no other;
    on an empty list it changes nothing. *)
Theorem Clear_empties_and_frees σ l ns :
  wf σ → is_list σ l ns →
  ∃ σ',
    Clear l σ = Ok tt σ'
    ∧ wf σ'
    ∧ is_list σ' l []
    ∧ IsEmpty l σ' = Ok true σ'
    ∧ (∀ a, a ∈ ns.*1 → nodes σ' !! a = None)
    ∧ (∀ a, a ∉ ns.*1 → nodes σ' !! a = nodes σ !! a)
    ∧ (ns = [] → σ' = σ)
    ∧ (∀ l' ns', l' ≠ l → is_list σ l' ns' → is_list σ' l' ns').
Proof.
  intros [own Hrep] Hlist.
  pose proof (represents_is_list _ _ _ _ Hrep Hlist) as Hl.
  destruct (Clear_spec _ _ _ _ Hrep Hl) as (σ' & Hrun & Hrep').
  pose proof (represents_self _ _ _ _ Hrep') as Hlist'.
  destruct Hlist as (L & HL & Hseg & Hsz).
  assert (Hstate : ns = [] ∧ σ' = σ ∨
            σ' = mkState (<[l := mkList nullptr 0]> (lists σ))
                         (foldl (λ m x, delete x m) (nodes σ) ns.*1)).
  { destruct ns as [|n ns'].
    - left. split; [done|]. revert Hrun. unfold Clear. mstep read_size_run.
      rewrite Hsz. simpl. by intros [= <-].
    - right.
      rewrite (Clear_run _ _ _ (n :: ns') HL) in Hrun;
        [|simpl in Hsz; lia|done].
      by injection Hrun as <-. }
  exists σ'. split_and!; try done.
  - by eexists.
  - by rewrite (IsEmpty_spec _ _ _ Hlist').
  - intros a Ha. destruct Hstate as [[-> _]| ->].
    + by apply elem_of_nil in Ha.
    + simpl. by apply foldl_delete_lookup_in.
  - intros a Ha. destruct Hstate as [[_ ->]| ->]; [done|].
    simpl. by apply foldl_delete_lookup.
  - intros ->. destruct Hstate as [[_ ->]| ->]; [done|].
    destruct σ as [ls nd], L as [hd sz]. simpl in *. subst hd sz.
    f_equal. by apply insert_id.
  - intros l' ns' Hne Hlist0.
    by apply (represents_frame σ σ' own l _ l' ns' Hrep Hrep').
Qed.

(** ** Cursors *)

(** A cursor at position [i] of a list ([0] is [before_begin()]) steps to
    position [i + 1]: it then designates the list's [i]-th element, whose
    value [operator*] returns, or is [end()] when [i] was the last
    position.  Stepping or dereferencing [end()] fails. *)
Theorem iterator_steps_along_list σ l ns i pos :
  is_list σ l ns → cursor_at l ns i pos →
  it_incr NDEBUG pos σ = Ok (Iterator (first_ptr (drop i ns))) σ
  ∧ (it_eq (Iterator (first_ptr (drop i ns))) (Iterator nullptr) = true
     ↔ i = length ns)
  ∧ (∀ n, ns !! i = Some n →
       cursor_at l ns (S i) (Iterator (first_ptr (drop i ns)))
       ∧ it_deref NDEBUG (Iterator (first_ptr (drop i ns))) σ = Ok n.2 σ)
  ∧ it_incr NDEBUG (Iterator nullptr) σ
      = Err (if NDEBUG then UndefinedBehaviour else AssertionFailed)
  ∧ it_deref NDEBUG (Iterator nullptr) σ
      = Err (if NDEBUG then UndefinedBehaviour else AssertionFailed).
Proof.
  intros Hlist Hcur. pose proof Hlist as (L & HL & Hseg & Hsz).
  assert (Hi : (i ≤ length ns)%nat).
  { destruct i as [|j]; [lia|]. destruct Hcur as (n & Hj & _).
    apply lookup_lt_Some in Hj. lia. }
  split_and!.
  - destruct pos as [p]. destruct i as [|j]; simpl in Hcur.
    + subst p. rewrite (it_incr_head_run _ _ _ HL), drop_0.
      by rewrite (lseg_first_null _ _ _ Hseg).
    + destruct Hcur as (n & Hj & ->).
      destruct (lseg_split_at _ _ _ _ _ Hseg Hj) as (r & _ & Hn & Hrest & _).
      rewrite (it_incr_run _ _ _ Hn). simpl.
      by rewrite (lseg_first_null _ _ _ Hrest).
  - unfold it_eq. simpl. rewrite bool_decide_eq_true. split.
    + intros Hnull. destruct (decide (i = length ns)) as [|Hne]; [done|].
      destruct (lookup_lt_is_Some_2 ns i ltac:(lia)) as [n Hn].
      by rewrite (first_ptr_drop _ _ _ Hn) in Hnull.
    + intros ->. by rewrite drop_all.
  - intros n Hn. rewrite (first_ptr_drop _ _ _ Hn). split.
    + simpl. by exists n.
    + by eapply is_list_deref.
  - unfold it_incr, assert_. destruct NDEBUG; cbv iota.
    + by rewrite bind_ret.
    + by rewrite bind_assoc, bind_ret.
  - unfold it_deref, assert_. destruct NDEBUG; cbv iota.
    + by rewrite bind_ret.
    + by rewrite bind_assoc, bind_ret.
Qed.

(** ** What [EraseAfter] does without a successor *)

(** [EraseAfter] at the last position of a non-empty list removes nothing:
    the second assertion fires, and without assertions the null successor is
    dereferenced. *)
Theorem EraseAfter_at_last_position_fails σ l ns pos :
  wf σ → is_list σ l ns → ns ≠ [] → cursor_at l ns (length ns) pos →
  EraseAfter NDEBUG l pos σ
    = Err (if NDEBUG then UndefinedBehaviour else AssertionFailed).
Proof.
  intros [own Hrep] Hlist Hne Hcur.
  pose proof (represents_is_list _ _ _ _ Hrep Hlist) as Hl.
  by eapply EraseAfter_last.
Qed.

(** ** Misuse the header does not check *)

Lemma InsertAfter_run_foreign_sentinel σ l1 l2 L1 L2 v :
  lists σ !! l1 = Some L1 → lists σ !! l2 = Some L2 → l1 ≠ l2 →
  Z.of_nat (size (nodes σ)) < max_nodes →
  InsertAfter NDEBUG l1 (Iterator (head_of l2)) v σ =
    Ok (Iterator (node_at (fresh (dom (nodes σ)))))
       (mkState
          (<[l1 := mkList (head_next_node L1) (wrap (size_ L1 + 1))]>
             (<[l2 := mkList (node_at (fresh (dom (nodes σ)))) (size_ L2)]>
                (lists σ)))
          (<[fresh (dom (nodes σ)) := mkNode v (head_next_node L2)]>
             (nodes σ))).
Proof.
  intros HL1 HL2 Hne Hcap. unfold InsertAfter. msimpl.
  rewrite (bind_Ok _ _ _ _ _ (assert_ret_run _ σ eq_refl)).
  mstep load_next_head.
  erewrite bind_Ok by (by eapply new_Node_run). msimpl.
  mstep store_next_head. mstep read_size_run.
  erewrite bind_Ok by (eapply write_size_run; solve_lookup). msimpl.
  by mstep load_next_head.
Qed.

(** [InsertAfter] called on one list with a cursor into another links the
    new node into the cursor's list and counts it in the list it was called
    on: afterwards neither list's size is its number of elements. *)
Theorem InsertAfter_foreign_cursor_miscounts σ l1 l2 ns1 ns2 i pos v :
  wf σ → is_list σ l1 ns1 → is_list σ l2 ns2 → l1 ≠ l2 →
  cursor_at l2 ns2 i pos →
  Z.of_nat (size (nodes σ)) < max_nodes →
  ∃ it σ',
    InsertAfter NDEBUG l1 pos v σ = Ok it σ'
    ∧ iterate NDEBUG l1 σ' = Ok ns1.*2 σ'
    ∧ GetSize l1 σ' = Ok (Z.of_nat (length ns1) + 1) σ'
    ∧ iterate NDEBUG l2 σ' = Ok (take i ns2.*2 ++ v :: drop i ns2.*2) σ'
    ∧ GetSize l2 σ' = Ok (Z.of_nat (length ns2)) σ'
    ∧ ¬ wf σ'.
Proof.
  intros [own Hrep] H1 H2 Hne Hcur Hcap.
  pose proof (represents_is_list _ _ _ _ Hrep H1) as Hl1.
  pose proof (represents_is_list _ _ _ _ Hrep H2) as Hl2.
  pose proof (rep_disjoint _ _ Hrep _ _ _ _ Hne Hl1 Hl2) as Hdisj.
  pose proof (represents_length _ _ _ _ Hrep Hl1) as Hlen1.
  pose proof max_nodes_lt_size_max as Hmax.
  pose proof (fresh_node σ) as Hfresh.
  destruct H1 as (L1 & HL1 & Hseg1 & Hsz1).
  pose proof H2 as (L2 & HL2 & Hseg2 & Hsz2).
  pose proof (lseg_fresh _ _ _ _ _ Hfresh Hseg1) as Hnotin1.
  (* the call on the cursor's own list, for the shape of its chain *)
  destruct (InsertAfter_spec _ _ _ _ _ _ v Hrep Hl2 Hcur Hcap)
    as (σ2 & Hrun2 & _ & _ & Hrep2).
  destruct (represents_self _ _ _ _ Hrep2) as (L2' & HL2' & Hseg2' & _).
  set (a := fresh (dom (nodes σ))) in *.
  assert (Hresult : ∃ it σ',
    InsertAfter NDEBUG l1 pos v σ = Ok it σ'
    ∧ nodes σ' = nodes σ2
    ∧ lists σ' !! l1
        = Some (mkList (head_next_node L1) (wrap (size_ L1 + 1)))
    ∧ lists σ' !! l2 = Some (mkList (head_next_node L2') (size_ L2))
    ∧ (∀ b, b ∈ ns1.*1 → nodes σ' !! b = nodes σ !! b)).
  { destruct pos as [p]. destruct i as [|j]; simpl in Hcur.
    - subst p.
      rewrite (InsertAfter_run_head _ _ _ v HL2 Hcap) in Hrun2.
      injection Hrun2 as <-. simpl in HL2'.
      rewrite lookup_insert_eq in HL2'. injection HL2' as <-.
      eexists _, _.
      split; [by apply InsertAfter_run_foreign_sentinel|]. simpl.
      split_and!; [done|by rewrite lookup_insert_eq| |].
      + rewrite lookup_insert_ne by done. by rewrite lookup_insert_eq.
      + intros b Hb. rewrite lookup_insert_ne; [done|]. by intros <-.
    - destruct Hcur as ([b w] & Hj & ->). simpl in *.
      destruct (lseg_split_at _ _ _ _ _ Hseg2 Hj) as (r & _ & Hb & _).
      simpl in Hb.
      rewrite (InsertAfter_run_node _ _ _ _ _ v HL2 Hb Hcap) in Hrun2.
      injection Hrun2 as <-. simpl in HL2'.
      rewrite lookup_insert_eq in HL2'. injection HL2' as <-.
      eexists _, _.
      split; [by apply (InsertAfter_run_node _ _ _ _ _ v HL1 Hb Hcap)|]. simpl.
      split_and!; [done|by rewrite lookup_insert_eq| |].
      + rewrite lookup_insert_ne by done. rewrite HL2. by destruct L2.
      + intros c Hc. rewrite !lookup_insert_ne; [done|by intros <-|].
        intros <-. apply (Hdisj _ Hc). apply list_elem_of_fmap.
        exists (b, w). split; [done|]. by eapply list_elem_of_lookup_2. }
  destruct Hresult as (it & σ' & Hrun & Hnodes & HL1' & HL2'' & Hkeep).
  assert (Hseg1' : lseg (nodes σ') (head_next_node L1) nullptr ns1).
  { by eapply lseg_frame. }
  exists it, σ'. split_and!.
  - done.
  - by apply (iterate_chain _ _ _ ns1 HL1').
  - unfold GetSize. rewrite (read_size_run _ _ _ HL1'). simpl.
    rewrite wrap_small by lia. by rewrite Hsz1.
  - rewrite (iterate_chain _ _ _ (take i ns2 ++ (a, v) :: drop i ns2) HL2'');
      [|by rewrite Hnodes].
    by rewrite fmap_app, fmap_cons, fmap_take, fmap_drop.
  - unfold GetSize. rewrite (read_size_run _ _ _ HL2''). simpl.
    by rewrite Hsz2.
  - intros [own' Hrep'].
    destruct (represents_live _ _ l1 Hrep') as [ns' Hl']; [by eauto|].
    destruct (rep_lists _ _ Hrep' _ _ Hl') as (L' & HL' & Hseg' & Hsz').
    rewrite HL1' in HL'. injection HL' as <-. simpl in *.
    rewrite (lseg_det _ _ _ _ Hseg' Hseg1') in Hsz'.
    rewrite wrap_small in Hsz' by lia. lia.
Qed.

(** [InitHead] is [PushFront] on an empty list.  On a non-empty list it
    overwrites the link to the first node: the list is left with one
    reachable element, the old nodes stay allocated with nothing pointing
    to them, and the size is the old size plus one. *)
Theorem InitHead_fits_empty_lists_only σ l ns v :
  is_list σ l ns → Z.of_nat (size (nodes σ)) < max_nodes →
  (ns = [] → InitHead l v σ = PushFront l v σ)
  ∧ (ns ≠ [] →
       ∃ σ',
         InitHead l v σ = Ok tt σ'
         ∧ iterate NDEBUG l σ' = Ok [v] σ'
         ∧ GetSize l σ' = Ok (Z.of_nat (length ns) + 1) σ'
         ∧ (∀ b n, nodes σ !! b = Some n → nodes σ' !! b = Some n)
         ∧ ¬ wf σ').
Proof.
  intros (L & HL & Hseg & Hsz) Hcap.
  pose proof (lseg_length _ _ _ Hseg) as Hlen.
  pose proof max_nodes_lt_size_max as Hmax.
  pose proof (fresh_node σ) as Hfresh.
  split.
  - intros ->. by eapply InitHead_as_PushFront.
  - intros Hne. set (a := fresh (dom (nodes σ))) in *.
    set (σ' := mkState (<[l := mkList (node_at a) (wrap (size_ L + 1))]> (lists σ))
                       (<[a := mkNode v nullptr]> (nodes σ))).
    assert (Hrun : InitHead l v σ = Ok tt σ').
    { unfold InitHead. erewrite bind_Ok by (by eapply new_Node_run). msimpl.
      mstep store_next_head. mstep read_size_run.
      erewrite write_size_run by solve_lookup. msimpl.
      by rewrite insert_insert_eq. }
    assert (HL' : lists σ' !! l
                  = Some (mkList (node_at a) (wrap (size_ L + 1)))).
    { unfold σ'. simpl. by rewrite lookup_insert_eq. }
    assert (Hseg' : lseg (nodes σ') (node_at a) nullptr [(a, v)]).
    { simpl. split; [done|]. exists nullptr. by rewrite lookup_insert_eq. }
    exists σ'. split_and!.
    + done.
    + by rewrite (iterate_chain _ _ _ _ HL' Hseg').
    + unfold GetSize. rewrite (read_size_run _ _ _ HL'). simpl.
      rewrite wrap_small by lia. by rewrite Hsz.
    + intros b n Hb. simpl. rewrite lookup_insert_ne; [done|].
      by eapply lookup_None_Some_ne.
    + intros [own' Hrep'].
      destruct (represents_live _ _ l Hrep') as [ns' Hl']; [by eauto|].
      destruct (rep_lists _ _ Hrep' _ _ Hl') as (L' & HL'' & Hseg'' & Hsz').
      rewrite HL' in HL''. injection HL'' as <-. simpl in Hseg'', Hsz'.
      rewrite (lseg_det _ _ _ [(a, v)] Hseg'' Hseg') in Hsz'.
      rewrite wrap_small in Hsz' by lia. simpl in Hsz'.
      destruct ns; [done|]. simpl in Hsz. lia.
Qed.

(** ** Ordering *)

Section OrderingProofs.

Variable T_ltb : T → T → bool.

Lemma std_lexicographical_compare_run ns1 : ∀ ns2 fuel σ p q,
  lseg (nodes σ) p nullptr ns1 → lseg (nodes σ) q nullptr ns2 →
  (length ns1 < fuel)%nat →
  std_lexicographical_compare T_ltb NDEBUG fuel
    (Iterator p) (Iterator nullptr) (Iterator q) (Iterator nullptr) σ
  = Ok (lex_lt T_ltb ns1.*2 ns2.*2) σ.
Proof.
  induction ns1 as [|[a x] ns1 IH]; intros [|[b y] ns2] fuel σ p q H1 H2 Hfuel;
    (destruct fuel as [|fuel]; [simpl in Hfuel; lia|]);
    simpl in H1, H2; simpl std_lexicographical_compare.
  - by subst.
  - destruct H2 as (-> & _). by subst.
  - destruct H1 as (-> & _). by subst.
  - destruct H1 as (-> & r1 & Ha & H1). destruct H2 as (-> & r2 & Hb & H2).
    simpl in Ha, Hb.
    change (it_ne (Iterator (node_at a)) (Iterator nullptr)) with true.
    change (it_ne (Iterator (node_at b)) (Iterator nullptr)) with true.
    cbn [andb]. mstep it_deref_run. mstep it_deref_run.
    simpl. destruct (T_ltb x y); [done|].
    mstep it_deref_run. mstep it_deref_run.
    simpl. destruct (T_ltb y x); [done|].
    mstep it_incr_run. mstep it_incr_run.
    simpl. apply IH; [done|done|simpl in Hfuel; lia].
Qed.

Lemma list_lt_run σ lhs rhs L1 L2 ns1 ns2 :
  lists σ !! lhs = Some L1 → lists σ !! rhs = Some L2 →
  lseg (nodes σ) (head_next_node L1) nullptr ns1 →
  lseg (nodes σ) (head_next_node L2) nullptr ns2 →
  list_lt T_ltb NDEBUG lhs rhs σ = Ok (lex_lt T_ltb ns1.*2 ns2.*2) σ.
Proof.
  intros HL1 HL2 Hseg1 Hseg2. pose proof (lseg_length _ _ _ Hseg1) as Hlen.
  unfold list_lt. mstep begin_run. mstep end_run.
  mstep begin_run. mstep end_run. erewrite bind_Ok by reflexivity.
  apply std_lexicographical_compare_run; [done|done|lia].
Qed.

(** [lex_lt xs ys] holds when, at the first index where the sequences do
    not carry equivalent elements, [xs] has run out or carries the lesser
    element. *)
Lemma lex_lt_first_difference (xs ys : list T) :
  lex_lt T_ltb xs ys = true ↔
  ∃ i y,
    ys !! i = Some y
    ∧ (∀ j, (j < i)%nat →
         ∃ x' y', xs !! j = Some x' ∧ ys !! j = Some y'
                  ∧ T_ltb x' y' = false ∧ T_ltb y' x' = false)
    ∧ (xs !! i = None ∨ ∃ x, xs !! i = Some x ∧ T_ltb x y = true).
Proof.
  revert ys. induction xs as [|x xs IH]; intros [|y ys]; simpl.
  - split; [done|]. by intros (i & y & Hy & _).
  - split; [intros _|done]. exists 0%nat, y. split_and!; [done| |by left].
    intros j Hj. lia.
  - split; [done|]. by intros (i & y & Hy & _).
  - destruct (T_ltb x y) eqn:Hxy.
    + split; [intros _|done]. exists 0%nat, y. split_and!; [done| |].
      * intros j Hj. lia.
      * right. by exists x.
    + destruct (T_ltb y x) eqn:Hyx.
      * split; [done|]. intros (i & y0 & Hy0 & Hpre & Hi).
        destruct i as [|i].
        -- simpl in Hy0, Hi. injection Hy0 as <-.
           destruct Hi as [?|(x0 & [= <-] & ?)]; [done|congruence].
        -- destruct (Hpre 0%nat ltac:(lia)) as (x' & y' & Hx' & Hy' & _ & ?).
           simpl in Hx', Hy'. congruence.
      * rewrite IH. split.
        -- intros (i & y0 & Hy0 & Hpre & Hi). exists (S i), y0.
           split_and!; [done| |done].
           intros [|j] Hj; [by exists x, y|]. simpl. apply Hpre. lia.
        -- intros (i & y0 & Hy0 & Hpre & Hi). destruct i as [|i].
           ++ simpl in Hy0, Hi. injection Hy0 as <-.
              destruct Hi as [?|(x0 & [= <-] & ?)]; [done|congruence].
           ++ exists i, y0. split_and!; [done| |done].
              intros j Hj. apply (Hpre (S j)). lia.
Qed.

(** [operator<] on two valid chains decides the lexicographic order of the
    two walks: it answers [true] exactly when, at the first index where the
    lists do not carry equivalent elements, the left list has ended or
    carries the lesser element.  In particular a proper prefix is less. *)
Theorem list_lt_is_lexicographic σ lhs rhs L1 L2 ns1 ns2 :
  lists σ !! lhs = Some L1 → lists σ !! rhs = Some L2 →
  lseg (nodes σ) (head_next_node L1) nullptr ns1 →
  lseg (nodes σ) (head_next_node L2) nullptr ns2 →
  ∃ b,
    list_lt T_ltb NDEBUG lhs rhs σ = Ok b σ
    ∧ (b = true ↔
       ∃ i y,
         ns2.*2 !! i = Some y
         ∧ (∀ j, (j < i)%nat →
              ∃ x' y', ns1.*2 !! j = Some x' ∧ ns2.*2 !! j = Some y'
                       ∧ T_ltb x' y' = false ∧ T_ltb y' x' = false)
         ∧ (ns1.*2 !! i = None
            ∨ ∃ x, ns1.*2 !! i = Some x ∧ T_ltb x y = true)).
Proof.
  intros HL1 HL2 Hseg1 Hseg2. eexists. split; [by eapply list_lt_run|].
  apply lex_lt_first_difference.
Qed.

(** *** A strict total order on the elements gives one on the lists *)

Section TotalOrder.

Hypothesis eqb_eq : ∀ x y, T_eqb x y = true ↔ x = y.
Hypothesis ltb_irrefl : ∀ x, T_ltb x x = false.
Hypothesis ltb_asym : ∀ x y, T_ltb x y = true → T_ltb y x = false.
Hypothesis ltb_total : ∀ x y, x ≠ y → T_ltb x y = true ∨ T_ltb y x = true.

Lemma ltb_neither x y : T_ltb x y = false → T_ltb y x = false → x = y.
Proof.
  intros Hxy Hyx.
  destruct (T_eqb x y) eqn:He; [by apply eqb_eq|].
  destruct (ltb_total x y) as [?|?]; [|congruence|congruence].
  intros Heq. apply eqb_eq in Heq. congruence.
Qed.

Lemma equal_values_eq xs ys : equal_values T_eqb xs ys = true ↔ xs = ys.
Proof.
  revert ys. induction xs as [|x xs IH]; intros [|y ys]; simpl; try done.
  rewrite andb_true_iff, eqb_eq, IH. split; [by intros [-> ->]|by intros [= -> ->]].
Qed.

Lemma lex_lt_irrefl xs : lex_lt T_ltb xs xs = false.
Proof. induction xs as [|x xs IH]; simpl; [done|]. by rewrite ltb_irrefl. Qed.

Lemma lex_lt_asym xs ys :
  lex_lt T_ltb xs ys = true → lex_lt T_ltb ys xs = false.
Proof.
  revert ys. induction xs as [|x xs IH]; intros [|y ys]; simpl; try done.
  destruct (T_ltb x y) eqn:Hxy.
  - intros _. by rewrite (ltb_asym _ _ Hxy).
  - destruct (T_ltb y x) eqn:Hyx; [done|]. apply IH.
Qed.

Lemma lex_lt_total xs ys :
  xs ≠ ys → lex_lt T_ltb xs ys = true ∨ lex_lt T_ltb ys xs = true.
Proof.
  revert ys. induction xs as [|x xs IH]; intros [|y ys] Hne; simpl;
    [done|by left|by right|].
  destruct (T_ltb x y) eqn:Hxy; [by left|].
  destruct (T_ltb y x) eqn:Hyx; [by right|].
  apply IH. intros ->. apply Hne. f_equal. by apply ltb_neither.
Qed.

Lemma list_eq_run σ lhs rhs ns1 ns2 :
  is_list σ lhs ns1 → is_list σ rhs ns2 →
  ∃ b, list_eq T_eqb NDEBUG lhs rhs σ = Ok b σ
       ∧ (b = true ↔ ns1.*2 = ns2.*2).
Proof.
  intros (L1 & HL1 & Hseg1 & Hsz1) (L2 & HL2 & Hseg2 & Hsz2).
  pose proof (lseg_length _ _ _ Hseg1) as Hlen.
  unfold list_eq. mstep begin_run. mstep begin_run.
  unfold it_eq at 1. msimpl. case_bool_decide as Hheads.
  - exists true. split; [done|]. simpl in Hheads. rewrite Hheads in Hseg2.
    by rewrite (lseg_det _ _ _ _ Hseg1 Hseg2).
  - unfold GetSize. mstep read_size_run. mstep read_size_run.
    destruct (size_ L1 =? size_ L2) eqn:Hsize.
    + mstep end_run. mstep end_run. erewrite bind_Ok by reflexivity.
      rewrite (std_equal_run ns1 ns2); [|done|done|lia..].
      eexists. split; [done|]. apply equal_values_eq.
    + exists false. split; [done|]. split; [done|]. intros Heq.
      apply (f_equal length) in Heq. rewrite !length_fmap in Heq. lia.
Qed.

(** With a strict total order on the elements that [operator==] agrees
    with, exactly one of [<], [==] and [>] holds between two lists, [==]
    holds exactly for equal sequences of values, [<=] is [<] or [==], and
    [>=] is [>] or [==]. *)
Theorem list_order_is_total σ l1 l2 ns1 ns2 :
  is_list σ l1 ns1 → is_list σ l2 ns2 →
  ∃ lt eq gt le ge,
    list_lt T_ltb NDEBUG l1 l2 σ = Ok lt σ
    ∧ list_eq T_eqb NDEBUG l1 l2 σ = Ok eq σ
    ∧ list_gt T_ltb NDEBUG l1 l2 σ = Ok gt σ
    ∧ list_le T_ltb NDEBUG l1 l2 σ = Ok le σ
    ∧ list_ge T_ltb NDEBUG l1 l2 σ = Ok ge σ
    ∧ (eq = true ↔ ns1.*2 = ns2.*2)
    ∧ (lt = true ∧ eq = false ∧ gt = false
       ∨ lt = false ∧ eq = true ∧ gt = false
       ∨ lt = false ∧ eq = false ∧ gt = true)
    ∧ le = lt || eq
    ∧ ge = gt || eq.
Proof.
  intros H1 H2. destruct (list_eq_run _ _ _ _ _ H1 H2) as (eq & Heq & Heq_iff).
  destruct H1 as (L1 & HL1 & Hseg1 & _). destruct H2 as (L2 & HL2 & Hseg2 & _).
  pose proof (list_lt_run _ _ _ _ _ _ _ HL1 HL2 Hseg1 Hseg2) as Hlt.
  pose proof (list_lt_run _ _ _ _ _ _ _ HL2 HL1 Hseg2 Hseg1) as Hgt.
  set (xs := ns1.*2) in *. set (ys := ns2.*2) in *.
  exists (lex_lt T_ltb xs ys), eq, (lex_lt T_ltb ys xs),
    (negb (lex_lt T_ltb ys xs)), (negb (lex_lt T_ltb xs ys)).
  assert (Hcases :
    lex_lt T_ltb xs ys = true ∧ eq = false ∧ lex_lt T_ltb ys xs = false
    ∨ lex_lt T_ltb xs ys = false ∧ eq = true ∧ lex_lt T_ltb ys xs = false
    ∨ lex_lt T_ltb xs ys = false ∧ eq = false ∧ lex_lt T_ltb ys xs = true).
  { destruct eq.
    - right. left. destruct Heq_iff as [Hsame _]. rewrite Hsame by done.
      by rewrite lex_lt_irrefl.
    - assert (Hne : xs ≠ ys).
      { intros Hsame. apply Heq_iff in Hsame. done. }
      destruct (lex_lt_total _ _ Hne) as [Hlt'|Hgt'].
      + left. by rewrite Hlt', (lex_lt_asym _ _ Hlt').
      + right. right. by rewrite Hgt', (lex_lt_asym _ _ Hgt'). }
  split_and!; try done.
  - unfold list_le. by rewrite (bind_Ok _ _ _ _ _ Hgt).
  - unfold list_ge, list_gt. by rewrite (bind_Ok _ _ _ _ _ Hlt).
  - by destruct Hcases as [(-> & -> & ->)|[(-> & -> & ->)|(-> & -> & ->)]].
  - by destruct Hcases as [(-> & -> & ->)|[(-> & -> & ->)|(-> & -> & ->)]].
Qed.

End TotalOrder.

Section TransitiveOrder.

Hypothesis ltb_total : ∀ x y, x ≠ y → T_ltb x y = true ∨ T_ltb y x = true.
Hypothesis ltb_trans :
  ∀ x y z, T_ltb x y = true → T_ltb y z = true → T_ltb x z = true.

(** Two elements ordered neither way cannot be told apart. *)
Lemma ltb_unordered x y :
  T_ltb x y = false → T_ltb y x = false → ¬ x ≠ y.
Proof. intros Hxy Hyx Hne. destruct (ltb_total x y Hne); congruence. Qed.

Lemma lex_lt_trans xs ys zs :
  lex_lt T_ltb xs ys = true → lex_lt T_ltb ys zs = true →
  lex_lt T_ltb xs zs = true.
Proof.
  revert ys zs. induction xs as [|x xs IH]; intros [|y ys] [|z zs]; simpl;
    try done.
  destruct (T_ltb x y) eqn:Hxy.
  - intros _. destruct (T_ltb y z) eqn:Hyz.
    + intros _. by rewrite (ltb_trans _ _ _ Hxy Hyz).
    + destruct (T_ltb z y) eqn:Hzy; [done|]. intros _.
      destruct (T_ltb x z) eqn:Hxz; [done|]. exfalso.
      apply (ltb_unordered y z Hyz Hzy). intros ->. congruence.
  - destruct (T_ltb y x) eqn:Hyx; [done|]. intros H1.
    destruct (T_ltb y z) eqn:Hyz.
    + intros _. destruct (T_ltb x z) eqn:Hxz; [done|]. exfalso.
      apply (ltb_unordered x y Hxy Hyx). intros ->. congruence.
    + destruct (T_ltb z y) eqn:Hzy; [done|]. intros H2.
      destruct (T_ltb x z) eqn:Hxz; [done|].
      destruct (T_ltb z x) eqn:Hzx.
      * exfalso. apply (ltb_unordered x y Hxy Hyx). intros ->. congruence.
      * by apply (IH ys zs).
Qed.

(** When the elements' [operator<] is transitive and orders any two
    distinct elements one way or the other, [operator<] on lists is
    transitive. *)
Theorem list_lt_is_transitive σ l1 l2 l3 ns1 ns2 ns3 :
  is_list σ l1 ns1 → is_list σ l2 ns2 → is_list σ l3 ns3 →
  list_lt T_ltb NDEBUG l1 l2 σ = Ok true σ →
  list_lt T_ltb NDEBUG l2 l3 σ = Ok true σ →
  list_lt T_ltb NDEBUG l1 l3 σ = Ok true σ.
Proof.
  intros (L1 & HL1 & Hseg1 & _) (L2 & HL2 & Hseg2 & _) (L3 & HL3 & Hseg3 & _).
  rewrite (list_lt_run _ _ _ _ _ _ _ HL1 HL2 Hseg1 Hseg2).
  rewrite (list_lt_run _ _ _ _ _ _ _ HL2 HL3 Hseg2 Hseg3).
  rewrite (list_lt_run _ _ _ _ _ _ _ HL1 HL3 Hseg1 Hseg3).
  intros [= H12] [= H23]. by rewrite (lex_lt_trans _ _ _ H12 H23).
Qed.

End TransitiveOrder.

End OrderingProofs.

(** ** The whole interface on a store without garbage *)

Lemma chain_deref_pos σ own other ns_o k v :
  represents σ own → own !! other = Some ns_o → ns_o.*2 !! k = Some v →
  it_deref NDEBUG (Iterator (first_ptr (drop k ns_o))) σ = Ok v σ.
Proof.
  intros Hrep Hother Hk. rewrite list_lookup_fmap in Hk.
  destruct (ns_o !! k) as [n|] eqn:Hn; [|done]. injection Hk as <-.
  rewrite (first_ptr_drop _ _ _ Hn).
  eapply is_list_deref; [by apply (rep_lists _ _ Hrep)|done].
Qed.

Lemma chain_advance_pos σ own other ns_o k :
  represents σ own → own !! other = Some ns_o → (k < length ns_o.*2)%nat →
  it_incr NDEBUG (Iterator (first_ptr (drop k ns_o))) σ
  = Ok (Iterator (first_ptr (drop (S k) ns_o))) σ.
Proof.
  intros Hrep Hother Hk. rewrite length_fmap in Hk.
  destruct (lookup_lt_is_Some_2 ns_o k Hk) as [n Hn].
  destruct (rep_lists _ _ Hrep _ _ Hother) as (L & HL & Hseg & _).
  destruct (lseg_split_at _ _ _ _ _ Hseg Hn) as (r & _ & Hnode & Hrest & _).
  rewrite (first_ptr_drop _ _ _ Hn).
  rewrite (it_incr_run _ _ _ Hnode). simpl.
  by rewrite (lseg_first_null _ _ _ Hrest).
Qed.

Lemma chain_neq_pos (ns_o : list (positive * T)) k :
  (k ≤ length ns_o.*2)%nat →
  it_ne (Iterator (first_ptr (drop k ns_o)))
        (Iterator (first_ptr (drop (length ns_o.*2) ns_o)))
  = bool_decide (k ≠ length ns_o.*2).
Proof.
  intros Hk. rewrite length_fmap in *. rewrite drop_all.
  destruct (decide (k = length ns_o)) as [->|Hneq].
  - rewrite drop_all. by rewrite bool_decide_false by (intros H; by apply H).
  - destruct (lookup_lt_is_Some_2 ns_o k ltac:(lia)) as [n Hn].
    rewrite (first_ptr_drop _ _ _ Hn). by rewrite bool_decide_true.
Qed.

(** A constructor or an assignment that returns had room for its copies. *)
Lemma SingleLinkedList_init_Ok_inv σ own values l σ' :
  represents σ own →
  SingleLinkedList_init NDEBUG values σ = Ok l σ' →
  values ≠ []
  ∧ Z.of_nat (size (nodes σ)) + Z.of_nat (length values) ≤ max_nodes.
Proof.
  intros Hrep Hrun. destruct values as [|v0 values']; [done|].
  split; [done|]. set (values := v0 :: values') in *.
  destruct (new_list_spec _ _ Hrep) as (Hnew & Hfresh & Hrep1).
  set (this := fresh (dom (lists σ))) in *.
  set (σ1 := mkState _ _) in *.
  unfold SingleLinkedList_init in Hrun.
  rewrite (bind_Ok _ _ _ _ _ Hnew) in Hrun.
  destruct (PushListTmp NDEBUG (S (length values)) this
              (mkArrayIt values 0) (mkArrayIt values (length values)) σ1)
    as [[] σ2|e] eqn:Hpush; [|by rewrite (bind_Err _ _ _ _ Hpush) in Hrun].
  change (size (nodes σ)) with (size (nodes σ1)).
  eapply (PushListTmp_capacity values (mkArrayIt values) this []) with
    (own := <[this := []]> own) (this := this) (ns_old := @nil (positive * T));
    [| | |exact Hrep1| | |done|exact Hpush].
  - intros σ0 own0 k v _ _ Hk. simpl. by rewrite Hk.
  - intros σ0 own0 k _ _ Hk. simpl. by rewrite decide_True.
  - done.
  - by rewrite lookup_insert_eq.
  - by rewrite lookup_insert_eq.
Qed.

Lemma SingleLinkedList_copy_Ok_inv σ own other ns_o l σ' :
  represents σ own → own !! other = Some ns_o →
  SingleLinkedList_copy NDEBUG other σ = Ok l σ' →
  Z.of_nat (size (nodes σ)) + Z.of_nat (length ns_o) ≤ max_nodes.
Proof.
  intros Hrep Hother Hrun.
  destruct (decide (ns_o = [])) as [->|Hempty].
  { pose proof (rep_capacity _ _ Hrep). simpl. lia. }
  destruct (new_list_spec _ _ Hrep) as (Hnew & Hfresh & Hrep1).
  set (this := fresh (dom (lists σ))) in *.
  set (σ1 := mkState _ _) in *.
  assert (Hne : other ≠ this).
  { apply not_eq_sym. by eapply lookup_None_Some_ne. }
  assert (Hother1 : <[this := []]> own !! other = Some ns_o).
  { by rewrite lookup_insert_ne. }
  pose proof (rep_lists _ _ Hrep1 _ _ Hother1) as Hlist1.
  unfold SingleLinkedList_copy in Hrun.
  rewrite (bind_Ok _ _ _ _ _ Hnew) in Hrun.
  rewrite (bind_Ok _ _ _ _ _ (IsEmpty_spec _ _ _ Hlist1)) in Hrun.
  rewrite bool_decide_false in Hrun by done.
  erewrite bind_Ok in Hrun by reflexivity.
  rewrite (bind_Ok _ _ _ _ _ (begin_spec _ _ _ Hlist1)) in Hrun.
  rewrite (bind_Ok _ _ _ _ _ (end_spec _ _ _ Hlist1)) in Hrun.
  set (pos := λ k, Iterator (first_ptr (drop k ns_o))).
  assert (Hend : pos (length ns_o.*2) = Iterator nullptr).
  { unfold pos. by rewrite length_fmap, drop_all. }
  change (Iterator (first_ptr ns_o)) with (pos 0%nat) in Hrun.
  rewrite <- Hend in Hrun.
  match type of Hrun with
  | bind ?w _ ?s = _ => destruct (w s) as [[] σ2|e] eqn:Hpush
  end; [|by rewrite (bind_Err _ _ _ _ Hpush) in Hrun].
  rewrite <- (length_fmap snd ns_o).
  change (size (nodes σ)) with (size (nodes σ1)).
  eapply (PushListTmp_capacity (InputIt0 := BasicIterator_InputIt NDEBUG)
            ns_o.*2 pos other ns_o) with
    (own := <[this := []]> own) (this := this) (ns_old := @nil (positive * T));
    [| | |exact Hrep1| |done| |exact Hpush].
  - intros σ0 own0 k v Hrep0 Hother0 Hk. by eapply chain_deref_pos.
  - intros σ0 own0 k Hrep0 Hother0 Hk. by eapply chain_advance_pos.
  - intros k Hk. by apply chain_neq_pos.
  - by rewrite lookup_insert_eq.
  - intros Hnil. apply Hempty. by apply fmap_nil_inv in Hnil.
Qed.

Lemma assign_Ok_inv σ own this rhs ns_t ns_r l σ' :
  represents σ own → own !! this = Some ns_t → own !! rhs = Some ns_r →
  this ≠ rhs → ns_r ≠ [] →
  assign NDEBUG this rhs σ = Ok l σ' →
  Z.of_nat (size (nodes σ)) + Z.of_nat (length ns_r) ≤ max_nodes.
Proof.
  intros Hrep Hthis Hrhs Hdiff Hne Hrun.
  destruct (rep_lists _ _ Hrep _ _ Hthis) as (Lt & HLt & Hseg_t & _).
  destruct (rep_lists _ _ Hrep _ _ Hrhs) as (Lr & HLr & Hseg_r & _).
  unfold assign in Hrun. erewrite bind_Ok in Hrun; cycle 1.
  { apply assert_run. mstep load_next_head. mstep load_next_head.
    rewrite bool_decide_true; [done|].
    rewrite (lseg_first_null _ _ _ Hseg_t), (lseg_first_null _ _ _ Hseg_r).
    destruct ns_r as [|[b w] ns_r']; [done|].
    destruct ns_t as [|[a v] ns_t']; [done|]. simpl. intros [= ->].
    apply (rep_disjoint _ _ Hrep this rhs _ _ Hdiff Hthis Hrhs b); simpl; left. }
  rewrite decide_True in Hrun by done. rewrite !bind_assoc in Hrun.
  destruct (SingleLinkedList_copy NDEBUG rhs σ) as [tmp σ1|e] eqn:Hcopy;
    [|by rewrite (bind_Err _ _ _ _ Hcopy) in Hrun].
  by eapply SingleLinkedList_copy_Ok_inv.
Qed.

(** Assignment from an empty list: the temporary is empty, [swap] returns
    at once, and the temporary is destroyed. *)
Lemma assign_empty_rhs_run σ this rhs Lt :
  lists σ !! this = Some Lt → is_list σ rhs [] → this ≠ rhs →
  assign NDEBUG this rhs σ
  = if NDEBUG || bool_decide (head_next_node Lt ≠ nullptr)
    then Ok this σ else Err AssertionFailed.
Proof.
  intros HLt (Lr & HLr & Hseg & Hsz) Hdiff. simpl in Hseg, Hsz.
  assert (Hfresh : lists σ !! fresh (dom (lists σ)) = None).
  { apply not_elem_of_dom. apply is_fresh. }
  set (tmp := fresh (dom (lists σ))) in *.
  assert (Htmp_rhs : tmp ≠ rhs) by (by eapply lookup_None_Some_ne).
  assert (Htmp_this : tmp ≠ this) by (by eapply lookup_None_Some_ne).
  assert (Hbody :
    (tmp <- SingleLinkedList_copy NDEBUG rhs ;;
     swap this tmp ;;; destroy_list tmp) σ = Ok tt σ).
  { unfold SingleLinkedList_copy. rewrite !bind_assoc.
    erewrite bind_Ok by reflexivity. fold tmp. rewrite !bind_assoc.
    mstep IsEmpty_run. rewrite Hsz. simpl. rewrite bind_ret.
    erewrite bind_Ok by (eapply swap_empty_run; [solve_lookup|done]).
    unfold destroy_list, Clear. rewrite !bind_assoc.
    mstep read_size_run. simpl. rewrite !bind_ret.
    destruct σ as [ls nd]. unfold bind, ret. simpl in *.
    by rewrite delete_insert_id. }
  unfold assign, assert_. rewrite decide_True by done.
  destruct NDEBUG; cbv iota; simpl orb.
  - rewrite bind_ret. by rewrite (bind_Ok _ _ _ _ _ Hbody).
  - rewrite !bind_assoc. mstep load_next_head. rewrite !bind_assoc.
    mstep load_next_head. rewrite bind_ret. rewrite Hseg.
    case_bool_decide; [|done]. rewrite bind_ret.
    by rewrite (bind_Ok _ _ _ _ _ Hbody).
Qed.

Lemma assign_self_run σ l L :
  lists σ !! l = Some L →
  assign NDEBUG l l σ = if NDEBUG then Ok l σ else Err AssertionFailed.
Proof.
  intros HL. unfold assign, assert_. destruct NDEBUG; cbv iota.
  - rewrite bind_ret. rewrite decide_False by (intros H; by apply H).
    by rewrite bind_ret.
  - rewrite !bind_assoc. mstep load_next_head. rewrite !bind_assoc.
    mstep load_next_head.
    rewrite bind_ret. by rewrite bool_decide_false by (intros H; by apply H).
Qed.

Lemma covers_empty : covers (mkState (T := T) ∅ ∅) ∅.
Proof. intros a Ha. simpl in Ha. set_solver. Qed.

Lemma run_op_covers σ own o σ' :
  represents σ own → covers σ own → precondition σ o →
  run_op NDEBUG o σ = Ok tt σ' →
  ∃ own', represents σ' own' ∧ covers σ' own'.
Proof.
  intros Hrep Hcov Hpre Hrun.
  destruct o as [|l v|l pos v|l|l pos|l|l1 l2]; simpl in Hrun, Hpre.
  - destruct (new_list_spec _ _ Hrep) as (Hnew & Hfresh & Hrep').
    rewrite (bind_Ok _ _ _ _ _ Hnew) in Hrun. injection Hrun as <-.
    eexists. split; [exact Hrep'|].
    eapply covers_fresh; [done|done|]. simpl. set_solver.
  - destruct (PushFront_Ok_inv _ _ _ _ Hrun) as [Hlive Hcap].
    destruct (represents_live _ _ _ Hrep Hlive) as [ns Hl].
    destruct (PushFront_spec _ _ _ _ v Hrep Hl Hcap)
      as (σ1 & Hrun1 & _ & _ & Hrep1).
    pose proof (PushFront_footprint _ _ _ _ _ _ Hrep Hl Hrun1) as Hdom.
    rewrite Hrun1 in Hrun. injection Hrun as <-.
    eexists. split; [exact Hrep1|].
    eapply covers_update; [done|done|]. rewrite Hdom. simpl.
    intros x Hx. destruct (decide (x ∈ ns.*1)); set_solver.
  - destruct Hpre as (ns & i & Hlist & Hcur).
    pose proof (represents_is_list _ _ _ _ Hrep Hlist) as Hl.
    destruct (InsertAfter NDEBUG l pos v σ) as [it σ1|e] eqn:Hins;
      [|by rewrite (bind_Err _ _ _ _ Hins) in Hrun].
    pose proof (InsertAfter_Ok_inv _ _ _ _ _ _ _ _ _ Hrep Hl Hcur Hins) as Hcap.
    destruct (InsertAfter_spec _ _ _ _ _ _ v Hrep Hl Hcur Hcap)
      as (σ2 & Hrun2 & _ & _ & Hrep2).
    pose proof (InsertAfter_footprint _ _ _ _ _ _ _ _ _ Hrep Hl Hcur Hins)
      as Hdom.
    rewrite (bind_Ok _ _ _ _ _ Hins) in Hrun. injection Hrun as <-.
    rewrite Hins in Hrun2. injection Hrun2 as _ <-.
    eexists. split; [exact Hrep2|].
    eapply covers_update; [done|done|]. rewrite Hdom.
    rewrite fmap_app, fmap_cons. simpl.
    intros x Hx. destruct (decide (x ∈ ns.*1)) as [Hin|Hout]; [|set_solver].
    rewrite <- (take_drop i ns), fmap_app in Hin. set_solver.
  - pose proof (PopFront_Ok_inv _ _ _ Hrun) as Hlive.
    destruct (represents_live _ _ _ Hrep Hlive) as [ns Hl].
    destruct (PopFront_spec _ _ _ _ Hrep Hl) as (σ1 & Hrun1 & Hrep1 & _).
    pose proof (PopFront_footprint _ _ _ _ _ Hrep Hl Hrun1) as Hdom.
    rewrite Hrun1 in Hrun. injection Hrun as <-.
    eexists. split; [exact Hrep1|].
    eapply covers_update; [done|done|]. rewrite Hdom.
    intros x Hx. destruct (decide (x ∈ ns.*1)) as [Hin|Hout]; [|set_solver].
    destruct ns as [|n ns']; simpl in *; set_solver.
  - destruct Hpre as (ns & Hlist & Hcur).
    pose proof (represents_is_list _ _ _ _ Hrep Hlist) as Hl.
    destruct Hlist as (L & HL & Hseg & Hsz).
    destruct ns as [|n ns'].
    { rewrite (bind_Ok _ _ _ _ _ (EraseAfter_empty _ _ _ pos HL Hsz)) in Hrun.
      injection Hrun as <-. eauto. }
    destruct Hcur as [?|[i Hcur]]; [done|].
    destruct (decide (i < length (n :: ns'))%nat) as [Hi|Hi].
    + destruct (EraseAfter_spec _ _ _ _ _ _ Hrep Hl Hcur Hi)
        as (σ1 & Hrun1 & Hrep1 & _).
      destruct (EraseAfter_footprint _ _ _ _ i pos _ _ Hrep Hl
                  (or_intror Hcur) Hrun1) as [Hdom _].
      rewrite (bind_Ok _ _ _ _ _ Hrun1) in Hrun. injection Hrun as <-.
      eexists. split; [exact Hrep1|].
      eapply covers_update; [done|done|]. rewrite Hdom.
      set (ns := n :: ns') in *.
      intros x Hx. destruct (decide (x ∈ ns.*1)) as [Hin|Hout]; [|set_solver].
      assert (Hsplit : ns = take i ns ++ take 1 (drop i ns) ++ drop (S i) ns).
      { rewrite <- (take_drop i ns) at 1. f_equal.
        rewrite <- (take_drop 1 (drop i ns)) at 1. f_equal.
        rewrite drop_drop. f_equal. lia. }
      rewrite Hsplit, !fmap_app in Hin. rewrite fmap_app. set_solver.
    + assert (i = length (n :: ns')) as ->.
      { destruct i as [|j]; [simpl in Hi; lia|].
        destruct Hcur as (n' & Hj & _). apply lookup_lt_Some in Hj. lia. }
      pose proof (EraseAfter_last _ _ _ _ _ Hrep Hl ltac:(done) Hcur) as He.
      by rewrite (bind_Err _ _ _ _ He) in Hrun.
  - pose proof (Clear_Ok_inv _ _ _ Hrun) as Hlive.
    destruct (represents_live _ _ _ Hrep Hlive) as [ns Hl].
    destruct (Clear_spec _ _ _ _ Hrep Hl) as (σ1 & Hrun1 & Hrep1).
    pose proof (Clear_footprint _ _ _ _ _ Hrep Hl Hrun1) as Hdom.
    rewrite Hrun1 in Hrun. injection Hrun as <-.
    eexists. split; [exact Hrep1|].
    eapply covers_update; [done|done|]. rewrite Hdom. set_solver.
  - unfold swap_free in Hrun.
    destruct (swap_Ok_inv _ _ _ _ Hrun) as (L2 & HL2 & Hcase).
    destruct (represents_live _ _ l2 Hrep) as [ns2 Hl2]; [by eauto|].
    destruct (represents_lookup _ _ _ _ Hrep Hl2) as (L2' & HL2' & _ & Hsz2).
    assert (L2' = L2) as -> by congruence.
    destruct Hcase as [Hz|Hlive].
    + rewrite (swap_empty_run _ _ _ _ HL2 Hz) in Hrun.
      injection Hrun as <-. eauto.
    + destruct (represents_live _ _ _ Hrep Hlive) as [ns1 Hl1].
      destruct ns2 as [|n ns2'].
      * rewrite (swap_empty_run _ _ _ _ HL2 Hsz2) in Hrun.
        injection Hrun as <-. eauto.
      * destruct (swap_spec _ _ _ _ _ _ Hrep Hl1 Hl2 ltac:(done))
          as (σ1 & Hrun1 & Hnodes & Hrep1).
        rewrite Hrun1 in Hrun. injection Hrun as <-.
        eexists. split; [exact Hrep1|]. by eapply covers_exchange.
Qed.

Lemma run_call_covers σ own c σ' :
  represents σ own → covers σ own → call_precondition σ c →
  run_call NDEBUG c σ = Ok tt σ' →
  ∃ own', represents σ' own' ∧ covers σ' own'.
Proof.
  intros Hrep Hcov Hpre Hrun.
  destruct c as [values|other|l|this rhs|o]; simpl in Hrun, Hpre.
  - destruct (SingleLinkedList_init NDEBUG values σ) as [l σ1|e] eqn:Hinit;
      [|by rewrite (bind_Err _ _ _ _ Hinit) in Hrun].
    rewrite (bind_Ok _ _ _ _ _ Hinit) in Hrun. injection Hrun as <-.
    destruct (SingleLinkedList_init_Ok_inv _ _ _ _ _ Hrep Hinit) as [Hne Hcap].
    destruct (SingleLinkedList_init_spec _ _ _ Hrep Hne Hcap)
      as (σ2 & c & Hrun2 & Hfresh & _ & Hrep2 & Hdom).
    rewrite Hinit in Hrun2. injection Hrun2 as _ <-.
    eexists. split; [exact Hrep2|]. by eapply covers_fresh.
  - destruct (represents_live _ _ _ Hrep Hpre) as [ns_o Hother].
    destruct (SingleLinkedList_copy NDEBUG other σ) as [l σ1|e] eqn:Hcopy;
      [|by rewrite (bind_Err _ _ _ _ Hcopy) in Hrun].
    rewrite (bind_Ok _ _ _ _ _ Hcopy) in Hrun. injection Hrun as <-.
    pose proof (SingleLinkedList_copy_Ok_inv _ _ _ _ _ _ Hrep Hother Hcopy)
      as Hcap.
    destruct (SingleLinkedList_copy_spec _ _ _ _ Hrep Hother Hcap)
      as (σ2 & c & Hrun2 & Hfresh & _ & Hrep2 & Hdom).
    rewrite Hcopy in Hrun2. injection Hrun2 as _ <-.
    eexists. split; [exact Hrep2|]. by eapply covers_fresh.
  - destruct (represents_live _ _ _ Hrep Hpre) as [ns Hl].
    destruct (destroy_list_spec _ _ _ _ Hrep Hl) as (σ1 & Hrun1 & Hrep1 & Hdom).
    rewrite Hrun1 in Hrun. injection Hrun as <-.
    eexists. split; [exact Hrep1|].
    eapply covers_delete; [done|done|]. by rewrite Hdom.
  - destruct Hpre as [Hthis Hrhs].
    destruct (represents_live _ _ _ Hrep Hthis) as [ns_t Ht].
    destruct (represents_live _ _ _ Hrep Hrhs) as [ns_r Hr].
    destruct (assign NDEBUG this rhs σ) as [l σ1|e] eqn:Hassign;
      [|by rewrite (bind_Err _ _ _ _ Hassign) in Hrun].
    rewrite (bind_Ok _ _ _ _ _ Hassign) in Hrun. injection Hrun as <-.
    destruct (decide (this = rhs)) as [->|Hdiff].
    { destruct Hrhs as [L HL]. rewrite (assign_self_run _ _ _ HL) in Hassign.
      destruct NDEBUG; [|done]. injection Hassign as _ <-. eauto. }
    destruct (decide (ns_r = [])) as [->|Hne].
    { destruct Hthis as [Lt HLt].
      rewrite (assign_empty_rhs_run _ _ _ _ HLt
                 (rep_lists _ _ Hrep _ _ Hr) Hdiff) in Hassign.
      destruct (_ || _); [|done]. injection Hassign as _ <-. eauto. }
    pose proof (assign_Ok_inv _ _ _ _ _ _ _ _ Hrep Ht Hr Hdiff Hne Hassign)
      as Hcap.
    destruct (assign_spec _ _ _ _ _ _ Hrep Ht Hr Hdiff Hne Hcap)
      as (σ2 & c & Hrun2 & _ & Hrep2 & Hdom).
    rewrite Hassign in Hrun2. injection Hrun2 as _ <-.
    eexists. split; [exact Hrep2|]. by eapply covers_update.
  - by eapply run_op_covers.
Qed.

Lemma reachable_api_covers σ :
  reachable_api NDEBUG σ → ∃ own, represents σ own ∧ covers σ own.
Proof.
  induction 1 as [|σ c σ' _ (own & Hrep & Hcov) Hpre Hrun].
  - exists ∅. split; [apply represents_empty|apply covers_empty].
  - by eapply run_call_covers.
Qed.

Lemma run_calls_reachable cs : ∀ σ σ',
  reachable_api NDEBUG σ → run_calls NDEBUG cs σ = Some σ' →
  reachable_api NDEBUG σ'.
Proof.
  induction cs as [|c cs IH]; intros σ σ' Hreach Hrun; simpl in Hrun.
  - by injection Hrun as <-.
  - destruct (call_checked σ c) eqn:Hc; [|done].
    destruct (run_call NDEBUG c σ) as [[] σ1|e] eqn:Hstep; [|done].
    apply (IH σ1 σ'); [|done].
    eapply reachable_api_step; [done| |done].
    destruct c as [values|other|l|this rhs|o]; simpl in *.
    + done.
    + by apply bool_decide_eq_true in Hc.
    + by apply bool_decide_eq_true in Hc.
    + apply andb_true_iff in Hc as [H1 H2].
      by apply bool_decide_eq_true in H1, H2.
    + by destruct o.
Qed.

(** After any sequence of constructions, copies, assignments, destructions
    and list operations that meet their preconditions and return, every
    live list is a null-terminated chain whose counter is its length, no two
    lists share a node, and every allocated node lies on the chain of a live
    list: nothing has leaked. *)
Theorem interface_keeps_every_node_owned σ :
  reachable_api NDEBUG σ → wf σ ∧ no_garbage σ.
Proof.
  intros Hreach.
  destruct (reachable_api_covers _ Hreach) as (own & Hrep & Hcov).
  split; [by exists own|]. by eapply covers_no_garbage.
Qed.

(** Once every list has been destroyed the free store is empty. *)
Theorem destroying_every_list_frees_every_node σ :
  reachable_api NDEBUG σ → lists σ = ∅ → nodes σ = ∅.
Proof.
  intros Hreach Hempty.
  destruct (reachable_api_covers _ Hreach) as (own & Hrep & Hcov).
  apply map_empty. intros a. apply eq_None_not_Some. intros Ha.
  destruct (Hcov a) as (l & ns & Hl & _); [by apply elem_of_dom|].
  destruct (rep_lists _ _ Hrep _ _ Hl) as (L & HL & _).
  by rewrite Hempty, lookup_empty in HL.
Qed.

(** Copy assignment between two distinct empty lists: both sentinels hold
    the null pointer, so the assertion at the top of [operator=] fails in
    a build with assertions; with NDEBUG the call changes nothing. *)
Theorem assign_of_empty_to_empty σ this rhs :
  is_list σ this [] → is_list σ rhs [] → this ≠ rhs →
  assign NDEBUG this rhs σ
  = if NDEBUG then Ok this σ else Err AssertionFailed.
Proof.
  intros (Lt & HLt & Hseg & _) Hrhs Hdiff. simpl in Hseg.
  rewrite (assign_empty_rhs_run _ _ _ _ HLt Hrhs Hdiff), Hseg.
  rewrite bool_decide_false by (intros H; by apply H).
  by destruct NDEBUG.
Qed.

End Proofs.

(** * The claims on the sample store *)

Lemma store_ab_reachable : reachable false store_ab.
Proof.
  apply (run_ops_reachable false build_ab (mkState ∅ ∅)).
  - constructor.
  - reflexivity.
  - vm_compute. reflexivity.
Qed.

Lemma store_ab_wf : wf store_ab.
Proof. exact (reachable_wf false _ store_ab_reachable). Qed.

Lemma store_ab_first : is_list store_ab 1 chain_ab.
Proof.
  exists (mkList (node_at 2) 2). split_and!; [by vm_compute| |done].
  simpl. split; [done|]. exists (node_at 1). split; [by vm_compute|].
  split; [done|]. exists nullptr. split; [by vm_compute|done].
Qed.

Lemma store_ab_second : is_list store_ab 2 [].
Proof. exists (mkList nullptr 0). split_and!; [by vm_compute|done|done]. Qed.

Lemma store_ab_capacity : Z.of_nat (size (nodes store_ab)) < max_nodes.
Proof. by vm_compute. Qed.

Lemma size_counts_iterated_elements_witness :
  ∃ vs n e b_it e_it,
    iterate false 1 store_ab = Ok vs store_ab
    ∧ GetSize 1 store_ab = Ok n store_ab
    ∧ IsEmpty 1 store_ab = Ok e store_ab
    ∧ begin_ 1 store_ab = Ok b_it store_ab
    ∧ end_ 1 store_ab = Ok e_it store_ab
    ∧ n = Z.of_nat (length vs)
    ∧ (e = true ↔ n = 0)
    ∧ (n = 0 ↔ it_eq b_it e_it = true).
Proof.
  apply (size_counts_iterated_elements false store_ab 1).
  - exact store_ab_reachable.
  - exists (mkList (node_at 2) 2). vm_compute. reflexivity.
Defined.

Lemma InsertAfter_links_new_node_witness :
  ∃ a σ',
    InsertAfter false 1 (Iterator (node_at 2)) 15 store_ab
      = Ok (Iterator (node_at a)) σ'
    ∧ nodes store_ab !! a = None
    ∧ wf σ'
    ∧ is_list σ' 1 (take 1 chain_ab ++ (a, 15) :: drop 1 chain_ab)
    ∧ iterate false 1 σ' = Ok [10; 15; 20] σ'
    ∧ GetSize 1 σ' = Ok 3 σ'
    ∧ it_deref false (Iterator (node_at a)) σ' = Ok 15 σ'
    ∧ (∀ l' ns', l' ≠ 1%positive → is_list store_ab l' ns' → is_list σ' l' ns').
Proof.
  apply (InsertAfter_links_new_node false store_ab 1 chain_ab 1
           (Iterator (node_at 2)) 15).
  - exact store_ab_wf.
  - exact store_ab_first.
  - exists (2%positive, 10). split; reflexivity.
  - exact store_ab_capacity.
Defined.

Lemma EraseAfter_unlinks_successor_witness :
  (chain_ab = [] →
     EraseAfter false 1 (Iterator (head_of 1)) store_ab
       = Ok (Iterator nullptr) store_ab)
  ∧ (∀ i, cursor_at 1 chain_ab i (Iterator (head_of 1)) →
       (i < length chain_ab)%nat →
       ∃ σ',
         EraseAfter false 1 (Iterator (head_of 1)) store_ab
           = Ok (Iterator (first_ptr (drop (S i) chain_ab))) σ'
         ∧ wf σ'
         ∧ is_list σ' 1 (take i chain_ab ++ drop (S i) chain_ab)
         ∧ iterate false 1 σ'
             = Ok (take i chain_ab.*2 ++ drop (S i) chain_ab.*2) σ'
         ∧ GetSize 1 σ' = Ok (Z.of_nat (length chain_ab) - 1) σ'
         ∧ (∀ n, chain_ab !! i = Some n → nodes σ' !! n.1 = None)
         ∧ (∀ l' ns', l' ≠ 1%positive →
              is_list store_ab l' ns' → is_list σ' l' ns')).
Proof.
  apply (EraseAfter_unlinks_successor false store_ab 1 chain_ab
           (Iterator (head_of 1))).
  - exact store_ab_wf.
  - exact store_ab_first.
Defined.

Lemma PopFront_drops_first_element_witness :
  ∃ σ',
    PopFront 1 store_ab = Ok tt σ'
    ∧ wf σ'
    ∧ is_list σ' 1 (tail chain_ab)
    ∧ iterate false 1 σ' = Ok [20] σ'
    ∧ GetSize 1 σ' = Ok 1 σ'
    ∧ (chain_ab = [] → σ' = store_ab)
    ∧ (∀ l' ns', l' ≠ 1%positive → is_list store_ab l' ns' → is_list σ' l' ns').
Proof.
  apply (PopFront_drops_first_element false store_ab 1 chain_ab).
  - exact store_ab_wf.
  - exact store_ab_first.
Defined.

Lemma store_cmp_reachable : reachable false store_cmp.
Proof.
  apply (run_ops_reachable false build_cmp (mkState ∅ ∅)).
  - constructor.
  - reflexivity.
  - vm_compute. reflexivity.
Qed.

Lemma store_cmp_chain_1 :
  lseg (nodes store_cmp) (node_at 2) nullptr chain_1.
Proof.
  simpl. split; [done|]. exists (node_at 1). split; [by vm_compute|].
  split; [done|]. exists nullptr. split; [by vm_compute|done].
Qed.

Lemma store_cmp_chain_2 :
  lseg (nodes store_cmp) (node_at 4) nullptr chain_2.
Proof.
  simpl. split; [done|]. exists (node_at 3). split; [by vm_compute|].
  split; [done|]. exists nullptr. split; [by vm_compute|done].
Qed.

Lemma store_cmp_chain_3 :
  lseg (nodes store_cmp) (node_at 6) nullptr chain_3.
Proof.
  simpl. split; [done|]. exists (node_at 5). split; [by vm_compute|].
  split; [done|]. exists nullptr. split; [by vm_compute|done].
Qed.

Lemma store_cmp_chain_4 :
  lseg (nodes store_cmp) (node_at 7) nullptr chain_4.
Proof. simpl. split; [done|]. exists nullptr. split; [by vm_compute|done]. Qed.

Lemma store_cmp_first : is_list store_cmp 1 chain_1.
Proof.
  exists (mkList (node_at 2) 2).
  split_and!; [by vm_compute|exact store_cmp_chain_1|done].
Qed.

Lemma store_cmp_second : is_list store_cmp 2 chain_2.
Proof.
  exists (mkList (node_at 4) 2).
  split_and!; [by vm_compute|exact store_cmp_chain_2|done].
Qed.

Lemma store_cmp_third : is_list store_cmp 3 chain_3.
Proof.
  exists (mkList (node_at 6) 2).
  split_and!; [by vm_compute|exact store_cmp_chain_3|done].
Qed.

Lemma store_cmp_fourth : is_list store_cmp 4 chain_4.
Proof.
  exists (mkList (node_at 7) 1).
  split_and!; [by vm_compute|exact store_cmp_chain_4|done].
Qed.

(** On [store_cmp]: list [1] against itself (the same first node), against
    list [2] (equal values in other nodes, so [std::equal] walks both
    chains to the end) and against list [3] (equal sizes, a difference at
    index 1). *)
Lemma list_eq_decides_equality_witness :
  list_eq Z.eqb false 1 1 store_cmp = Ok true store_cmp
  ∧ (list_eq Z.eqb false 1 2 store_cmp
       = Ok ((2 =? 2) && equal_values Z.eqb [10; 20] [10; 20]) store_cmp
     ∧ (equal_values Z.eqb [10; 20] [10; 20] = true
        ↔ Forall2 (λ x y, Z.eqb x y = true) [10; 20] [10; 20]))
  ∧ (∃ b, list_eq Z.eqb false 1 2 store_cmp = Ok b store_cmp
          ∧ (b = true ↔
               2 = 2
               ∧ ∀ i x y, [10; 20] !! i = Some x → [10; 20] !! i = Some y →
                          Z.eqb x y = true))
  ∧ (list_eq Z.eqb false 1 3 store_cmp
       = Ok ((2 =? 2) && equal_values Z.eqb [10; 20] [10; 30]) store_cmp
     ∧ (equal_values Z.eqb [10; 20] [10; 30] = true
        ↔ Forall2 (λ x y, Z.eqb x y = true) [10; 20] [10; 30]))
  ∧ (∃ b, list_eq Z.eqb false 1 3 store_cmp = Ok b store_cmp
          ∧ (b = true ↔
               2 = 2
               ∧ ∀ i x y, [10; 20] !! i = Some x → [10; 30] !! i = Some y →
                          Z.eqb x y = true))
  ∧ list_ne Z.eqb false 1 3 store_cmp
      = match list_eq Z.eqb false 1 3 store_cmp with
        | Ok b σ' => Ok (negb b) σ'
        | Err e => Err e
        end.
Proof.
  assert (H1 : lists store_cmp !! 1%positive = Some (mkList (node_at 2) 2)).
  { vm_compute. reflexivity. }
  assert (H2 : lists store_cmp !! 2%positive = Some (mkList (node_at 4) 2)).
  { vm_compute. reflexivity. }
  assert (H3 : lists store_cmp !! 3%positive = Some (mkList (node_at 6) 2)).
  { vm_compute. reflexivity. }
  destruct (list_eq_decides_equality Z.eqb false store_cmp 1 1 _ _ H1 H1)
    as (Hsame & _).
  destruct (list_eq_decides_equality Z.eqb false store_cmp 1 2 _ _ H1 H2)
    as (_ & Hwalk12 & Hlist12 & _).
  destruct (list_eq_decides_equality Z.eqb false store_cmp 1 3 _ _ H1 H3)
    as (_ & Hwalk13 & Hlist13 & Hne13).
  pose proof (Hwalk12 chain_1 chain_2 ltac:(discriminate)
                store_cmp_chain_1 store_cmp_chain_2) as Hw12.
  pose proof (Hlist12 chain_1 chain_2 ltac:(discriminate)
                store_cmp_first store_cmp_second) as Hl12.
  pose proof (Hwalk13 chain_1 chain_3 ltac:(discriminate)
                store_cmp_chain_1 store_cmp_chain_3) as Hw13.
  pose proof (Hlist13 chain_1 chain_3 ltac:(discriminate)
                store_cmp_first store_cmp_third) as Hl13.
  exact (conj (Hsame eq_refl)
           (conj Hw12 (conj Hl12 (conj Hw13 (conj Hl13 Hne13))))).
Defined.

Lemma SetSize_overwrites_counter_only_witness :
  ∃ σ',
    SetSize 1 7 store_ab = Ok tt σ'
    ∧ nodes σ' = nodes store_ab
    ∧ begin_ 1 σ' = Ok (Iterator (node_at 2)) σ'
    ∧ iterate false 1 σ' = Ok [10; 20] σ'
    ∧ GetSize 1 σ' = Ok 7 σ'
    ∧ (7 ≠ Z.of_nat (length chain_ab) → ¬ wf σ').
Proof.
  apply (proj1 (SetSize_overwrites_counter_only false) store_ab 1%positive
           chain_ab 7).
  exact store_ab_first.
Defined.

Lemma swap_with_empty_argument_changes_nothing_witness :
  swap_free 1 2 store_ab = Ok tt store_ab
  ∧ iterate false 1 store_ab = Ok [10; 20] store_ab
  ∧ iterate false 2 store_ab = Ok [] store_ab.
Proof.
  apply (swap_with_empty_argument_changes_nothing false store_ab 1 2 chain_ab).
  - exact store_ab_first.
  - exact store_ab_second.
Defined.

Lemma assign_from_empty_keeps_old_contents_witness :
  assign false 1 2 store_ab = Ok 1%positive store_ab
  ∧ iterate false 1 store_ab = Ok [10; 20] store_ab
  ∧ iterate false 2 store_ab = Ok [] store_ab.
Proof.
  apply (assign_from_empty_keeps_old_contents false store_ab 1 2 chain_ab).
  - exact store_ab_first.
  - discriminate.
  - exact store_ab_second.
Defined.

Lemma self_assignment_trips_assertion_witness :
  assign false 1 1 store_ab = Err AssertionFailed.
Proof.
  apply (self_assignment_trips_assertion false store_ab 1
           (mkList (node_at 2) 2)).
  vm_compute. reflexivity.
Defined.

(** * Beyond the claims, on the sample stores *)

Lemma store_abc_reachable : reachable false store_abc.
Proof.
  apply (run_ops_reachable false build_abc (mkState ∅ ∅)).
  - constructor.
  - reflexivity.
  - vm_compute. reflexivity.
Qed.

Lemma store_abc_wf : wf store_abc.
Proof. exact (reachable_wf false _ store_abc_reachable). Qed.

Lemma store_abc_first : is_list store_abc 1 chain_ab.
Proof.
  exists (mkList (node_at 2) 2). split_and!; [by vm_compute| |done].
  simpl. split; [done|]. exists (node_at 1). split; [by vm_compute|].
  split; [done|]. exists nullptr. split; [by vm_compute|done].
Qed.

Lemma store_abc_third : is_list store_abc 3 chain_c.
Proof.
  exists (mkList (node_at 3) 1). split_and!; [by vm_compute| |done].
  simpl. split; [done|]. exists nullptr. split; [by vm_compute|done].
Qed.

Lemma Z_ltb_asym (x y : Z) : (x <? y) = true → (y <? x) = false.
Proof. intros H. apply Z.ltb_lt in H. apply Z.ltb_ge. lia. Qed.

Lemma Z_ltb_total (x y : Z) : x ≠ y → (x <? y) = true ∨ (y <? x) = true.
Proof. intros H. rewrite !Z.ltb_lt. lia. Qed.

Lemma Z_ltb_trans (x y z : Z) :
  (x <? y) = true → (y <? z) = true → (x <? z) = true.
Proof. rewrite !Z.ltb_lt. lia. Qed.

Lemma store_after_reachable (cs : list (call Z)) (σ : state Z) :
  run_calls false cs (mkState ∅ ∅) = Some σ → reachable_api false σ.
Proof.
  intros H. apply (run_calls_reachable false cs (mkState ∅ ∅)); [|done].
  constructor.
Qed.

Lemma init_builds_sequence_witness :
  ∃ l σ',
    SingleLinkedList_init false [1; 2; 3] store_ab = Ok l σ'
    ∧ lists store_ab !! l = None
    ∧ wf σ'
    ∧ iterate false l σ' = Ok [1; 2; 3] σ'
    ∧ GetSize l σ' = Ok 3 σ'
    ∧ (∀ l' ns', is_list store_ab l' ns' → is_list σ' l' ns').
Proof.
  apply (init_builds_sequence Z.eqb false store_ab [1; 2; 3]).
  - exact store_ab_wf.
  - discriminate.
  - vm_compute. discriminate.
Defined.

Lemma copy_builds_equal_list_witness :
  ∃ l σ' c,
    SingleLinkedList_copy false 1 store_ab = Ok l σ'
    ∧ lists store_ab !! l = None
    ∧ wf σ'
    ∧ is_list σ' l c ∧ c.*2 = [10; 20] ∧ c.*1 ## chain_ab.*1
    ∧ iterate false l σ' = Ok [10; 20] σ'
    ∧ GetSize l σ' = Ok 2 σ'
    ∧ (∀ l' ns', is_list store_ab l' ns' → is_list σ' l' ns').
Proof.
  apply (copy_builds_equal_list Z.eqb false store_ab 1 chain_ab).
  - exact store_ab_wf.
  - exact store_ab_first.
  - vm_compute. discriminate.
Defined.

Lemma assign_copies_nonempty_witness :
  ∃ σ',
    assign false 2 1 store_ab = Ok 2%positive σ'
    ∧ wf σ'
    ∧ iterate false 2 σ' = Ok [10; 20] σ'
    ∧ GetSize 2 σ' = Ok 2 σ'
    ∧ (∀ l' ns', l' ≠ 2%positive → is_list store_ab l' ns' → is_list σ' l' ns').
Proof.
  apply (assign_copies_nonempty Z.eqb false store_ab 2 1 [] chain_ab).
  - exact store_ab_wf.
  - exact store_ab_second.
  - exact store_ab_first.
  - discriminate.
  - discriminate.
  - vm_compute. discriminate.
Defined.

Lemma swap_exchanges_nonempty_witness :
  ∃ σ',
    swap_free 2 1 store_ab = Ok tt σ'
    ∧ wf σ'
    ∧ is_list σ' 2 chain_ab
    ∧ is_list σ' 1 []
    ∧ nodes σ' = nodes store_ab
    ∧ (∀ l' ns', l' ≠ 2%positive → l' ≠ 1%positive →
         is_list store_ab l' ns' → is_list σ' l' ns').
Proof.
  apply (swap_exchanges_nonempty store_ab 2 1 [] chain_ab).
  - exact store_ab_wf.
  - exact store_ab_second.
  - exact store_ab_first.
  - discriminate.
Defined.

Lemma swap_twice_restores_nonempty_witness :
  ∃ σ' σ'',
    swap_free 1 3 store_abc = Ok tt σ'
    ∧ swap_free 1 3 σ' = Ok tt σ''
    ∧ wf σ'' ∧ is_list σ'' 1 chain_ab ∧ is_list σ'' 3 chain_c.
Proof.
  apply (swap_twice_restores_nonempty store_abc 1 3 chain_ab chain_c).
  - exact store_abc_wf.
  - exact store_abc_first.
  - exact store_abc_third.
  - discriminate.
  - discriminate.
Defined.

Lemma PopFront_is_EraseAfter_before_begin_witness :
  PopFront 1 store_ab
  = (p <- before_begin 1 ;; EraseAfter false 1 p ;;; ret tt) store_ab.
Proof.
  apply (PopFront_is_EraseAfter_before_begin false store_ab 1 chain_ab).
  exact store_ab_first.
Defined.

Lemma PushFront_prepends_witness :
  ∃ a σ',
    PushFront 1 5 store_ab = Ok tt σ'
    ∧ nodes store_ab !! a = None
    ∧ wf σ'
    ∧ is_list σ' 1 ((a, 5) :: chain_ab)
    ∧ iterate false 1 σ' = Ok [5; 10; 20] σ'
    ∧ GetSize 1 σ' = Ok 3 σ'
    ∧ begin_ 1 σ' = Ok (Iterator (node_at a)) σ'
    ∧ (∀ b n, nodes store_ab !! b = Some n → nodes σ' !! b = Some n)
    ∧ (∀ l' ns', l' ≠ 1%positive → is_list store_ab l' ns' → is_list σ' l' ns').
Proof.
  apply (PushFront_prepends false store_ab 1 chain_ab 5).
  - exact store_ab_wf.
  - exact store_ab_first.
  - exact store_ab_capacity.
Defined.

Lemma Clear_empties_and_frees_witness :
  ∃ σ',
    Clear 1 store_ab = Ok tt σ'
    ∧ wf σ'
    ∧ is_list σ' 1 []
    ∧ IsEmpty 1 σ' = Ok true σ'
    ∧ (∀ a, a ∈ chain_ab.*1 → nodes σ' !! a = None)
    ∧ (∀ a, a ∉ chain_ab.*1 → nodes σ' !! a = nodes store_ab !! a)
    ∧ (chain_ab = [] → σ' = store_ab)
    ∧ (∀ l' ns', l' ≠ 1%positive → is_list store_ab l' ns' → is_list σ' l' ns').
Proof.
  apply (Clear_empties_and_frees store_ab 1 chain_ab).
  - exact store_ab_wf.
  - exact store_ab_first.
Defined.

Lemma iterator_steps_along_list_witness :
  it_incr false (Iterator (node_at 2)) store_ab
    = Ok (Iterator (node_at 1)) store_ab
  ∧ (it_eq (Iterator (node_at 1)) (Iterator nullptr) = true
     ↔ 1%nat = length chain_ab)
  ∧ (∀ n, chain_ab !! 1%nat = Some n →
       cursor_at 1 chain_ab 2 (Iterator (node_at 1))
       ∧ it_deref false (Iterator (node_at 1)) store_ab = Ok n.2 store_ab)
  ∧ it_incr false (Iterator nullptr) store_ab = Err AssertionFailed
  ∧ it_deref false (Iterator nullptr) store_ab = Err AssertionFailed.
Proof.
  apply (iterator_steps_along_list false store_ab 1 chain_ab 1
           (Iterator (node_at 2))).
  - exact store_ab_first.
  - exists (2%positive, 10). split; reflexivity.
Defined.

Lemma EraseAfter_at_last_position_fails_witness :
  EraseAfter false 1 (Iterator (node_at 1)) store_ab = Err AssertionFailed.
Proof.
  apply (EraseAfter_at_last_position_fails false store_ab 1 chain_ab
           (Iterator (node_at 1))).
  - exact store_ab_wf.
  - exact store_ab_first.
  - discriminate.
  - exists (1%positive, 20). split; reflexivity.
Defined.

Lemma InsertAfter_foreign_cursor_miscounts_witness :
  ∃ it σ',
    InsertAfter false 1 (Iterator (head_of 2)) 7 store_ab = Ok it σ'
    ∧ iterate false 1 σ' = Ok [10; 20] σ'
    ∧ GetSize 1 σ' = Ok 3 σ'
    ∧ iterate false 2 σ' = Ok [7] σ'
    ∧ GetSize 2 σ' = Ok 0 σ'
    ∧ ¬ wf σ'.
Proof.
  apply (InsertAfter_foreign_cursor_miscounts false store_ab 1 2 chain_ab []
           0 (Iterator (head_of 2)) 7).
  - exact store_ab_wf.
  - exact store_ab_first.
  - exact store_ab_second.
  - discriminate.
  - reflexivity.
  - exact store_ab_capacity.
Defined.

Lemma InitHead_fits_empty_lists_only_witness :
  (chain_ab = [] → InitHead 1 7 store_ab = PushFront 1 7 store_ab)
  ∧ (chain_ab ≠ [] →
       ∃ σ',
         InitHead 1 7 store_ab = Ok tt σ'
         ∧ iterate false 1 σ' = Ok [7] σ'
         ∧ GetSize 1 σ' = Ok 3 σ'
         ∧ (∀ b n, nodes store_ab !! b = Some n → nodes σ' !! b = Some n)
         ∧ ¬ wf σ').
Proof.
  apply (InitHead_fits_empty_lists_only false store_ab 1 chain_ab 7).
  - exact store_ab_first.
  - exact store_ab_capacity.
Defined.

Lemma assign_of_empty_to_empty_witness :
  assign false 3 4 (store_after [CallOp OpNew; CallOp OpNew;
                                 CallOp OpNew; CallOp OpNew])
  = Err AssertionFailed.
Proof.
  apply (assign_of_empty_to_empty false
           (store_after [CallOp OpNew; CallOp OpNew;
                         CallOp OpNew; CallOp OpNew]) 3 4).
  - exists (mkList nullptr 0). split_and!; [by vm_compute|done|done].
  - exists (mkList nullptr 0). split_and!; [by vm_compute|done|done].
  - discriminate.
Defined.

(** [10, 20] against [10, 30]: the loop passes the equivalent first
    elements and decides on the second. *)
Lemma list_lt_is_lexicographic_witness :
  ∃ b,
    list_lt Z.ltb false 1 3 store_cmp = Ok b store_cmp
    ∧ (b = true ↔
       ∃ i y,
         [10; 30] !! i = Some y
         ∧ (∀ j, (j < i)%nat →
              ∃ x' y', [10; 20] !! j = Some x' ∧ [10; 30] !! j = Some y'
                       ∧ (x' <? y') = false ∧ (y' <? x') = false)
         ∧ ([10; 20] !! i = None
            ∨ ∃ x, [10; 20] !! i = Some x ∧ (x <? y) = true)).
Proof.
  apply (list_lt_is_lexicographic false Z.ltb store_cmp 1 3
           (mkList (node_at 2) 2) (mkList (node_at 6) 2) chain_1 chain_3).
  - vm_compute. reflexivity.
  - vm_compute. reflexivity.
  - exact store_cmp_chain_1.
  - exact store_cmp_chain_3.
Defined.

Lemma list_order_is_total_witness :
  ∃ lt eq gt le ge,
    list_lt Z.ltb false 1 3 store_abc = Ok lt store_abc
    ∧ list_eq Z.eqb false 1 3 store_abc = Ok eq store_abc
    ∧ list_gt Z.ltb false 1 3 store_abc = Ok gt store_abc
    ∧ list_le Z.ltb false 1 3 store_abc = Ok le store_abc
    ∧ list_ge Z.ltb false 1 3 store_abc = Ok ge store_abc
    ∧ (eq = true ↔ chain_ab.*2 = chain_c.*2)
    ∧ (lt = true ∧ eq = false ∧ gt = false
       ∨ lt = false ∧ eq = true ∧ gt = false
       ∨ lt = false ∧ eq = false ∧ gt = true)
    ∧ le = lt || eq
    ∧ ge = gt || eq.
Proof.
  apply (list_order_is_total Z.eqb false Z.ltb Z.eqb_eq Z.ltb_irrefl
           Z_ltb_asym Z_ltb_total store_abc 1 3 chain_ab chain_c).
  - exact store_abc_first.
  - exact store_abc_third.
Defined.

(** [10, 20] < [10, 30] and [10, 30] < [30], hence [10, 20] < [30]. *)
Lemma list_lt_is_transitive_witness :
  list_lt Z.ltb false 1 4 store_cmp = Ok true store_cmp.
Proof.
  apply (list_lt_is_transitive false Z.ltb Z_ltb_total Z_ltb_trans
           store_cmp 1 3 4 chain_1 chain_3 chain_4).
  - exact store_cmp_first.
  - exact store_cmp_third.
  - exact store_cmp_fourth.
  - vm_compute. reflexivity.
  - vm_compute. reflexivity.
Defined.

Lemma interface_keeps_every_node_owned_witness :
  wf (store_after calls_copy_assign)
  ∧ no_garbage (store_after calls_copy_assign).
Proof.
  apply (interface_keeps_every_node_owned Z.eqb false
           (store_after calls_copy_assign)).
  apply (store_after_reachable calls_copy_assign). vm_compute. reflexivity.
Defined.

Lemma destroying_every_list_frees_every_node_witness :
  nodes (store_after calls_destroy_all) = ∅.
Proof.
  apply (destroying_every_list_frees_every_node Z.eqb false
           (store_after calls_destroy_all)).
  - apply (store_after_reachable calls_destroy_all). vm_compute. reflexivity.
  - vm_compute. reflexivity.
Defined.

(** * The header's test cases, run *)

Example init_123 :
  result_of (l <- SingleLinkedList_init false [1; 2; 3] ;; contents l)
  = Some ([1; 2; 3], 3).
Proof. vm_compute. reflexivity. Qed.

Example init_empty :
  failure_of (SingleLinkedList_init false []) = Some UndefinedBehaviour.
Proof. vm_compute. reflexivity. Qed.

Example copy_empty :
  result_of (l <- new_list ;; c <- SingleLinkedList_copy false l ;; contents c)
  = Some ([], 0).
Proof. vm_compute. reflexivity. Qed.

Example copy_then_mutate :
  result_of (l1 <- SingleLinkedList_init false [1; 2; 3] ;;
             l2 <- SingleLinkedList_copy false l1 ;;
             PushFront l2 0 ;;; PopFront l1 ;;; both l1 l2)
  = Some ([2; 3], [0; 1; 2; 3]).
Proof. vm_compute. reflexivity. Qed.

Example push_front_ab :
  result_of (l <- SingleLinkedList_init false [1; 2] ;;
             PushFront l 9 ;;; contents l)
  = Some ([9; 1; 2], 3).
Proof. vm_compute. reflexivity. Qed.

Example insert_after_before_begin :
  result_of (l <- SingleLinkedList_init false [1; 2] ;;
             p <- before_begin l ;;
             it <- InsertAfter false l p 9 ;;
             v <- it_deref false it ;;
             r <- contents l ;; ret (v, r))
  = Some (9, ([9; 1; 2], 3)).
Proof. vm_compute. reflexivity. Qed.

Example insert_after_first :
  result_of (l <- SingleLinkedList_init false [1; 2] ;;
             p <- begin_ l ;;
             it <- InsertAfter false l p 9 ;;
             v <- it_deref false it ;;
             r <- contents l ;; ret (v, r))
  = Some (9, ([1; 9; 2], 3)).
Proof. vm_compute. reflexivity. Qed.

Example erase_after_before_begin :
  result_of (l <- SingleLinkedList_init false [1; 2; 3] ;;
             p <- before_begin l ;;
             it <- EraseAfter false l p ;;
             v <- it_deref false it ;;
             r <- contents l ;; ret (v, r))
  = Some (2, ([2; 3], 2)).
Proof. vm_compute. reflexivity. Qed.

Example erase_after_last_but_one :
  result_of (l <- SingleLinkedList_init false [1; 2] ;;
             p <- begin_ l ;;
             it <- EraseAfter false l p ;;
             e <- end_ l ;;
             r <- contents l ;; ret (it_eq it e, r))
  = Some (true, ([1], 1)).
Proof. vm_compute. reflexivity. Qed.

Example erase_after_on_empty :
  result_of (l <- new_list ;;
             it <- EraseAfter false l (Iterator nullptr) ;;
             r <- contents l ;; ret (it, r))
  = Some (Iterator nullptr, ([], 0)).
Proof. vm_compute. reflexivity. Qed.

Example pop_front_abc :
  result_of (l <- SingleLinkedList_init false [1; 2; 3] ;;
             PopFront l ;;; contents l)
  = Some ([2; 3], 2).
Proof. vm_compute. reflexivity. Qed.

Example pop_front_empty :
  result_of (l <- new_list ;; PopFront l ;;; contents l) = Some ([], 0).
Proof. vm_compute. reflexivity. Qed.

Example clear_then_empty :
  result_of (l <- SingleLinkedList_init false [1; 2; 3] ;;
             Clear l ;;; Clear l ;;;
             e <- IsEmpty l ;; r <- contents l ;; ret (e, r))
  = Some (true, ([], 0)).
Proof. vm_compute. reflexivity. Qed.

Example equal_same_sequence :
  result_of (l1 <- SingleLinkedList_init false [1; 2; 3] ;;
             l2 <- SingleLinkedList_init false [1; 2; 3] ;;
             e <- list_eq Z.eqb false l1 l2 ;;
             n <- list_ne Z.eqb false l1 l2 ;; ret (e, n))
  = Some (true, false).
Proof. vm_compute. reflexivity. Qed.

Example unequal_sizes :
  result_of (l1 <- SingleLinkedList_init false [1; 2] ;;
             l2 <- SingleLinkedList_init false [1; 2; 3] ;;
             e <- list_eq Z.eqb false l1 l2 ;;
             n <- list_ne Z.eqb false l1 l2 ;; ret (e, n))
  = Some (false, true).
Proof. vm_compute. reflexivity. Qed.

Example swap_nonempty_into_empty :
  result_of (l1 <- SingleLinkedList_init false [1; 2] ;;
             l2 <- new_list ;;
             swap_free l1 l2 ;;; both l1 l2)
  = Some ([1; 2], []).
Proof. vm_compute. reflexivity. Qed.

Example swap_empty_with_nonempty :
  result_of (l1 <- new_list ;;
             l2 <- SingleLinkedList_init false [1; 2] ;;
             swap_free l1 l2 ;;; both l1 l2)
  = Some ([1; 2], []).
Proof. vm_compute. reflexivity. Qed.

Example swap_twice_with_one_empty :
  result_of (l1 <- new_list ;;
             l2 <- SingleLinkedList_init false [1; 2] ;;
             swap_free l1 l2 ;;; swap_free l1 l2 ;;; both l1 l2)
  = Some ([1; 2], []).
Proof. vm_compute. reflexivity. Qed.

Example assign_from_nonempty :
  result_of (l1 <- SingleLinkedList_init false [1; 2] ;;
             l2 <- SingleLinkedList_init false [7; 8; 9] ;;
             assign false l1 l2 ;;; both l1 l2)
  = Some ([7; 8; 9], [7; 8; 9]).
Proof. vm_compute. reflexivity. Qed.

Example assign_from_empty :
  result_of (l1 <- SingleLinkedList_init false [1; 2] ;;
             l2 <- new_list ;;
             assign false l1 l2 ;;; both l1 l2)
  = Some ([1; 2], []).
Proof. vm_compute. reflexivity. Qed.

Example assign_between_empty_lists :
  failure_of (l1 <- new_list ;; l2 <- new_list ;; assign false l1 l2)
  = Some AssertionFailed.
Proof. vm_compute. reflexivity. Qed.

Example assign_to_itself :
  failure_of (l <- SingleLinkedList_init false [1; 2] ;; assign false l l)
  = Some AssertionFailed.
Proof. vm_compute. reflexivity. Qed.

Example assign_to_itself_release :
  result_of (l <- SingleLinkedList_init false [1; 2] ;;
             assign true l l ;;; contents l)
  = Some ([1; 2], 2).
Proof. vm_compute. reflexivity. Qed.

Example set_size_lies :
  result_of (l <- SingleLinkedList_init false [1; 2] ;;
             SetSize l 0 ;;;
             e <- IsEmpty l ;; r <- contents l ;; ret (e, r))
  = Some (true, ([1; 2], 0)).
Proof. vm_compute. reflexivity. Qed.
